(** * Truth-teller / liar puzzle generator: statement algebra, generator, solver

    A shallow embedding of [utility.js], [statement.js] and the parts of
    [script.js] that assemble a puzzle and check an answer.

    JavaScript numbers that hold integers are modelled as [Z] (every
    integer the program manipulates stays far below 2^53, where double
    arithmetic on integers is exact); the 32-bit conversions performed by
    the bitwise operators are written out.  The results of
    [Math.random()], the complexity factor and the bounds of the length
    band used by the regeneration loop are doubles, hence rationals, and
    are modelled as [Q]; the products and sums that the generator forms
    with them are rounded to doubles as the code rounds them.  Only the
    computation of the length band, which raises 2 to fractional powers,
    is stated over the real numbers. *)

From Stdlib Require Import ZArith QArith Qround Lia Bool Reals Lra.
From Stdlib Require Lqa.
From stdpp Require Import base option list gmap strings pretty.

Local Open Scope Z_scope.

(** ** JavaScript 32-bit integer operators *)

Module JS.

(** [ToUint32] and [ToInt32] on an integral number. *)
Definition toUint32 (x : Z) : Z := x mod 2 ^ 32.

Definition toInt32 (x : Z) : Z :=
  let u := x mod 2 ^ 32 in
  if u <? 2 ^ 31 then u else u - 2 ^ 32.

(** [a & b] *)
Definition and (a b : Z) : Z := Z.land (toInt32 a) (toInt32 b).

(** [~a] *)
Definition not (a : Z) : Z := Z.lnot (toInt32 a).

(** [a << n]: the shift count is taken modulo 32, the result is an int32. *)
Definition shl (a n : Z) : Z := toInt32 (Z.shiftl (toInt32 a) (n mod 32)).

(** [a >> n]: sign-propagating right shift. *)
Definition sar (a n : Z) : Z := Z.shiftr (toInt32 a) (n mod 32).

(** [a >>> n]: zero-fill right shift. *)
Definition shr (a n : Z) : Z := Z.shiftr (toUint32 a) (n mod 32).

End JS.

(** ** Doubles

    A finite double is 0 or a rational [m * 2^e] with an integer [m] of at
    most 53 bits and an exponent [e] of at least -1074.  An arithmetic
    operation on doubles returns the double nearest to the exact result,
    and of two nearest doubles the one with the even [m].  The doubles end
    below [2^1024]; the numbers rounded here stay far below that, and
    results beyond it are not modelled. *)

(** [floor(log2 x)] for a positive [x]. *)
Definition binade (x : Q) : Z :=
  let d := Z.log2 (Qnum x) - Z.log2 (Zpos (Qden x)) in
  if Qle_bool (2 ^ d) x then d else d - 1.

(** The exponent [e] of the doubles next to a positive [x]: they are
    multiples of [2^e]. *)
Definition double_exponent (x : Q) : Z := Z.max (binade x - 52) (-1074).

(** The integer nearest to [y], the even one of two nearest integers. *)
Definition round_half_even (y : Q) : Z :=
  let f := Qfloor y in
  match (y - inject_Z f ?= 1 # 2)%Q with
  | Lt => f
  | Gt => f + 1
  | Eq => if Z.even f then f else f + 1
  end.

(** [x] moved to a double next to it: the multiple [m * 2^e] of [2^e] for
    which [round] picks [m]. *)
Definition round_to_double (round : Q → Z) (x : Q) : Q :=
  match Qnum x with
  | 0 => 0
  | Zpos _ =>
      let e := double_exponent x in
      (inject_Z (round (x / 2 ^ e)) * 2 ^ e)%Q
  | Zneg _ =>
      let e := double_exponent (- x) in
      (- (inject_Z (round (- x / 2 ^ e)) * 2 ^ e))%Q
  end.

(** The double that an arithmetic operation returns for the exact result
    [x]. *)
Definition binary64 : Q → Q := round_to_double round_half_even.

(** A number read as a double: the double next to it towards 0.  A double
    is left as it is. *)
Definition to_double : Q → Q := round_to_double Qfloor.

(** The largest relative error of a rounding, [2^-53]. *)
Definition unit_roundoff : Q := 1 # 9007199254740992.

(** [r * x] for a value [r] of [Math.random()], which is a double, and a
    double [x]. *)
Definition random_times (r x : Q) : Q := binary64 (to_double r * x).

(** [Math.pow(x, n)] for an integer [n], taken to be the double nearest to
    the power; the language leaves open how near to the power the result
    is.  At the exponents 0 and 1 this is exact. *)
Definition Math_pow (x : Q) (n : Z) : Q := binary64 (x ^ n).

(** ** utility.js *)

(** [popcount(x)] for an integer [x] of absolute value below [2^53].  The
    first line subtracts doubles: in that range the difference is exact,
    beyond it the code rounds the difference.  The remaining lines work on
    32-bit values, where every operation is exact. *)
Definition popcount (x : Z) : Z :=
  let x := x - JS.shr (JS.and x 0xAAAAAAAA) 1 in
  let x := JS.and x 0x33333333 + JS.shr (JS.and x 0xCCCCCCCC) 2 in
  let x := JS.and (x + JS.shr x 4) 0x0F0F0F0F in
  JS.shr (x * 0x01010101) 24.

(** The reference bit count: [n] rounds of "add the lowest bit, shift right
    by one". *)
Fixpoint naive_popcount (n : nat) (x : Z) : Z :=
  match n with
  | O => 0
  | S n' => x mod 2 + naive_popcount n' (x / 2)
  end.


(** [hasDuplicate(array)]: the [Set] of elements seen so far is a [gset]. *)
Fixpoint hasDuplicate_from (previousElements : gset Z) (array : list Z) : bool :=
  match array with
  | [] => false
  | element :: rest =>
    if bool_decide (element ∈ previousElements) then true
    else hasDuplicate_from ({[element]} ∪ previousElements) rest
  end.

Definition hasDuplicate (array : list Z) : bool := hasDuplicate_from ∅ array.

(** ** statement.js: contexts *)

Record LogicalStatementContext := mkContext {
  personCount : Z;
  speakerIndex : Z;
  isRoot : bool;
  shouldUseGa : bool;
  preconditionPredicate : option bool;   (* [null] or a boolean *)
  complexityFactor : Q
}.

Global Instance LogicalStatementContext_inhabited : Inhabited LogicalStatementContext :=
  populate (mkContext 0 0 false false None 1).

(** Context objects live in a store: a statement holds a reference to its
    context, and [statement.js] assigns to fields of context objects.  A
    reference is the position of the object in the store; [h !!! c] reads
    the object.  Objects are never removed, so the references the program
    holds always point into the store. *)
Definition ref := nat.
Abbreviation store := (list LogicalStatementContext).

(** ** statement.js: statements

    One constructor per concrete class.  The abstract base class
    [LogicalStatement], whose methods only throw, has no instances.  A
    [BasicLogicalNotStatement] takes its context from its substatement. *)
Inductive LogicalStatement :=
  | BasicLogicalNotStatement (substatement : LogicalStatement)
  | BasicLogicalOrStatement (context : ref) (substatement1 substatement2 : LogicalStatement)
  | BasicLogicalAndStatement (context : ref) (substatement1 substatement2 : LogicalStatement)
  | TrueFalseStatement (context : ref) (subjectIndex : Z) (isTruthTeller : bool)
  | TypeCountStatement (context : ref) (subjectBits liarCountBits : Z)
  | LogicalAndStatement (context : ref) (substatement1 substatement2 : LogicalStatement)
  | LogicalOrStatement (context : ref) (substatement1 substatement2 : LogicalStatement)
  | LogicalIfStatement (context : ref) (antecedent consequent : LogicalStatement).

(** [this.context] *)
Fixpoint context_of (s : LogicalStatement) : ref :=
  match s with
  | BasicLogicalNotStatement sub => context_of sub
  | BasicLogicalOrStatement c _ _ | BasicLogicalAndStatement c _ _
  | TrueFalseStatement c _ _ | TypeCountStatement c _ _
  | LogicalAndStatement c _ _ | LogicalOrStatement c _ _
  | LogicalIfStatement c _ _ => c
  end.

(** [predicate()]: only [TrueFalseStatement] overrides the base method. *)
Definition predicate (s : LogicalStatement) : option bool :=
  match s with
  | TrueFalseStatement _ _ isTruthTeller => Some isTruthTeller
  | _ => None
  end.

(** [subjectBitsArray()]; [None] stands for the [TypeError] thrown by the
    base method, which the three basic connectives inherit. *)
Fixpoint subjectBitsArray (s : LogicalStatement) : option (list Z) :=
  match s with
  | TrueFalseStatement _ subjectIndex _ => Some [JS.shl 1 subjectIndex]
  | TypeCountStatement _ subjectBits _ => Some [subjectBits]
  | LogicalAndStatement _ s1 s2 | LogicalOrStatement _ s1 s2
  | LogicalIfStatement _ s1 s2 =>
    a1 ← subjectBitsArray s1; a2 ← subjectBitsArray s2; Some (a1 ++ a2)
  | _ => None
  end.

(** [isTrueOn(peopleTypeBits)] *)
Fixpoint isTrueOn (s : LogicalStatement) (peopleTypeBits : Z) : bool :=
  match s with
  | BasicLogicalNotStatement sub => negb (isTrueOn sub peopleTypeBits)
  | BasicLogicalOrStatement _ s1 s2 | LogicalOrStatement _ s1 s2 =>
    isTrueOn s1 peopleTypeBits || isTrueOn s2 peopleTypeBits
  | BasicLogicalAndStatement _ s1 s2 | LogicalAndStatement _ s1 s2 =>
    isTrueOn s1 peopleTypeBits && isTrueOn s2 peopleTypeBits
  | TrueFalseStatement _ subjectIndex isTruthTeller =>
    let subjectBit := JS.and (JS.sar peopleTypeBits subjectIndex) 1 in
    eqb (negb (subjectBit =? 0)) isTruthTeller
  | TypeCountStatement _ subjectBits liarCountBits =>
    let liarCount := popcount (JS.and subjectBits (JS.not peopleTypeBits)) in
    let liarCountBit := JS.and (JS.sar liarCountBits liarCount) 1 in
    negb (liarCountBit =? 0)
  | LogicalIfStatement _ antecedent consequent =>
    negb (isTrueOn antecedent peopleTypeBits) || isTrueOn consequent peopleTypeBits
  end.

(** The assignments visited by
    [for (let peopleTypeBits = 0; peopleTypeBits < (1 << personCount); peopleTypeBits++)]. *)
Definition assignments (personCount : Z) : list Z := seqZ 0 (JS.shl 1 personCount).

Section WithStore.

Variable h : store.

(** [isConsistentOn(peopleTypeBits)] *)
Definition isConsistentOn (s : LogicalStatement) (peopleTypeBits : Z) : bool :=
  let speakerBit :=
    JS.and (JS.sar peopleTypeBits (speakerIndex (h !!! context_of s))) 1 in
  eqb (isTrueOn s peopleTypeBits) (negb (speakerBit =? 0)).

(** [isTautology()] *)
Definition isTautology (s : LogicalStatement) : bool :=
  forallb (isTrueOn s) (assignments (personCount (h !!! context_of s))).

(** [implies(anotherStatement)] *)
Definition implies (s anotherStatement : LogicalStatement) : bool :=
  isTautology
    (BasicLogicalOrStatement (context_of s) (BasicLogicalNotStatement s) anotherStatement).

(** script.js: [solutionsTo(statements)] *)
Definition solutionsTo (statements : list LogicalStatement) : list Z :=
  let personCount := Z.of_nat (length statements) in
  filter (λ peopleTypeBits,
            forallb (λ s, isConsistentOn s peopleTypeBits) statements = true)
         (assignments personCount).

End WithStore.


(** ** Auxiliary definitions for the correctness proof of [popcount]

    Each round of the parallel bit count, restricted to a 16-bit half, and the
    boolean check run on every half. *)

Definition pair_sums (v : Z) : Z := v - Z.land v 0xAAAA / 2.
Definition nibble_sums (v : Z) : Z := Z.land v 0x3333 + Z.land v 0xCCCC / 4.
Definition byte_sums (v k : Z) : Z := Z.land (v + v / 16 + 4096 * k) 0x0F0F.

Definition leak_ok (b t k : Z) : bool :=
  (b + b / 16 + 4096 * k <? 65536) && (byte_sums b k =? t).

Definition half_ok (v : Z) : bool :=
  let a := pair_sums v in
  let b := nibble_sums a in
  let t := byte_sums b 0 in
  (Z.land v 0xAAAA mod 2 =? 0) && (0 <=? a) && (a <? 65536)
  && (Z.land a 0xCCCC mod 4 =? 0) && (0 <=? b) && (b <? 65536)
  && (b mod 16 <=? 4)
  && leak_ok b t 0 && leak_ok b t 1 && leak_ok b t 2 && leak_ok b t 3
  && leak_ok b t 4
  && (t mod 256 <=? 8) && (t / 256 <=? 8)
  && (naive_popcount 16 v =? t mod 256 + t / 256).

Fixpoint all_from (n : nat) (i : Z) (f : Z -> bool) : bool :=
  match n with
  | O => true
  | S n' => f i && all_from n' (i + 1) f
  end.

(** ** Effects: the store of contexts, the random source, exceptions *)

Inductive exn :=
  | NoStatementClass   (* the [Error] thrown by [randomStatement] *)
  | TypeError
  | RangeError.

(** [OutOfFuel] marks a run of the model cut off before the JavaScript
    loops have finished; it is not an outcome of the program. *)
Inductive outcome (A : Type) :=
  | Ok (a : A)
  | Throw (e : exn)
  | OutOfFuel.
Arguments Ok {A} a.
Arguments Throw {A} e.
Arguments OutOfFuel {A}.

(** The mutable state: the store of context objects and the number of
    calls to [Math.random()] made so far. *)
Record state := mkState { contexts : store; drawn : nat }.

Definition M (A : Type) : Type := state → outcome A * state.

Definition ret {A} (a : A) : M A := λ s, (Ok a, s).

Definition bind {A B} (m : M A) (k : A → M B) : M B :=
  λ s, match m s with
       | (Ok a, s') => k a s'
       | (Throw e, s') => (Throw e, s')
       | (OutOfFuel, s') => (OutOfFuel, s')
       end.

Definition throw {A} (e : exn) : M A := λ s, (Throw e, s).
Definition out_of_fuel {A} : M A := λ s, (OutOfFuel, s).

Notation "x <- m ;; k" := (bind m (λ x, k))
  (at level 100, m at next level, right associativity).
Notation "m ;; k" := (bind m (λ _, k))
  (at level 100, right associativity).

Definition get_store : M store := λ s, (Ok (contexts s), s).

(** [new LogicalStatementContext(...)] *)
Definition new_context (c : LogicalStatementContext) : M ref :=
  λ s, (Ok (length (contexts s)), mkState (contexts s ++ [c]) (drawn s)).

(** [LogicalStatementContext.from(other)] *)
Definition LogicalStatementContext_from (other : ref) : M ref :=
  other_fields <- get_store;;
  let o := other_fields !!! other in
  new_context (mkContext (personCount o) (speakerIndex o) (isRoot o)
                 (shouldUseGa o) (preconditionPredicate o) (complexityFactor o)).

(** Field assignments [c.isRoot = v], [c.shouldUseGa = v],
    [c.preconditionPredicate = v]. *)
Definition update_context (c : ref) (f : LogicalStatementContext → LogicalStatementContext)
  : M unit :=
  λ s, (Ok tt, mkState (alter f c (contexts s)) (drawn s)).

Definition set_isRoot (c : ref) (v : bool) : M unit :=
  update_context c (λ o, mkContext (personCount o) (speakerIndex o) v
                           (shouldUseGa o) (preconditionPredicate o) (complexityFactor o)).

Definition set_shouldUseGa (c : ref) (v : bool) : M unit :=
  update_context c (λ o, mkContext (personCount o) (speakerIndex o) (isRoot o)
                           v (preconditionPredicate o) (complexityFactor o)).

Definition set_preconditionPredicate (c : ref) (v : option bool) : M unit :=
  update_context c (λ o, mkContext (personCount o) (speakerIndex o) (isRoot o)
                           (shouldUseGa o) v (complexityFactor o)).

(** Comparison [x < y] of two doubles. *)
Definition Qltb (x y : Q) : bool := negb (Qle_bool y x).

(** [Math.floor(r * n)] for a draw [r] and an integer [n]: the floor of the
    product as a double. *)
Definition floor_scaled (r : Q) (n : Z) : Z := Qfloor (random_times r (inject_Z n)).

(** ** statement.js: the registry of statement classes *)

Inductive StatementClass :=
  | ClassTrueFalse | ClassTypeCount | ClassLogicalAnd | ClassLogicalOr | ClassLogicalIf.

Definition nestingLayer (c : StatementClass) : Z :=
  match c with
  | ClassTrueFalse => 0
  | ClassTypeCount => 0
  | ClassLogicalAnd => 1
  | ClassLogicalOr => 1
  | ClassLogicalIf => 2
  end.

(** The class a statement is an instance of; the basic connectives are not
    registered classes. *)
Definition class_of (s : LogicalStatement) : option StatementClass :=
  match s with
  | TrueFalseStatement _ _ _ => Some ClassTrueFalse
  | TypeCountStatement _ _ _ => Some ClassTypeCount
  | LogicalAndStatement _ _ _ => Some ClassLogicalAnd
  | LogicalOrStatement _ _ _ => Some ClassLogicalOr
  | LogicalIfStatement _ _ _ => Some ClassLogicalIf
  | _ => None
  end.

(** [addStatementClasses(...childClasses)] and the registry after the call
    on the last line of [statement.js]. *)
Definition addStatementClasses (registry childClasses : list StatementClass)
  : list StatementClass := registry ++ childClasses.

Definition childStatementClasses : list StatementClass :=
  addStatementClasses []
    [ClassTrueFalse; ClassTypeCount; ClassLogicalAnd; ClassLogicalOr; ClassLogicalIf].

(** The [maxLayer] argument: an integer or [Infinity]. *)
Inductive layer_bound := Finite (z : Z) | Infinity.

(** [layer <= maxLayer] *)
Definition layer_le (layer : Z) (maxLayer : layer_bound) : bool :=
  match maxLayer with
  | Finite z => layer <=? z
  | Infinity => true
  end.

(** The classes kept by the [forEach] at the head of [randomStatement]. *)
Definition eligible (maxLayer : layer_bound) : list StatementClass :=
  filter (λ c, layer_le (nestingLayer c) maxLayer = true) childStatementClasses.

(** The running sum of the weights [Math.pow(complexityFactor, nestingLayer)]
    and the array of partial sums. *)
Definition cumulative_weights (complexityFactor : Q) (classChoices : list StatementClass)
  : Q * list Q :=
  fold_left
    (λ (acc : Q * list Q) c,
       let weight := Math_pow complexityFactor (nestingLayer c) in
       let weightSum := binary64 (fst acc + weight) in
       (weightSum, snd acc ++ [weightSum]))
    classChoices (0%Q, []).

(** The inner [for] loop selecting [choiceIndex]: the first [i] below
    [count] with [r < partialWeightSums[i]]; a comparison with a missing
    element is false. *)
Fixpoint first_below (r : Q) (partialWeightSums : list Q) (count i : nat) : option nat :=
  match count with
  | O => None
  | S count' =>
      match partialWeightSums !! i with
      | Some w => if Qltb r w then Some i else first_below r partialWeightSums count' (S i)
      | None => first_below r partialWeightSums count' (S i)
      end
  end.

Definition choose_index (r : Q) (partialWeightSums : list Q) (count : nat) : nat :=
  default (count - 1)%nat (first_below r partialWeightSums count 0).

(** ** statement.js: random generation *)

Section Generation.

(** The sequence of values returned by [Math.random()].  They are
    doubles; where one enters a product it is read with [to_double], which
    leaves a double as it is, so that the definitions apply to every
    sequence of rationals. *)
Variable rnd : nat → Q.

Definition Math_random : M Q :=
  λ s, (Ok (rnd (drawn s)), mkState (contexts s) (S (drawn s))).

(** [TrueFalseStatement.random(context)] *)
Definition TrueFalseStatement_random (context : ref) : M LogicalStatement :=
  r1 <- Math_random;;
  h <- get_store;;
  let subjectIndex := floor_scaled r1 (personCount (h !!! context)) in
  r2 <- Math_random;;
  let isTruthTeller := Qltb r2 (1 # 2) in
  ret (TrueFalseStatement context subjectIndex isTruthTeller).

(** The [do ... while (popcount(subjectBits) <= 1)] loop of
    [TypeCountStatement.random]. *)
Fixpoint TypeCountStatement_random_subjectBits (fuel : nat) (context : ref) : M Z :=
  match fuel with
  | O => out_of_fuel
  | S fuel' =>
      r <- Math_random;;
      h <- get_store;;
      let subjectBits := floor_scaled r (JS.shl 1 (personCount (h !!! context))) in
      if popcount subjectBits <=? 1
      then TypeCountStatement_random_subjectBits fuel' context
      else ret subjectBits
  end.

(** [TypeCountStatement.random(context)] *)
Definition TypeCountStatement_random (fuel : nat) (context : ref) : M LogicalStatement :=
  subjectBits <- TypeCountStatement_random_subjectBits fuel context;;
  let subjectCount := popcount subjectBits in
  r <- Math_random;;
  let liarCountBits := floor_scaled r (JS.shl 1 (subjectCount + 1) - 2) + 1 in
  ret (TypeCountStatement context subjectBits liarCountBits).

(** The part of [randomStatement] before its [while (true)] loop, over the
    loop that follows it. *)
Definition randomStatement_with
    (loop : ref → list StatementClass → Q → list Q → M LogicalStatement)
    (context : ref) (maxLayer : layer_bound) : M LogicalStatement :=
  let classChoices := eligible maxLayer in
  if (length classChoices =? 0)%nat then throw NoStatementClass
  else
    h <- get_store;;
    let weights := cumulative_weights (complexityFactor (h !!! context)) classChoices in
    loop context classChoices (fst weights) (snd weights).

(** The [while (true)] loops of [randomStatement], [LogicalAndStatement.random],
    [LogicalOrStatement.random] and [LogicalIfStatement.random]; every
    iteration and every nested call uses up one unit of fuel. *)
Fixpoint randomStatement_loop (fuel : nat) (context : ref)
    (classChoices : list StatementClass) (weightSum : Q) (partialWeightSums : list Q)
    {struct fuel} : M LogicalStatement :=
  match fuel with
  | O => out_of_fuel
  | S fuel' =>
      r0 <- Math_random;;
      let r := random_times r0 weightSum in
      let choiceIndex := choose_index r partialWeightSums (length classChoices) in
      match classChoices !! choiceIndex with
      | None => throw TypeError
      | Some classChoice =>
          randomStatement <-
            (* [classChoice.random(context)] *)
            match classChoice with
            | ClassTrueFalse => TrueFalseStatement_random context
            | ClassTypeCount => TypeCountStatement_random fuel' context
            | ClassLogicalAnd => LogicalAndStatement_random fuel' context
            | ClassLogicalOr => LogicalOrStatement_random fuel' context
            | ClassLogicalIf => LogicalIfStatement_random fuel' context
            end;;
          match subjectBitsArray randomStatement with
          | None => throw TypeError
          | Some array =>
              if hasDuplicate array
              then randomStatement_loop fuel' context classChoices weightSum partialWeightSums
              else ret randomStatement
          end
      end
  end

with LogicalAndStatement_random (fuel : nat) (context : ref) {struct fuel}
  : M LogicalStatement :=
  match fuel with
  | O => out_of_fuel
  | S fuel' =>
      substatementContext1 <- LogicalStatementContext_from context;;
      set_isRoot substatementContext1 false;;
      substatement1 <-
        randomStatement_with (randomStatement_loop fuel') substatementContext1 (Finite 0);;
      substatementContext2 <- LogicalStatementContext_from substatementContext1;;
      set_preconditionPredicate substatementContext2 (predicate substatement1);;
      substatement2 <-
        randomStatement_with (randomStatement_loop fuel') substatementContext2 (Finite 0);;
      let newStatement := LogicalAndStatement context substatement1 substatement2 in
      h <- get_store;;
      if implies h substatement1 newStatement
         || implies h substatement2 newStatement
         || isTautology h (BasicLogicalNotStatement newStatement)
      then LogicalAndStatement_random fuel' context
      else ret newStatement
  end

with LogicalOrStatement_random (fuel : nat) (context : ref) {struct fuel}
  : M LogicalStatement :=
  match fuel with
  | O => out_of_fuel
  | S fuel' =>
      substatementContext <- LogicalStatementContext_from context;;
      set_isRoot substatementContext false;;
      set_shouldUseGa substatementContext true;;
      set_preconditionPredicate substatementContext None;;
      substatement1 <-
        randomStatement_with (randomStatement_loop fuel') substatementContext (Finite 0);;
      substatement2 <-
        randomStatement_with (randomStatement_loop fuel') substatementContext (Finite 0);;
      let newStatement := LogicalOrStatement context substatement1 substatement2 in
      h <- get_store;;
      if implies h newStatement substatement1
         || implies h newStatement substatement2
         || isTautology h newStatement
      then LogicalOrStatement_random fuel' context
      else ret newStatement
  end

with LogicalIfStatement_random (fuel : nat) (context : ref) {struct fuel}
  : M LogicalStatement :=
  match fuel with
  | O => out_of_fuel
  | S fuel' =>
      antecedentContext <- LogicalStatementContext_from context;;
      set_isRoot antecedentContext false;;
      set_shouldUseGa antecedentContext true;;
      antecedent <-
        randomStatement_with (randomStatement_loop fuel') antecedentContext (Finite 1);;
      consequentContext <- LogicalStatementContext_from antecedentContext;;
      h0 <- get_store;;
      set_shouldUseGa consequentContext (shouldUseGa (h0 !!! context));;
      set_preconditionPredicate consequentContext (predicate antecedent);;
      consequent <-
        randomStatement_with (randomStatement_loop fuel') consequentContext (Finite 1);;
      let newStatement := LogicalIfStatement context antecedent consequent in
      h <- get_store;;
      if implies h newStatement (BasicLogicalNotStatement antecedent)
         || implies h newStatement consequent
         || isTautology h newStatement
      then LogicalIfStatement_random fuel' context
      else ret newStatement
  end.

(** [LogicalStatementGenerator.randomStatement(context, maxLayer)] *)
Definition randomStatement (fuel : nat) (context : ref) (maxLayer : layer_bound)
  : M LogicalStatement :=
  randomStatement_with (randomStatement_loop fuel) context maxLayer.

(** [classChoice.random(context)] *)
Definition random_of (classChoice : StatementClass) (fuel : nat) (context : ref)
  : M LogicalStatement :=
  match classChoice with
  | ClassTrueFalse => TrueFalseStatement_random context
  | ClassTypeCount => TypeCountStatement_random fuel context
  | ClassLogicalAnd => LogicalAndStatement_random fuel context
  | ClassLogicalOr => LogicalOrStatement_random fuel context
  | ClassLogicalIf => LogicalIfStatement_random fuel context
  end.

End Generation.

(** ** statement.js: rendering

    A JavaScript string is the list of its UTF-16 code units.  The string
    literals of the source are written as UTF-8 literals and decoded; all
    their characters lie in the basic multilingual plane, one code unit
    each. *)

Abbreviation jsstring := (list Z).

Fixpoint utf8_code_points (bytes : list Z) : list Z :=
  match bytes with
  | [] => []
  | b0 :: rest =>
      if b0 <? 0x80 then b0 :: utf8_code_points rest
      else if b0 <? 0xE0 then
        match rest with
        | b1 :: rest' =>
            Z.lor (Z.shiftl (Z.land b0 0x1F) 6) (Z.land b1 0x3F)
            :: utf8_code_points rest'
        | _ => []
        end
      else
        match rest with
        | b1 :: b2 :: rest' =>
            Z.lor (Z.shiftl (Z.land b0 0x0F) 12)
              (Z.lor (Z.shiftl (Z.land b1 0x3F) 6) (Z.land b2 0x3F))
            :: utf8_code_points rest'
        | _ => []
        end
  end.

Definition lit (s : string) : jsstring :=
  utf8_code_points
    (map (λ a, Z.of_N (Ascii.N_of_ascii a)) (String.list_ascii_of_string s)).

(** [`${n}`] for an integer [n] *)
Definition decimal (n : Z) : jsstring := lit (pretty n).

(** [strings.join(separator)] *)
Fixpoint join (separator : jsstring) (strings : list jsstring) : jsstring :=
  match strings with
  | [] => []
  | [s] => s
  | s :: rest => s ++ separator ++ join separator rest
  end.

(** [[...Array(n).keys()]]: [Array(n)] throws a [RangeError] unless [n] is
    an integer in [0, 2^32). *)
Definition array_keys (n : Z) : outcome (list Z) :=
  if (0 <=? n) && (n <? 2 ^ 32) then Ok (seqZ 0 n) else Throw RangeError.

(** [LogicalStatement.personNameFromIndex(personIndex)] *)
Definition personNameFromIndex (personIndex : Z) : jsstring :=
  [(65 + personIndex) mod 2 ^ 16] ++ lit "さん".

(** [LogicalStatement.personTypeStringFromBool(isTruthTeller)] *)
Definition personTypeStringFromBool (isTruthTeller : bool) : jsstring :=
  if isTruthTeller then lit "正直者" else lit "嘘つき".

(** [context.particle()] *)
Definition particle (c : LogicalStatementContext) : jsstring :=
  if shouldUseGa c then lit "が" else lit "は".

(** The closing of a root sentence. *)
Definition root_ending (c : LogicalStatementContext) : jsstring :=
  if isRoot c then lit "です。" else [].

(** [TrueFalseStatement.prototype.sentence] *)
Definition TrueFalseStatement_sentence (c : LogicalStatementContext)
    (subjectIndex : Z) (isTruthTeller : bool) : jsstring :=
  (if subjectIndex =? speakerIndex c then lit "私" else personNameFromIndex subjectIndex)
  ++ (match preconditionPredicate c with
      | Some p => if eqb p isTruthTeller then lit "も" else particle c
      | None => particle c
      end)
  ++ personTypeStringFromBool isTruthTeller
  ++ root_ending c.

(** [TypeCountStatement.prototype.sentence] *)
Definition TypeCountStatement_sentence (c : LogicalStatementContext)
    (subjectBits liarCountBits : Z) : outcome jsstring :=
  let subjectCount := popcount subjectBits in
  let subjects :=
    if subjectBits =? JS.shl 1 (personCount c) - 1
    then Ok (lit "この" ++ decimal (personCount c) ++ lit "人")
    else
      let me := if JS.and subjectBits (JS.shl 1 (speakerIndex c)) =? 0
                then [] else lit "私と" in
      match array_keys (personCount c) with
      | Ok indices =>
          let subjectIndicesExceptSpeaker :=
            filter (λ i, negb (i =? speakerIndex c)
                         && negb (JS.and subjectBits (JS.shl 1 i) =? 0) = true)
                   indices in
          Ok (me ++ join (if subjectCount =? 2 then lit "と" else lit "、")
                         (map personNameFromIndex subjectIndicesExceptSpeaker))
      | Throw e => Throw e
      | OutOfFuel => OutOfFuel
      end in
  let count :=
    if (liarCountBits =? 1) || (liarCountBits =? JS.shl 1 subjectCount)
    then
      (if subjectCount =? personCount c
       then particle c ++ lit "全員"
       else lit "の" ++ decimal subjectCount ++ lit "人とも")
      ++ personTypeStringFromBool (liarCountBits =? 1)
    else
      lit "のうち、嘘つきの人数" ++ particle c
      ++ (let liarCountBitsFlipped :=
            JS.and (JS.not liarCountBits) (JS.shl 1 (subjectCount + 1) - 1) in
          if JS.and liarCountBits (liarCountBits + 1) =? 0
          then decimal (popcount liarCountBits - 1) ++ lit "人以下"
          else if JS.and liarCountBitsFlipped (liarCountBitsFlipped + 1) =? 0
          then decimal (popcount liarCountBitsFlipped) ++ lit "人以上"
          else join (lit "か")
                 (map (λ i, decimal i ++ lit "人")
                    (filter (λ i, negb (JS.and liarCountBits (JS.shl 1 i) =? 0) = true)
                       (seqZ 0 (subjectCount + 1))))) in
  match subjects with
  | Ok subjects => Ok (subjects ++ count ++ root_ending c)
  | Throw e => Throw e
  | OutOfFuel => OutOfFuel
  end.

(** The template [`${a}${middle}${b}`] of the three compound classes, in
    which either part may throw. *)
Definition compound_sentence (c : LogicalStatementContext)
    (opening : jsstring) (a : outcome jsstring) (middle : jsstring)
    (b : outcome jsstring) : outcome jsstring :=
  match a with
  | Ok a =>
      match b with
      | Ok b => Ok (opening ++ a ++ middle ++ b ++ root_ending c)
      | Throw e => Throw e
      | OutOfFuel => OutOfFuel
      end
  | Throw e => Throw e
  | OutOfFuel => OutOfFuel
  end.

(** [sentence()]; the basic connectives inherit the throwing base method. *)
Fixpoint sentence (h : store) (s : LogicalStatement) : outcome jsstring :=
  match s with
  | TrueFalseStatement c subjectIndex isTruthTeller =>
      Ok (TrueFalseStatement_sentence (h !!! c) subjectIndex isTruthTeller)
  | TypeCountStatement c subjectBits liarCountBits =>
      TypeCountStatement_sentence (h !!! c) subjectBits liarCountBits
  | LogicalAndStatement c s1 s2 =>
      compound_sentence (h !!! c) [] (sentence h s1) (lit "で、") (sentence h s2)
  | LogicalOrStatement c s1 s2 =>
      compound_sentence (h !!! c) [] (sentence h s1) (lit "か、または") (sentence h s2)
  | LogicalIfStatement c s1 s2 =>
      compound_sentence (h !!! c) (lit "もし、") (sentence h s1) (lit "ならば、")
        (sentence h s2)
  | _ => Throw TypeError
  end.

(** ** script.js: assembling a puzzle *)

(** The three arrays the click handler maintains. *)
Record puzzle := mkPuzzle {
  statements : list LogicalStatement;
  sentences : list jsstring;
  solutions : list Z
}.

(** [maxSentenceLength]: a double or [Infinity]. *)
Inductive length_bound := AtMost (q : Q) | Unbounded.

(** [sumOfSentenceLengths] *)
Definition sumOfSentenceLengths (sentences : list jsstring) : Z :=
  fold_left (λ sum (sentence : jsstring), sum + Z.of_nat (length sentence)) sentences 0.

(** The test that ends the regeneration loop. *)
Definition accepted (minSentenceLength : Q) (maxSentenceLength : length_bound)
    (p : puzzle) : bool :=
  (length (solutions p) =? 1)%nat
  && (Qle_bool minSentenceLength (inject_Z (sumOfSentenceLengths (sentences p)))
      && match maxSentenceLength with
         | AtMost q => Qle_bool (inject_Z (sumOfSentenceLengths (sentences p))) q
         | Unbounded => true
         end).

(** [array[i]] for an integer [i]; [None] is [undefined]. *)
Definition array_get {A} (array : list A) (i : Z) : option A :=
  if i <? 0 then None else array !! Z.to_nat i.

(** A pure result taken into the state monad. *)
Definition lift {A} (r : outcome A) : M A := λ s, (r, s).

(** [for] over a list, collecting the results. *)
Fixpoint for_each {A B} (f : A → M B) (l : list A) : M (list B) :=
  match l with
  | [] => ret []
  | a :: rest => b <- f a;; bs <- for_each f rest;; ret (b :: bs)
  end.

Section Assembler.

Variable rnd : nat → Q.

(** One statement and its sentence for the speaker with context [context]. *)
Definition speak (fuel : nat) (context : ref) : M (LogicalStatement * jsstring) :=
  statement <- randomStatement rnd fuel context Infinity;;
  h <- get_store;;
  sentence <- lift (sentence h statement);;
  ret (statement, sentence).

(** The body of the [while (true)] loop after the test: one speaker is
    drawn, that speaker's statement is generated anew, and the puzzle is
    solved again. *)
Definition regenerate_one (fuel : nat) (statementContexts : list ref)
    (personCount : Z) (p : puzzle) : M puzzle :=
  r <- Math_random rnd;;
  let randomSpeakerIndex := floor_scaled r personCount in
  match array_get statementContexts randomSpeakerIndex with
  | None => throw TypeError
  | Some context =>
      spoken <- speak fuel context;;
      let statements' := <[Z.to_nat randomSpeakerIndex := fst spoken]> (statements p) in
      let sentences' := <[Z.to_nat randomSpeakerIndex := snd spoken]> (sentences p) in
      h <- get_store;;
      ret (mkPuzzle statements' sentences' (solutionsTo h statements'))
  end.

(** The [while (true)] loop of the click handler. *)
Fixpoint regenerate (fuel : nat) (statementContexts : list ref) (personCount : Z)
    (minSentenceLength : Q) (maxSentenceLength : length_bound) (p : puzzle)
  : M puzzle :=
  match fuel with
  | O => out_of_fuel
  | S fuel' =>
      if accepted minSentenceLength maxSentenceLength p then ret p
      else
        p' <- regenerate_one fuel' statementContexts personCount p;;
        regenerate fuel' statementContexts personCount
          minSentenceLength maxSentenceLength p'
  end.

(** [generateButton.onclick] from the creation of the contexts to the
    first call of the solver. *)
Definition initial_puzzle (fuel : nat) (personCount : Z) (complexityFactor : Q)
  : M (list ref * puzzle) :=
  statementContexts <-
    for_each (λ speakerIndex,
                new_context (mkContext personCount speakerIndex true false None
                               complexityFactor))
             (seqZ 0 personCount);;
  spoken <- for_each (speak fuel) statementContexts;;
  h <- get_store;;
  let statements := map fst spoken in
  ret (statementContexts,
       mkPuzzle statements (map snd spoken) (solutionsTo h statements)).

(** [generateButton.onclick] from the creation of the contexts to the end
    of the loop, for a length band and a complexity factor already
    computed. *)
Definition generateButton_onclick (fuel : nat) (personCount : Z)
    (minSentenceLength : Q) (maxSentenceLength : length_bound)
    (complexityFactor : Q) : M puzzle :=
  init <- initial_puzzle fuel personCount complexityFactor;;
  regenerate fuel (fst init) personCount minSentenceLength maxSentenceLength (snd init).

End Assembler.

(** ** script.js: the target length band

    The band is computed with [Math.pow] on doubles; here the doubles are
    idealised as real numbers. *)

Inductive length_limit := FiniteLength (x : R) | InfiniteLength.

(** [interpolatedSentenceLength(personCount, t)] *)
Definition interpolatedSentenceLength (personCount : Z) (t : R) : R :=
  let sentenceLengthRangeStart := (11 * IZR personCount)%R in
  let sentenceLengthRangeEnd := (100 * (IZR personCount - 1))%R in
  let interpolationParameter := ((Rpower 2 (2 * t) - 1) / 3)%R in
  (sentenceLengthRangeStart
   + interpolationParameter * (sentenceLengthRangeEnd - sentenceLengthRangeStart))%R.

(** [minSentenceLength] and [maxSentenceLength] as the click handler
    computes them from the person count and the complexity selector. *)
Definition minSentenceLength (personCount sentenceComplexity : Z) : R :=
  if sentenceComplexity =? 0 then 0%R
  else interpolatedSentenceLength personCount (IZR sentenceComplexity / 5)%R.

Definition maxSentenceLength (personCount sentenceComplexity : Z) : length_limit :=
  if sentenceComplexity =? 4 then InfiniteLength
  else FiniteLength
         (interpolatedSentenceLength personCount (IZR (sentenceComplexity + 1) / 5)%R).

(** The same computation with every arithmetic result rounded to a double
    by [round] and with [Math.pow] as a parameter [pow]: neither the
    rounding nor the values of [Math.pow] at fractional exponents are
    fixed by the source. *)
Section RoundedBandDefs.
Variable round : R → R.
Variable pow : R → R → R.

Definition interpolatedSentenceLength_rounded (personCount : Z) (t : R) : R :=
  let sentenceLengthRangeStart := round (11 * IZR personCount) in
  let sentenceLengthRangeEnd := round (100 * round (IZR personCount - 1)) in
  let interpolationParameter := round (round (pow 2 (round (2 * t)) - 1) / 3) in
  round (sentenceLengthRangeStart
         + round (interpolationParameter
                  * round (sentenceLengthRangeEnd - sentenceLengthRangeStart))).

Definition minSentenceLength_rounded (personCount sentenceComplexity : Z) : R :=
  if sentenceComplexity =? 0 then 0%R
  else interpolatedSentenceLength_rounded personCount (round (IZR sentenceComplexity / 5)).
End RoundedBandDefs.

(** ** Predicates on generated statements *)

(** The outcome of the rejection loops of the two layer-1 classes: on a
    conjunction neither conjunct implies the whole; on a disjunction the
    whole implies neither disjunct. *)
Definition no_redundant_part (h : store) (s : LogicalStatement) : Prop :=
  match s with
  | LogicalAndStatement _ s1 s2 => implies h s1 s = false ∧ implies h s2 s = false
  | LogicalOrStatement _ s1 s2 => implies h s s1 = false ∧ implies h s s2 = false
  | _ => False
  end.

(** Statements built from the five registered classes only. *)
Fixpoint generated (s : LogicalStatement) : Prop :=
  match s with
  | TrueFalseStatement _ _ _ | TypeCountStatement _ _ _ => True
  | LogicalAndStatement _ s1 s2 | LogicalOrStatement _ s1 s2
  | LogicalIfStatement _ s1 s2 => generated s1 ∧ generated s2
  | _ => False
  end.

(** Every context referenced from the statement is one of the first [n]
    objects of the store. *)
Fixpoint refs_below (n : nat) (s : LogicalStatement) : Prop :=
  match s with
  | BasicLogicalNotStatement sub => refs_below n sub
  | TrueFalseStatement c _ _ | TypeCountStatement c _ _ => (c < n)%nat
  | BasicLogicalOrStatement c s1 s2 | BasicLogicalAndStatement c s1 s2
  | LogicalAndStatement c s1 s2 | LogicalOrStatement c s1 s2
  | LogicalIfStatement c s1 s2 => (c < n)%nat ∧ refs_below n s1 ∧ refs_below n s2
  end.

(** [hasDuplicate(s.subjectBitsArray())] returns [false]. *)
Definition no_repeated_subject (s : LogicalStatement) : Prop :=
  ∃ array, subjectBitsArray s = Some array ∧ hasDuplicate array = false.

(** A postcondition on the result of a run: the run did not throw, and if
    it returned, [Q] holds of the value and the final state. *)
Definition post_of {A} (r : outcome A * state) (Q : A → state → Prop) : Prop :=
  match r with
  | (Ok a, s') => Q a s'
  | (Throw _, _) => False
  | (OutOfFuel, _) => True
  end.

(** What a generating function called on [context] in a store of [n0]
    objects guarantees about the statement it returns and the final state:
    the objects of [h0] are still there, unchanged; no object was removed;
    the statement is an instance of an allowed class, built from
    registered classes only, and refers to existing contexts. *)
Definition gen_post (h0 : store) (n0 : nat) (context : ref)
    (allowed : StatementClass → Prop)
    (s : LogicalStatement) (s' : state) : Prop :=
  h0 `prefix_of` contexts s' ∧
  (n0 ≤ length (contexts s'))%nat ∧
  generated s ∧
  (∃ c, class_of s = Some c ∧ allowed c) ∧
  ((context < n0)%nat → refs_below (length (contexts s')) s).

(** The guarantees of the generating functions, as statements about a given
    amount of fuel. *)
Section GeneratorGuarantees.

Variable rnd : nat → Q.

Definition loop_spec (fuel : nat) : Prop :=
  ∀ h0 context classChoices weightSum partialWeightSums s,
    h0 `prefix_of` contexts s → classChoices ≠ [] →
    post_of (randomStatement_loop rnd fuel context classChoices weightSum partialWeightSums s)
      (λ st s', gen_post h0 (length (contexts s)) context (λ c, c ∈ classChoices) st s'
                ∧ no_repeated_subject st).

Definition class_spec (fuel : nat) : Prop :=
  ∀ h0 classChoice context s,
    h0 `prefix_of` contexts s →
    post_of (random_of rnd classChoice fuel context s)
      (gen_post h0 (length (contexts s)) context (λ c, c = classChoice)).

End GeneratorGuarantees.

(** ** Count statements that say something

    What C10 asks of a [TypeCountStatement] among [N] people. *)
Definition informative_count_statement (h : store) (N : Z) (st : LogicalStatement) : Prop :=
  ∃ c subjectBits liarCountBits,
    st = TypeCountStatement c subjectBits liarCountBits ∧
    2 <= popcount subjectBits ∧
    (∃ k, 0 <= k <= popcount subjectBits ∧ Z.testbit liarCountBits k = true) ∧
    (∃ k, 0 <= k <= popcount subjectBits ∧ Z.testbit liarCountBits k = false) ∧
    (∀ k, 0 <= k <= popcount subjectBits →
          ∃ a, 0 <= a < 2 ^ N ∧ popcount (JS.and subjectBits (JS.not a)) = k) ∧
    (∃ a, 0 <= a < 2 ^ N ∧ isTrueOn st a = true) ∧
    (∃ a, 0 <= a < 2 ^ N ∧ isTrueOn st a = false) ∧
    isTautology h st = false ∧
    isTautology h (BasicLogicalNotStatement st) = false.

(** Every value returned by [Math.random()] lies in [0, 1). *)
Definition valid_draws (rnd : nat → Q) : Prop := ∀ n, (0 <= rnd n)%Q ∧ (rnd n < 1)%Q.

(** ** The regeneration loop, from the specification *)

(** [min <= sum && sum <= max] *)
Definition within_band (minSentenceLength : Q) (maxSentenceLength : length_bound)
    (sum : Z) : Prop :=
  (minSentenceLength <= inject_Z sum)%Q ∧
  match maxSentenceLength with
  | AtMost q => (inject_Z sum <= q)%Q
  | Unbounded => True
  end.

(** The store and the three arrays at the head of the loop: the solutions
    are those of the statements, and the sentences are their renderings. *)
Definition puzzle_ok (s : state) (statementContexts : list ref) (p : puzzle) : Prop :=
  solutions p = solutionsTo (contexts s) (statements p) ∧
  Forall2 (λ st sen, sentence (contexts s) st = Ok sen
                     ∧ refs_below (length (contexts s)) st)
          (statements p) (sentences p) ∧
  length (statements p) = length statementContexts ∧
  Forall (λ c, (c < length (contexts s))%nat) statementContexts.

(** The regeneration loop as the specification words it: accept when the
    solver returns one assignment and the total length is in the band;
    otherwise pick one speaker with a fresh draw, replace that speaker's
    statement only, and solve again. *)
Inductive assembler_run (rnd : nat → Q) (statementContexts : list ref) (N : Z)
    (minL : Q) (maxL : length_bound) : puzzle → state → puzzle → state → Prop :=
  | run_accept p s :
    length (solutions p) = 1%nat →
    within_band minL maxL (sumOfSentenceLengths (sentences p)) →
    assembler_run rnd statementContexts N minL maxL p s p s
  | run_regenerate p s i context fuel st sen s1 pf sf :
    ¬ (length (solutions p) = 1%nat ∧
       within_band minL maxL (sumOfSentenceLengths (sentences p))) →
    (* one call of [Math.random()] is spent on the speaker index: its value
       [r] selects the [i] with [i <= r * N < i + 1], up to the relative
       error [2^-53] of the rounding of the product *)
    (inject_Z i <= (1 + unit_roundoff) * (to_double (rnd (drawn s)) * inject_Z N))%Q →
    ((1 - unit_roundoff) * (to_double (rnd (drawn s)) * inject_Z N) < inject_Z (i + 1))%Q →
    0 <= i < N → (Z.to_nat i < length (statements p))%nat →
    statementContexts !! Z.to_nat i = Some context →
    (* only that speaker's statement is generated anew and rendered *)
    randomStatement rnd fuel context Infinity (mkState (contexts s) (S (drawn s)))
      = (Ok st, s1) →
    sentence (contexts s1) st = Ok sen →
    (* and the puzzle is solved again *)
    assembler_run rnd statementContexts N minL maxL
      (mkPuzzle (<[Z.to_nat i := st]> (statements p))
                (<[Z.to_nat i := sen]> (sentences p))
                (solutionsTo (contexts s1) (<[Z.to_nat i := st]> (statements p))))
      s1 pf sf →
    assembler_run rnd statementContexts N minL maxL p s pf sf.

(** ** Concrete inputs used in the evaluations below *)

(** A puzzle for 31 speakers in which everybody says "I am a truth-teller". *)
Definition puzzle31_store : store :=
  map (λ i, mkContext 31 (Z.of_nat i) true false None 1) (seq 0 31).

Definition puzzle31 : list LogicalStatement :=
  map (λ i, TrueFalseStatement i (Z.of_nat i) true) (seq 0 31).

(** Two people; the first one speaks. *)
Definition two_people : state := mkState [mkContext 2 0 true false None 1] 0.

(** A source of random numbers that replays a finite list and then
    returns 0. *)
Definition replay (draws : list Q) : nat → Q := λ n, nth n draws 0%Q.

(** Draws that make [LogicalOrStatement.random] produce
    "A is a truth-teller or B is a truth-teller". *)
Definition draws_or : list Q := [0; 0; 0; 0; 1 # 2; 0]%Q.

(** Draws that make [LogicalAndStatement.random] produce
    "A is a truth-teller and B is a liar". *)
Definition draws_and : list Q := [0; 0; 0; 0; 1 # 2; 1 # 2]%Q.

(** Draws that make [randomStatement] choose the disjunction class and
    produce "A is a truth-teller or B is a truth-teller". *)
Definition draws_statement : list Q := [7 # 10; 0; 0; 0; 0; 1 # 2; 0]%Q.

(** Draws that make [TypeCountStatement.random] produce, among two people,
    "both of us are liars". *)
Definition draws_count : list Q := [3 # 4; 1 # 2]%Q.

(** Thirty people, and draws that select all of them as subjects and then
    come close to 1. *)
Definition thirty_people : state := mkState [mkContext 30 0 true false None 1] 0.

Definition draws_count30 : list Q :=
  [1073741823 # 1073741824; 4294967295 # 4294967296]%Q.

(** Draws for a two-person puzzle: A says "both of us are liars", B first
    says "A is a truth-teller" (no solution), is drawn again and then says
    "I am a truth-teller". *)
Definition draws_puzzle : list Q :=
  [1 # 4; 3 # 4; 1 # 2; 0; 0; 0; 1 # 2; 0; 1 # 2; 0]%Q.

(** A store for four people: the context of speaker A at the root, and a
    context of a second conjunct that follows "... is a truth-teller". *)
Definition four_people : store :=
  [mkContext 4 0 true false None 1; mkContext 4 1 false true (Some true) 1].

(** The two-speaker puzzle "B is a truth-teller" / "A is a truth-teller or
    I am a truth-teller". *)
Definition two_speakers_store : store :=
  [mkContext 2 0 true false None 1; mkContext 2 1 true false None 1].

Definition two_speakers : list LogicalStatement :=
  [TrueFalseStatement 0%nat 1 true;
   LogicalOrStatement 1%nat (TrueFalseStatement 1%nat 0 true)
                            (TrueFalseStatement 1%nat 1 true)].

(** ** The shape of generated statements *)

(** The statement is an instance of a registered class of nesting layer at
    most [z]. *)
Definition layer_at_most (z : Z) (s : LogicalStatement) : Prop :=
  ∃ c, class_of s = Some c ∧ nestingLayer c <= z.

(** The nesting that the [random] constructors produce: the parts of a
    conjunction or disjunction come from [randomStatement(_, 0)], the parts
    of a conditional from [randomStatement(_, 1)]. *)
Fixpoint well_nested (s : LogicalStatement) : Prop :=
  match s with
  | TrueFalseStatement _ _ _ | TypeCountStatement _ _ _ => True
  | LogicalAndStatement _ s1 s2 | LogicalOrStatement _ s1 s2 =>
      layer_at_most 0 s1 ∧ layer_at_most 0 s2 ∧ well_nested s1 ∧ well_nested s2
  | LogicalIfStatement _ s1 s2 =>
      layer_at_most 1 s1 ∧ layer_at_most 1 s2 ∧ well_nested s1 ∧ well_nested s2
  | _ => False
  end.

(** The contexts of the parts of a statement, at every depth; the context
    of the statement itself is not among them. *)
Fixpoint part_contexts (s : LogicalStatement) : list ref :=
  match s with
  | LogicalAndStatement _ s1 s2 | LogicalOrStatement _ s1 s2
  | LogicalIfStatement _ s1 s2 =>
      context_of s1 :: part_contexts s1 ++ context_of s2 :: part_contexts s2
  | _ => []
  end.

(** Two contexts that describe the same puzzle and the same speaker. *)
Definition same_people (o o0 : LogicalStatementContext) : Prop :=
  personCount o = personCount o0 ∧ speakerIndex o = speakerIndex o0 ∧
  complexityFactor o = complexityFactor o0.

(** The object at [c] was created after the first [n0] objects of the
    store, agrees with [o0] on the puzzle and the speaker, and is not a
    root context. *)
Definition fresh_copy (h : store) (n0 : nat) (o0 : LogicalStatementContext) (c : ref)
  : Prop :=
  (n0 ≤ c < length h)%nat ∧ same_people (h !!! c) o0 ∧ isRoot (h !!! c) = false.

(** What a generating function called on [context], an object with the
    fields [o0] in a store of [n0] objects, guarantees about the shape of
    the statement it returns. *)
Definition struct_post (n0 : nat) (o0 : LogicalStatementContext) (context : ref)
    (st : LogicalStatement) (s' : state) : Prop :=
  context_of st = context ∧ well_nested st ∧
  Forall (fresh_copy (contexts s') n0 o0) (part_contexts st).

(** The fields that the [random] constructors of the three compound classes
    give to the contexts of the two parts, for a caller's context with the
    fields [o]: the object at [c] is a copy of [o] that is not a root
    context and has the given [shouldUseGa] and [preconditionPredicate]. *)
Definition part_context (h : store) (o : LogicalStatementContext) (c : ref)
    (ga : bool) (pre : option bool) : Prop :=
  h !!! c = mkContext (personCount o) (speakerIndex o) false ga pre (complexityFactor o).

(** The two conjuncts have contexts of their own, the second one with the
    predicate of the first as its precondition; the two disjuncts share one
    context; antecedent and consequent have contexts of their own, the
    consequent with the caller's [shouldUseGa] and the predicate of the
    antecedent as its precondition. *)
Definition part_fields (h : store) (o : LogicalStatementContext) (st : LogicalStatement)
  : Prop :=
  match st with
  | LogicalAndStatement _ s1 s2 =>
      context_of s1 ≠ context_of s2 ∧
      part_context h o (context_of s1) (shouldUseGa o) (preconditionPredicate o) ∧
      part_context h o (context_of s2) (shouldUseGa o) (predicate s1)
  | LogicalOrStatement _ s1 s2 =>
      context_of s1 = context_of s2 ∧
      part_context h o (context_of s1) true None
  | LogicalIfStatement _ s1 s2 =>
      context_of s1 ≠ context_of s2 ∧
      part_context h o (context_of s1) true (preconditionPredicate o) ∧
      part_context h o (context_of s2) (shouldUseGa o) (predicate s1)
  | _ => True
  end.

Section StructureGuarantees.

Variable rnd : nat → Q.

Definition struct_loop_spec (fuel : nat) : Prop :=
  ∀ context classChoices weightSum partialWeightSums s st s',
    randomStatement_loop rnd fuel context classChoices weightSum partialWeightSums s
    = (Ok st, s') →
    (context < length (contexts s))%nat →
    struct_post (length (contexts s)) (contexts s !!! context) context st s'.

Definition struct_class_spec (fuel : nat) : Prop :=
  ∀ classChoice context s st s',
    random_of rnd classChoice fuel context s = (Ok st, s') →
    (context < length (contexts s))%nat →
    struct_post (length (contexts s)) (contexts s !!! context) context st s'.

End StructureGuarantees.

(** ** Rendering *)

(** The string is not empty and its last character is not the full stop
    that closes a root sentence. *)
Definition open_ended (s : jsstring) : Prop :=
  ∃ x, last s = Some x ∧ [x] ≠ lit "。".

(** The object [o] after the assignment [o.isRoot = v], as made by
    [set_isRoot]. *)
Definition with_isRoot (v : bool) (o : LogicalStatementContext) : LogicalStatementContext :=
  mkContext (personCount o) (speakerIndex o) v
    (shouldUseGa o) (preconditionPredicate o) (complexityFactor o).

(** ** The speakers of a puzzle *)

(** The contexts made by the click handler for [N] people, one root
    context per person, and statements that each belong to the context of
    their position. *)
Definition speakers_ok (N : Z) (complexityFactor : Q) (s : state)
    (statementContexts : list ref) (statements : list LogicalStatement) : Prop :=
  length statementContexts = Z.to_nat N ∧
  (∀ i c, statementContexts !! i = Some c →
          (c < length (contexts s))%nat ∧
          contexts s !!! c = mkContext N (Z.of_nat i) true false None complexityFactor) ∧
  Forall2 (λ st c, context_of st = c) statements statementContexts.

(** Contexts that exist and whose person count can be the length of an
    array. *)
Definition renderable (s : state) (statementContexts : list ref) : Prop :=
  Forall (λ c, (c < length (contexts s))%nat ∧
               0 <= personCount (contexts s !!! c) < 2 ^ 32) statementContexts.

(** ** script.js: checking an answer *)

(** The value of the checked radio button of a row: 'nochoice', 'true' or
    'false'.  A row always has exactly one checked button. *)
Inductive radio_value := nochoice | chose_true | chose_false.

Definition is_chose_true (selection : radio_value) : bool :=
  match selection with chose_true => true | _ => false end.

(** [a | b] *)
Definition JS_or (a b : Z) : Z := Z.lor (JS.toInt32 a) (JS.toInt32 b).

(** The first loop of [confirmButton.onclick], from row [i] on, with the
    bits collected so far; [None] is the [return] at a row left at
    'nochoice'. *)
Fixpoint selected_bits (selections : list radio_value) (i peopleTypeBits : Z) : option Z :=
  match selections with
  | [] => Some peopleTypeBits
  | nochoice :: _ => None
  | chose_true :: rest => selected_bits rest (i + 1) (JS_or peopleTypeBits (JS.shl 1 i))
  | chose_false :: rest => selected_bits rest (i + 1) peopleTypeBits
  end.

(** [onRadioChange]: the value it gives to [confirmButton.disabled]. *)
Fixpoint onRadioChange (selections : list radio_value) : bool :=
  match selections with
  | [] => false
  | nochoice :: _ => true
  | _ :: rest => onRadioChange rest
  end.

(** What [confirmButton.onclick] does: it returns at once; or it shows the
    message for a correct answer; or it shows the message for a wrong
    answer and, row by row, adds the class 'sentence-contradicts' to the
    sentence area ([true]) or removes it ([false]). *)
Inductive answer_result :=
  | NotAnswered
  | CorrectAnswer
  | IncorrectAnswer (contradicts : list bool).

(** [confirmButton.onclick], for the arrays [statements] and [solutions]
    of the puzzle on display and one radio value per row; [statements] has
    one entry per row. *)
Definition confirmButton_onclick (h : store) (statements : list LogicalStatement)
    (solutions : list Z) (selections : list radio_value) : answer_result :=
  match selected_bits selections 0 0 with
  | None => NotAnswered
  | Some peopleTypeBits =>
      if match solutions !! 0%nat with
         | Some solution => peopleTypeBits =? solution
         | None => false
         end
      then CorrectAnswer
      else IncorrectAnswer
             (map (λ statement, negb (isConsistentOn h statement peopleTypeBits)) statements)
  end.

(** ** Further concrete inputs *)

(** Draws that make [LogicalIfStatement.random] produce
    "if A is a truth-teller then B is a truth-teller". *)
Definition draws_if : list Q := [0; 0; 0; 0; 1 # 2; 0]%Q.

(** One person. *)
Definition one_person : state := mkState [mkContext 1 0 true false None 1] 0.

(** The two-speaker puzzle "both of us are liars" / "I am a truth-teller",
    whose only solution is that A lies and B tells the truth. *)
Definition one_solution : list LogicalStatement :=
  [TypeCountStatement 0%nat 3 4; TrueFalseStatement 1%nat 1 true].

(** * Properties *)

(** ** The model at work *)

Example popcount_examples :
  popcount 0 = 0 ∧ popcount 11 = 3 ∧ popcount 0xFFFFFFFF = 32 ∧ popcount (-1) = 32.
Proof. vm_compute. repeat split. Qed.

(** [Math.floor(0.6 * 5)] is 3: the exact product of the double 0.6 with 5
    lies below 3 and is rounded to 3.  With five classes of weight 1, the
    draw 0.6 selects the class at index 3. *)
Example floor_scaled_examples :
  let r := (5404319552844595 # 9007199254740992)%Q in
  (to_double (6 # 10) == r)%Q ∧ (r * 5 < 3)%Q ∧ (random_times r 5 == 3)%Q ∧
  floor_scaled r 5 = 3 ∧ floor_scaled (1 # 2) 5 = 2 ∧
  (let weights := cumulative_weights 1 (eligible Infinity) in
   choose_index (random_times r (fst weights)) (snd weights) 5 = 3%nat).
Proof. vm_compute. repeat split. Qed.

Example hasDuplicate_examples :
  hasDuplicate [1; 2; 1] = true ∧ hasDuplicate [1; 2; 4] = false.
Proof. vm_compute. split; reflexivity. Qed.

Example sentence_TrueFalse :
  sentence four_people (TrueFalseStatement 0%nat 0 true) = Ok (lit "私は正直者です。").
Proof. vm_compute. reflexivity. Qed.

Example sentence_TypeCount_some :
  sentence four_people (TypeCountStatement 0%nat 15 6)
  = Ok (lit "この4人のうち、嘘つきの人数は1人か2人です。").
Proof. vm_compute. reflexivity. Qed.

Example sentence_TypeCount_all :
  sentence four_people (TypeCountStatement 0%nat 13 8)
  = Ok (lit "私とCさん、Dさんの3人とも嘘つきです。").
Proof. vm_compute. reflexivity. Qed.

Example sentence_LogicalAnd :
  sentence four_people
    (LogicalAndStatement 0%nat (TrueFalseStatement 1%nat 2 true)
                               (TrueFalseStatement 1%nat 3 true))
  = Ok (lit "Cさんも正直者で、Dさんも正直者です。").
Proof. vm_compute. reflexivity. Qed.

Example solutionsTo_two_speakers :
  solutionsTo two_speakers_store two_speakers = [0; 3].
Proof. vm_compute. reflexivity. Qed.

Example randomStatement_run :
  fst (randomStatement (replay draws_statement) 5 0%nat Infinity two_people)
  = Ok (LogicalOrStatement 0%nat (TrueFalseStatement 1%nat 0 true)
                                 (TrueFalseStatement 1%nat 1 true)).
Proof. vm_compute. reflexivity. Qed.

Example generateButton_onclick_run :
  let r := generateButton_onclick (replay draws_puzzle) 6 2 20 (AtMost 30) 1
             (mkState [] 0) in
  ∃ p, fst r = Ok p ∧
       statements p = [TypeCountStatement 0%nat 3 4; TrueFalseStatement 1%nat 1 true] ∧
       sentences p = [lit "この2人は全員嘘つきです。"; lit "私は正直者です。"] ∧
       solutions p = [2] ∧ drawn (snd r) = 10%nat.
Proof. eexists. vm_compute. repeat split. Qed.

(** ** Bit-level facts about the 32-bit conversions *)

Section Int32Facts.

Lemma toUint32_range x : 0 <= JS.toUint32 x < 2 ^ 32.
Proof. unfold JS.toUint32. apply Z.mod_pos_bound. lia. Qed.

Lemma toUint32_small x : 0 <= x < 2 ^ 32 -> JS.toUint32 x = x.
Proof. intros. unfold JS.toUint32. apply Z.mod_small. lia. Qed.

Lemma toInt32_range x : - 2 ^ 31 <= JS.toInt32 x < 2 ^ 31.
Proof.
  unfold JS.toInt32. pose proof (toUint32_range x) as H. unfold JS.toUint32 in H.
  destruct (Z.ltb_spec (x mod 2 ^ 32) (2 ^ 31)); lia.
Qed.

Lemma toInt32_small x : - 2 ^ 31 <= x < 2 ^ 31 -> JS.toInt32 x = x.
Proof.
  intros Hx. unfold JS.toInt32.
  destruct (Z_lt_le_dec x 0) as [Hneg|Hpos].
  - replace (x mod 2 ^ 32) with (x + 2 ^ 32).
    + destruct (Z.ltb_spec (x + 2 ^ 32) (2 ^ 31)); lia.
    + apply Z.mod_unique with (q := -1); lia.
  - rewrite Z.mod_small by lia.
    destruct (Z.ltb_spec x (2 ^ 31)); lia.
Qed.

Lemma toInt32_mod x : JS.toInt32 x mod 2 ^ 32 = x mod 2 ^ 32.
Proof.
  unfold JS.toInt32. destruct (Z.ltb_spec (x mod 2 ^ 32) (2 ^ 31)).
  - apply Z.mod_mod. lia.
  - replace (x mod 2 ^ 32 - 2 ^ 32) with (x mod 2 ^ 32 + (-1) * 2 ^ 32) by lia.
    rewrite Z.mod_add by lia. apply Z.mod_mod. lia.
Qed.

Lemma toInt32_toUint32 x : JS.toInt32 (JS.toUint32 x) = JS.toInt32 x.
Proof. unfold JS.toInt32, JS.toUint32. rewrite Z.mod_mod by lia. reflexivity. Qed.

Lemma toUint32_toInt32 x : JS.toUint32 (JS.toInt32 x) = JS.toUint32 x.
Proof. apply toInt32_mod. Qed.

(** The low 32 bits survive both conversions. *)
Lemma toUint32_testbit x i :
  0 <= i -> Z.testbit (JS.toUint32 x) i = (i <? 32) && Z.testbit x i.
Proof.
  intros Hi. unfold JS.toUint32. destruct (Z.ltb_spec i 32); simpl.
  - apply Z.mod_pow2_bits_low. lia.
  - apply Z.mod_pow2_bits_high. lia.
Qed.

Lemma toInt32_testbit x i :
  0 <= i < 32 -> Z.testbit (JS.toInt32 x) i = Z.testbit x i.
Proof.
  intros Hi.
  rewrite <- (Z.mod_pow2_bits_low (JS.toInt32 x) 32 i) by lia.
  rewrite toInt32_mod. apply Z.mod_pow2_bits_low. lia.
Qed.

Lemma toUint32_and x m :
  JS.toUint32 (JS.and x m) = Z.land (JS.toUint32 x) (JS.toUint32 m).
Proof.
  apply Z.bits_inj'. intros i Hi. unfold JS.and.
  rewrite Z.land_spec, !toUint32_testbit by lia.
  destruct (Z.ltb_spec i 32); simpl; [|reflexivity].
  rewrite Z.land_spec, !toInt32_testbit by lia. reflexivity.
Qed.

Lemma and_mask x m :
  0 <= m < 2 ^ 31 -> JS.and x m = Z.land (JS.toUint32 x) m.
Proof.
  intros Hm. unfold JS.and. rewrite (toInt32_small m) by lia.
  apply Z.bits_inj'. intros i Hi.
  rewrite !Z.land_spec, toUint32_testbit by lia.
  destruct (Z.ltb_spec i 32); simpl.
  - rewrite toInt32_testbit by lia. reflexivity.
  - rewrite <- (toUint32_small m) by lia.
    rewrite toUint32_testbit by lia.
    destruct (Z.ltb_spec i 32); [lia|]. simpl. apply andb_false_r.
Qed.

Lemma shr_const a n :
  0 <= n < 32 -> JS.shr a n = JS.toUint32 a / 2 ^ n.
Proof.
  intros Hn. unfold JS.shr. rewrite (Z.mod_small n) by lia.
  apply Z.shiftr_div_pow2. lia.
Qed.

End Int32Facts.

(** ** Correctness of [popcount]

    A 32-bit word is cut into two 16-bit halves.  The first two rounds of
    the parallel bit count act on each half separately; the third lets the
    lowest nibble of the upper half leak into the lower half, where the
    final mask removes it again.  What each round does to one half is
    checked on all 65536 values of a half. *)

Section PopcountCorrect.

Lemma all_from_spec n : forall i f,
  all_from n i f = true ->
  forall v, i <= v < i + Z.of_nat n -> f v = true.
Proof.
  induction n as [|n IH]; intros i f H v Hv; [lia|].
  simpl in H. apply andb_true_iff in H as [Hi Hrest].
  destruct (Z.eq_dec v i) as [->|Hne]; [exact Hi|].
  apply (IH (i + 1) f Hrest). lia.
Qed.

Lemma half_ok_all : all_from (Z.to_nat 65536) 0 half_ok = true.
Proof. vm_compute. reflexivity. Qed.

Lemma half_facts v :
  0 <= v < 65536 ->
  let a := pair_sums v in
  let b := nibble_sums a in
  let t := byte_sums b 0 in
  Z.land v 0xAAAA mod 2 = 0 /\ 0 <= a < 65536 /\
  Z.land a 0xCCCC mod 4 = 0 /\ 0 <= b < 65536 /\
  0 <= b mod 16 <= 4 /\
  (forall k, 0 <= k <= 4 ->
     b + b / 16 + 4096 * k < 65536 /\ byte_sums b k = t) /\
  0 <= t mod 256 <= 8 /\ 0 <= t / 256 <= 8 /\
  naive_popcount 16 v = t mod 256 + t / 256.
Proof.
  intros Hv a b t.
  pose proof (all_from_spec _ _ _ half_ok_all v) as H.
  specialize (H ltac:(lia)). unfold half_ok in H. fold a b t in H.
  repeat (apply andb_true_iff in H as [H ?]).
  unfold leak_ok in *.
  repeat match goal with
         | X : _ && _ = true |- _ => apply andb_true_iff in X as [? ?]
         end.
  repeat match goal with
         | X : (_ =? _) = true |- _ => apply Z.eqb_eq in X
         | X : (_ <=? _) = true |- _ => apply Z.leb_le in X
         | X : (_ <? _) = true |- _ => apply Z.ltb_lt in X
         end.
  assert (0 <= t) by (unfold t, byte_sums; apply Z.land_nonneg; lia).
  pose proof (Z.mod_pos_bound b 16 ltac:(lia)).
  pose proof (Z.mod_pos_bound t 256 ltac:(lia)).
  pose proof (Z.div_pos t 256 ltac:(lia) ltac:(lia)).
  repeat split; try lia;
    assert (k = 0 \/ k = 1 \/ k = 2 \/ k = 3 \/ k = 4) as Hk by lia;
    destruct Hk as [->|[->|[->|[->| ->]]]]; assumption.
Qed.

Lemma halves_mod lo hi : 0 <= lo < 65536 -> (lo + 65536 * hi) mod 65536 = lo.
Proof.
  intros. rewrite (Z.mul_comm 65536 hi), Z.mod_add by lia.
  apply Z.mod_small. lia.
Qed.

Lemma halves_div lo hi : 0 <= lo < 65536 -> (lo + 65536 * hi) / 65536 = hi.
Proof.
  intros. rewrite (Z.mul_comm 65536 hi), Z.div_add by lia.
  rewrite Z.div_small; lia.
Qed.

Lemma land_halves lo hi mlo mhi :
  0 <= lo < 65536 -> 0 <= mlo < 65536 ->
  Z.land (lo + 65536 * hi) (mlo + 65536 * mhi)
  = Z.land lo mlo + 65536 * Z.land hi mhi.
Proof.
  intros Hlo Hm.
  set (X := lo + 65536 * hi). set (M := mlo + 65536 * mhi).
  rewrite (Z.div_mod (Z.land X M) 65536) by lia.
  assert (Hhi : Z.land X M / 65536 = Z.land hi mhi).
  { change 65536 with (2 ^ 16).
    rewrite <- Z.shiftr_div_pow2, Z.shiftr_land, !Z.shiftr_div_pow2 by lia.
    change (2 ^ 16) with 65536. unfold X, M.
    rewrite !halves_div by lia. reflexivity. }
  assert (Hl : Z.land X M mod 65536 = Z.land lo mlo).
  { change 65536 with (2 ^ 16).
    rewrite <- Z.land_ones by lia.
    replace (Z.land (Z.land X M) (Z.ones 16))
      with (Z.land (Z.land X (Z.ones 16)) (Z.land M (Z.ones 16))).
    - rewrite !Z.land_ones by lia. change (2 ^ 16) with 65536.
      unfold X, M. rewrite !halves_mod by lia. reflexivity.
    - apply Z.bits_inj'. intros i Hi. rewrite !Z.land_spec.
      destruct (Z.testbit X i), (Z.testbit M i), (Z.testbit (Z.ones 16) i);
        reflexivity. }
  rewrite Hhi, Hl. lia.
Qed.

Lemma div_halves lo hi d :
  0 < d -> hi mod d = 0 ->
  (lo + 65536 * hi) / d = lo / d + 65536 * (hi / d).
Proof.
  intros Hd Hmod.
  pose proof (Z.div_mod hi d ltac:(lia)) as E. rewrite Hmod in E.
  replace (lo + 65536 * hi) with (lo + (65536 * (hi / d)) * d) by lia.
  apply Z.div_add. lia.
Qed.

Lemma naive_popcount_low n : forall a b,
  naive_popcount n (a + 2 ^ Z.of_nat n * b) = naive_popcount n a.
Proof.
  induction n as [|n IH]; intros a b; [reflexivity|].
  cbn [naive_popcount].
  replace (2 ^ Z.of_nat (S n)) with (2 ^ Z.of_nat n * 2)
    by (rewrite Nat2Z.inj_succ, Z.pow_succ_r by lia; lia).
  replace (a + 2 ^ Z.of_nat n * 2 * b) with (a + (2 ^ Z.of_nat n * b) * 2) by lia.
  rewrite Z.mod_add, Z.div_add by lia. rewrite IH. reflexivity.
Qed.

Lemma naive_popcount_app n m : forall x,
  naive_popcount (n + m) x
  = naive_popcount n x + naive_popcount m (x / 2 ^ Z.of_nat n).
Proof.
  induction n as [|n IH]; intros x.
  - simpl. rewrite Z.div_1_r. reflexivity.
  - cbn [naive_popcount Nat.add]. rewrite IH.
    rewrite Nat2Z.inj_succ, Z.pow_succ_r by lia.
    rewrite Z.div_div by lia. lia.
Qed.

Lemma naive_popcount_halves lo hi :
  0 <= lo < 65536 ->
  naive_popcount 32 (lo + 65536 * hi)
  = naive_popcount 16 lo + naive_popcount 16 hi.
Proof.
  intros Hlo. change 32%nat with (16 + 16)%nat.
  rewrite naive_popcount_app.
  change (2 ^ Z.of_nat 16) with 65536.
  rewrite halves_div by lia.
  pose proof (naive_popcount_low 16 lo hi) as E.
  change (2 ^ Z.of_nat 16) with 65536 in E. rewrite E. reflexivity.
Qed.

Lemma naive_popcount_range n : forall x, 0 <= naive_popcount n x <= Z.of_nat n.
Proof.
  induction n as [|n IH]; intros x; [simpl; lia|].
  cbn [naive_popcount]. specialize (IH (x / 2)).
  pose proof (Z.mod_pos_bound x 2 ltac:(lia)). lia.
Qed.

Lemma byte_sums_total c0 c1 c2 c3 :
  0 <= c0 <= 8 -> 0 <= c1 <= 8 -> 0 <= c2 <= 8 -> 0 <= c3 <= 8 ->
  ((c0 + 256 * c1 + 65536 * (c2 + 256 * c3)) * 0x01010101) mod 2 ^ 32 / 2 ^ 24
  = c0 + c1 + c2 + c3.
Proof.
  intros.
  replace ((c0 + 256 * c1 + 65536 * (c2 + 256 * c3)) * 0x01010101)
    with ((c0 + 256 * (c0 + c1) + 65536 * (c0 + c1 + c2)
           + 16777216 * (c0 + c1 + c2 + c3))
          + (c1 + c2 + c3 + 256 * (c2 + c3) + 65536 * c3) * 2 ^ 32) by lia.
  rewrite Z.mod_add by lia. rewrite Z.mod_small by lia.
  replace (c0 + 256 * (c0 + c1) + 65536 * (c0 + c1 + c2)
           + 16777216 * (c0 + c1 + c2 + c3))
    with ((c0 + 256 * (c0 + c1) + 65536 * (c0 + c1 + c2))
          + (c0 + c1 + c2 + c3) * 2 ^ 24) by lia.
  rewrite Z.div_add by lia. rewrite Z.div_small by lia. lia.
Qed.

(** The parallel count of a word whose 32-bit truncation has halves
    [lo] and [hi]. *)
Lemma popcount_halves x lo hi :
  0 <= lo < 65536 -> 0 <= hi < 65536 ->
  JS.toUint32 x = lo + 65536 * hi ->
  popcount x = naive_popcount 16 lo + naive_popcount 16 hi.
Proof.
  intros Hlo Hhi Hx.
  destruct (half_facts lo Hlo) as (Le & La & Lc & Lb & Lk & Lleak & Lt0 & Lt1 & Ln).
  destruct (half_facts hi Hhi) as (He & Ha & Hc & Hb & Hk & Hleak & Ht0 & Ht1 & Hn).
  set (l1 := pair_sums lo) in *. set (h1 := pair_sums hi) in *.
  set (l2 := nibble_sums l1) in *. set (h2 := nibble_sums h1) in *.
  set (lt := byte_sums l2 0) in *. set (ht := byte_sums h2 0) in *.
  unfold popcount.
  (* round 1 *)
  set (x1 := x - JS.shr (JS.and x 0xAAAAAAAA) 1).
  assert (E1 : JS.toUint32 x1 = l1 + 65536 * h1).
  { unfold x1. rewrite shr_const, toUint32_and, Hx by lia.
    rewrite (toUint32_small 0xAAAAAAAA) by lia.
    change 0xAAAAAAAA with (0xAAAA + 65536 * 0xAAAA).
    rewrite land_halves by lia. rewrite div_halves by (lia || assumption).
    change (2 ^ 1) with 2. unfold JS.toUint32 in *.
    rewrite <- Zminus_mod_idemp_l, Hx.
    replace (lo + 65536 * hi
             - (Z.land lo 0xAAAA / 2 + 65536 * (Z.land hi 0xAAAA / 2)))
      with (l1 + 65536 * h1) by (unfold l1, h1, pair_sums; lia).
    apply Z.mod_small. lia. }
  (* round 2 *)
  set (x2 := JS.and x1 0x33333333 + JS.shr (JS.and x1 0xCCCCCCCC) 2).
  assert (E2 : x2 = l2 + 65536 * h2).
  { unfold x2. rewrite shr_const, toUint32_and, and_mask, E1 by lia.
    rewrite (toUint32_small 0xCCCCCCCC) by lia.
    change 0x33333333 with (0x3333 + 65536 * 0x3333).
    change 0xCCCCCCCC with (0xCCCC + 65536 * 0xCCCC).
    rewrite !land_halves by lia. rewrite div_halves by (lia || assumption).
    unfold l2, h2, nibble_sums. change (2 ^ 2) with 4. lia. }
  (* round 3 *)
  set (x3 := JS.and (x2 + JS.shr x2 4) 0x0F0F0F0F).
  assert (E3 : x3 = lt + 65536 * ht).
  { unfold x3. rewrite shr_const, and_mask by lia.
    rewrite (toUint32_small x2) by lia. rewrite E2.
    destruct (Lleak (h2 mod 16) Hk) as [Lsmall Lsame].
    destruct (Hleak 0 ltac:(lia)) as [Hsmall _].
    assert (Ediv : (l2 + 65536 * h2) / 2 ^ 4 = l2 / 16 + 4096 * h2).
    { change (2 ^ 4) with 16.
      replace (l2 + 65536 * h2) with (l2 + (4096 * h2) * 16) by lia.
      apply Z.div_add. lia. }
    rewrite Ediv.
    pose proof (Z.div_mod h2 16 ltac:(lia)) as Eh.
    replace (l2 + 65536 * h2 + (l2 / 16 + 4096 * h2))
      with ((l2 + l2 / 16 + 4096 * (h2 mod 16)) + 65536 * (h2 + h2 / 16)) by lia.
    pose proof (Z.div_pos l2 16 ltac:(lia) ltac:(lia)).
    pose proof (Z.div_pos h2 16 ltac:(lia) ltac:(lia)).
    rewrite toUint32_small by lia.
    change 0x0F0F0F0F with (0x0F0F + 65536 * 0x0F0F).
    rewrite land_halves by lia.
    fold (byte_sums l2 (h2 mod 16)). rewrite Lsame.
    replace (h2 + h2 / 16) with (h2 + h2 / 16 + 4096 * 0) by lia.
    fold (byte_sums h2 0). reflexivity. }
  (* the multiplication gathers the four byte sums in the top byte *)
  rewrite shr_const by lia. fold x3. rewrite E3.
  pose proof (Z.div_mod lt 256 ltac:(lia)) as Dl.
  pose proof (Z.div_mod ht 256 ltac:(lia)) as Dh.
  replace (lt + 65536 * ht)
    with (lt mod 256 + 256 * (lt / 256)
          + 65536 * (ht mod 256 + 256 * (ht / 256))) by lia.
  unfold JS.toUint32. rewrite byte_sums_total by lia. lia.
Qed.

Lemma popcount_toUint32 x : popcount x = naive_popcount 32 (JS.toUint32 x).
Proof.
  pose proof (toUint32_range x) as Hr.
  set (u := JS.toUint32 x) in *.
  pose proof (Z.div_mod u 65536 ltac:(lia)) as D.
  pose proof (Z.mod_pos_bound u 65536 ltac:(lia)) as Hlo.
  assert (Hhi : 0 <= u / 65536 < 65536).
  { split; [apply Z.div_pos; lia|]. apply Z.div_lt_upper_bound; lia. }
  rewrite (popcount_halves x (u mod 65536) (u / 65536)); try assumption.
  - rewrite <- naive_popcount_halves by assumption. f_equal. lia.
  - fold u. lia.
Qed.

Lemma popcount_range x : 0 <= popcount x <= 32.
Proof. rewrite popcount_toUint32. apply (naive_popcount_range 32). Qed.

End PopcountCorrect.

(** C4. For every 32-bit unsigned integer [x], [popcount x] is the number
    of 1 bits of [x] as counted by 32 rounds of the naive bit-by-bit
    iteration. *)
Theorem popcount_correct (x : Z) :
  0 <= x < 2 ^ 32 -> popcount x = naive_popcount 32 x.
Proof.
  intros Hx. rewrite popcount_toUint32, toUint32_small by assumption.
  reflexivity.
Qed.

Lemma popcount_correct_witness :
  0 <= 0xDEADBEEF < 2 ^ 32 /\ popcount 0xDEADBEEF = naive_popcount 32 0xDEADBEEF.
Proof. split; [lia | apply (popcount_correct 0xDEADBEEF); lia]. Defined.

(** ** Single-bit tests and shifts *)

Section BitTests.

(** [((x >> k) & 1) !== 0] reads bit [k mod 32] of the int32 value of [x]. *)
Lemma bit_test x k :
  negb (JS.and (JS.sar x k) 1 =? 0) = Z.testbit (JS.toInt32 x) (k mod 32).
Proof.
  pose proof (Z.mod_pos_bound k 32 ltac:(lia)) as Hk.
  rewrite and_mask by lia.
  change 1 with (Z.ones 1) at 1. rewrite Z.land_ones by lia.
  change (2 ^ 1) with 2. rewrite <- Z.bit0_mod.
  rewrite toUint32_testbit by lia.
  change (0 <? 32) with true. cbn [andb]. unfold JS.sar.
  rewrite Z.shiftr_spec by lia. rewrite Z.add_0_l.
  destruct (Z.testbit (JS.toInt32 x) (k mod 32)); reflexivity.
Qed.

Lemma bit_test_low x k :
  0 <= k < 32 -> negb (JS.and (JS.sar x k) 1 =? 0) = Z.testbit x k.
Proof.
  intros Hk. rewrite bit_test, Z.mod_small by lia.
  apply toInt32_testbit. lia.
Qed.

(** [1 << n] is [2^n] as long as the result fits a positive int32. *)
Lemma shl_one n : 0 <= n <= 30 -> JS.shl 1 n = 2 ^ n.
Proof.
  intros Hn. unfold JS.shl.
  rewrite (toInt32_small 1), Z.mod_small, Z.shiftl_1_l by lia.
  apply toInt32_small.
  assert (0 < 2 ^ n) by (apply Z.pow_pos_nonneg; lia).
  assert (2 ^ n < 2 ^ 31) by (apply Z.pow_lt_mono_r; lia).
  lia.
Qed.

Lemma elem_of_assignments n a :
  0 <= n <= 30 -> a ∈ assignments n ↔ 0 <= a < 2 ^ n.
Proof.
  intros Hn. unfold assignments. rewrite shl_one by assumption.
  rewrite elem_of_seqZ. lia.
Qed.

End BitTests.

(** ** Duplicate detection *)

Lemma hasDuplicate_from_false (array : list Z) : forall previousElements : gset Z,
  hasDuplicate_from previousElements array = false ↔
  NoDup array ∧ ∀ x, x ∈ array → x ∉ previousElements.
Proof.
  induction array as [|e rest IH]; intros prev; simpl.
  - split; [|reflexivity]. intros _. split; [constructor|].
    intros x Hx. inversion Hx.
  - case_bool_decide as Hin.
    + split; [discriminate|]. intros [_ Hnot]. exfalso.
      apply (Hnot e); [left | assumption].
    + rewrite IH, NoDup_cons. split.
      * intros [Hnd Hall]. split; [split; [|assumption]|].
        -- intros He. apply (Hall e He).
           apply elem_of_union_l, elem_of_singleton. reflexivity.
        -- intros x Hx Hprev. apply elem_of_cons in Hx as [->|Hx]; [contradiction|].
           apply (Hall x Hx). apply elem_of_union_r. assumption.
      * intros [[Hne Hnd] Hall]. split; [assumption|].
        intros x Hx Hunion. apply elem_of_union in Hunion as [Hs|Hp].
        -- apply elem_of_singleton in Hs. subst x. contradiction.
        -- apply (Hall x); [right|]; assumption.
Qed.

Lemma hasDuplicate_false (array : list Z) :
  hasDuplicate array = false ↔ NoDup array.
Proof.
  unfold hasDuplicate. rewrite hasDuplicate_from_false. split; [tauto|].
  intros H. split; [assumption|]. intros x _. apply not_elem_of_empty.
Qed.

(** ** Evaluation of count statements *)

Lemma TypeCountStatement_isTrueOn_bit c subjectBits liarCountBits a :
  popcount (JS.and subjectBits (JS.not a)) <> 32 ->
  isTrueOn (TypeCountStatement c subjectBits liarCountBits) a
  = Z.testbit liarCountBits (popcount (JS.and subjectBits (JS.not a))).
Proof.
  intros Hne. cbn [isTrueOn].
  pose proof (popcount_range (JS.and subjectBits (JS.not a))).
  apply bit_test_low. lia.
Qed.

(** C2, as amended.  For every [TypeCountStatement] and every assignment
    under which fewer than 32 of its subjects are liars, [isTrueOn] is true
    exactly when the bit of [liarCountBits] numbered by the liar count
    [popcount (subjectBits & ~a)] is set. *)
Theorem TypeCountStatement_isTrueOn c subjectBits liarCountBits a :
  popcount (JS.and subjectBits (JS.not a)) <> 32 ->
  isTrueOn (TypeCountStatement c subjectBits liarCountBits) a
  = Z.testbit liarCountBits (popcount (JS.and subjectBits (JS.not a))).
Proof. apply TypeCountStatement_isTrueOn_bit. Qed.

Lemma TypeCountStatement_isTrueOn_witness :
  popcount (JS.and 6 (JS.not 5)) <> 32 /\
  isTrueOn (TypeCountStatement 0%nat 6 2) 5
  = Z.testbit 2 (popcount (JS.and 6 (JS.not 5))).
Proof.
  split; [vm_compute; discriminate|].
  apply (TypeCountStatement_isTrueOn 0%nat 6 2 5).
  vm_compute; discriminate.
Defined.

(** C2 as stated fails when all 32 bits of [subjectBits & ~a] are set: the
    liar count is 32, the shift count wraps around to 0, and bit 0 of
    [liarCountBits] is read instead of bit 32. *)
Lemma TypeCountStatement_isTrueOn_count32 :
  popcount (JS.and 0xFFFFFFFF (JS.not 0)) = 32 /\
  isTrueOn (TypeCountStatement 0%nat 0xFFFFFFFF 1) 0 = true /\
  Z.testbit 1 (popcount (JS.and 0xFFFFFFFF (JS.not 0))) = false.
Proof. vm_compute. repeat split. Qed.

(** ** The solver *)

Lemma isConsistentOn_spec h s a :
  0 <= a < 2 ^ 31 ->
  0 <= speakerIndex (h !!! context_of s) < 32 ->
  isConsistentOn h s a = true ↔
  isTrueOn s a = Z.testbit a (speakerIndex (h !!! context_of s)).
Proof.
  intros Ha Hs. unfold isConsistentOn.
  rewrite bit_test_low by assumption. apply eqb_true_iff.
Qed.

(** C3, as amended.  For every list of at most 30 statements whose speaker
    indices lie in [0, 32), [solutionsTo] returns, without repetition,
    exactly the assignments [a] in [0, 2^N) for which every statement is
    consistent with its speaker: [isTrueOn a] equals the bit of [a] at the
    speaker's index. *)
Theorem solutionsTo_exact (h : store) (statements : list LogicalStatement) :
  (length statements <= 30)%nat ->
  (∀ s, s ∈ statements → 0 <= speakerIndex (h !!! context_of s) < 32) ->
  NoDup (solutionsTo h statements) ∧
  ∀ a, a ∈ solutionsTo h statements ↔
       0 <= a < 2 ^ Z.of_nat (length statements) ∧
       ∀ i s, statements !! i = Some s →
              isTrueOn s a = Z.testbit a (speakerIndex (h !!! context_of s)).
Proof.
  intros Hlen Hspk. unfold solutionsTo. split.
  - apply NoDup_filter, NoDup_seqZ.
  - intros a. rewrite list_elem_of_filter, elem_of_assignments by lia.
    assert (Hpow : 2 ^ Z.of_nat (length statements) <= 2 ^ 30)
      by (apply Z.pow_le_mono_r; lia).
    split.
    + intros [Hall Ha]. split; [assumption|]. intros i s Hi.
      rewrite forallb_forall in Hall.
      apply isConsistentOn_spec; [lia | |].
      * apply Hspk. eapply list_elem_of_lookup_2; eauto.
      * apply Hall, list_elem_of_In. eapply list_elem_of_lookup_2; eauto.
    + intros [Ha Hall]. split; [|assumption].
      apply forallb_forall. intros s Hin. apply list_elem_of_In in Hin.
      apply isConsistentOn_spec; [lia | auto |].
      apply list_elem_of_lookup_1 in Hin as [i Hi]. eauto.
Qed.

Lemma solutionsTo_exact_witness :
  let h := two_speakers_store in
  let statements := two_speakers in
  NoDup (solutionsTo h statements) ∧
  ∀ a, a ∈ solutionsTo h statements ↔
       0 <= a < 2 ^ Z.of_nat (length statements) ∧
       ∀ i s, statements !! i = Some s →
              isTrueOn s a = Z.testbit a (speakerIndex (h !!! context_of s)).
Proof.
  intros h statements. apply (solutionsTo_exact h statements).
  - simpl. lia.
  - intros s Hs. unfold statements, two_speakers in Hs.
    repeat (apply elem_of_cons in Hs as [->|Hs]; [simpl; lia|]).
    inversion Hs.
Defined.

(** C3 as stated fails for 31 statements: [1 << 31] is negative, the loop
    over the assignments is not entered, and the consistent assignment 0
    is omitted. *)
Lemma solutionsTo_31_speakers :
  length puzzle31 = 31%nat /\
  solutionsTo puzzle31_store puzzle31 = [] /\
  0 <= 0 < 2 ^ Z.of_nat (length puzzle31) /\
  ∀ i s, puzzle31 !! i = Some s →
         isTrueOn s 0 = Z.testbit 0 (speakerIndex (puzzle31_store !!! context_of s)).
Proof.
  split; [reflexivity|]. split; [vm_compute; reflexivity|].
  split; [simpl; lia|].
  intros i s Hi. apply list_elem_of_lookup_2 in Hi. revert s Hi.
  apply Forall_forall. unfold puzzle31. simpl.
  repeat constructor.
Qed.

(** The speaker's bit is read with [>>] as well: a speaker index of 32
    selects bit 0, so that here the assignment 1 is returned although bit
    32 of it differs from the truth value of the statement. *)
Lemma solutionsTo_speaker_index_32 :
  let h := [mkContext 1 32 true false None 1] in
  let s := TrueFalseStatement 0%nat 0 true in
  solutionsTo h [s] = [0; 1] ∧
  isTrueOn s 1 = true ∧ Z.testbit 1 (speakerIndex (h !!! context_of s)) = false.
Proof. vm_compute. repeat split. Qed.

(** ** Reasoning about the effectful code *)

Section Effects.

Lemma bind_Ok {A B} (m : M A) (k : A → M B) s b s' :
  bind m k s = (Ok b, s') → ∃ a s1, m s = (Ok a, s1) ∧ k a s1 = (Ok b, s').
Proof.
  unfold bind. destruct (m s) as [[a|e|] s1]; intros H; try discriminate.
  exists a, s1. split; [reflexivity | assumption].
Qed.

Lemma ret_Ok {A} (a b : A) s s' : ret a s = (Ok b, s') → b = a ∧ s' = s.
Proof. unfold ret. intros H. injection H as <- <-. split; reflexivity. Qed.

End Effects.

Ltac bind_inv H :=
  let a := fresh "a" in
  let s := fresh "s" in
  let E := fresh "E" in
  apply bind_Ok in H as (a & s & E & H).

Ltac prim_inv E :=
  first [ apply ret_Ok in E as [? ?] | injection E as ? ? ]; subst.

(** ** The rejection loops of the conjunction and the disjunction *)

Section Rejection.

Variable rnd : nat → Q.

Lemma LogicalAndStatement_random_S fuel context :
  LogicalAndStatement_random rnd (S fuel) context =
  (substatementContext1 <- LogicalStatementContext_from context;;
   set_isRoot substatementContext1 false;;
   substatement1 <-
     randomStatement_with (randomStatement_loop rnd fuel) substatementContext1 (Finite 0);;
   substatementContext2 <- LogicalStatementContext_from substatementContext1;;
   set_preconditionPredicate substatementContext2 (predicate substatement1);;
   substatement2 <-
     randomStatement_with (randomStatement_loop rnd fuel) substatementContext2 (Finite 0);;
   let newStatement := LogicalAndStatement context substatement1 substatement2 in
   h <- get_store;;
   if implies h substatement1 newStatement
      || implies h substatement2 newStatement
      || isTautology h (BasicLogicalNotStatement newStatement)
   then LogicalAndStatement_random rnd fuel context
   else ret newStatement).
Proof. reflexivity. Qed.

Lemma LogicalOrStatement_random_S fuel context :
  LogicalOrStatement_random rnd (S fuel) context =
  (substatementContext <- LogicalStatementContext_from context;;
   set_isRoot substatementContext false;;
   set_shouldUseGa substatementContext true;;
   set_preconditionPredicate substatementContext None;;
   substatement1 <-
     randomStatement_with (randomStatement_loop rnd fuel) substatementContext (Finite 0);;
   substatement2 <-
     randomStatement_with (randomStatement_loop rnd fuel) substatementContext (Finite 0);;
   let newStatement := LogicalOrStatement context substatement1 substatement2 in
   h <- get_store;;
   if implies h newStatement substatement1
      || implies h newStatement substatement2
      || isTautology h newStatement
   then LogicalOrStatement_random rnd fuel context
   else ret newStatement).
Proof. reflexivity. Qed.

Lemma LogicalIfStatement_random_S fuel context :
  LogicalIfStatement_random rnd (S fuel) context =
  (antecedentContext <- LogicalStatementContext_from context;;
   set_isRoot antecedentContext false;;
   set_shouldUseGa antecedentContext true;;
   antecedent <-
     randomStatement_with (randomStatement_loop rnd fuel) antecedentContext (Finite 1);;
   consequentContext <- LogicalStatementContext_from antecedentContext;;
   h0 <- get_store;;
   set_shouldUseGa consequentContext (shouldUseGa (h0 !!! context));;
   set_preconditionPredicate consequentContext (predicate antecedent);;
   consequent <-
     randomStatement_with (randomStatement_loop rnd fuel) consequentContext (Finite 1);;
   let newStatement := LogicalIfStatement context antecedent consequent in
   h <- get_store;;
   if implies h newStatement (BasicLogicalNotStatement antecedent)
      || implies h newStatement consequent
      || isTautology h newStatement
   then LogicalIfStatement_random rnd fuel context
   else ret newStatement).
Proof. reflexivity. Qed.

Lemma LogicalAndStatement_random_checked fuel : ∀ context s st s',
  LogicalAndStatement_random rnd fuel context s = (Ok st, s') →
  no_redundant_part (contexts s') st.
Proof.
  induction fuel as [|fuel IH]; intros context s st s' H; [discriminate|].
  rewrite LogicalAndStatement_random_S in H.
  do 7 bind_inv H. prim_inv E5.
  destruct (_ || _ || _) eqn:Hcheck in H.
  - eapply IH, H.
  - prim_inv H. apply orb_false_elim in Hcheck as [Hcheck _].
    apply orb_false_elim in Hcheck as [H1 H2]. split; assumption.
Qed.

Lemma LogicalOrStatement_random_checked fuel : ∀ context s st s',
  LogicalOrStatement_random rnd fuel context s = (Ok st, s') →
  no_redundant_part (contexts s') st.
Proof.
  induction fuel as [|fuel IH]; intros context s st s' H; [discriminate|].
  rewrite LogicalOrStatement_random_S in H.
  do 7 bind_inv H. prim_inv E5.
  destruct (_ || _ || _) eqn:Hcheck in H.
  - eapply IH, H.
  - prim_inv H. apply orb_false_elim in Hcheck as [Hcheck _].
    apply orb_false_elim in Hcheck as [H1 H2]. split; assumption.
Qed.

End Rejection.

(** In a disjunction each part implies the whole, whatever the parts are. *)
Lemma substatement_implies_disjunction h c s1 s2 :
  implies h s1 (LogicalOrStatement c s1 s2) = true ∧
  implies h s2 (LogicalOrStatement c s1 s2) = true.
Proof.
  unfold implies, isTautology. split; apply forallb_forall; intros a _;
    cbn [isTrueOn]; destruct (isTrueOn s1 a), (isTrueOn s2 a); reflexivity.
Qed.

(** C1, as amended.  For every statement returned by
    [LogicalAndStatement.random], neither of its two substatements implies
    the whole conjunction; for every statement returned by
    [LogicalOrStatement.random], the disjunction implies neither of its
    two substatements. *)
Theorem compound_random_no_redundant_part rnd fuel context s st s' :
  LogicalAndStatement_random rnd fuel context s = (Ok st, s') ∨
  LogicalOrStatement_random rnd fuel context s = (Ok st, s') →
  no_redundant_part (contexts s') st.
Proof.
  intros [H|H].
  - eapply LogicalAndStatement_random_checked, H.
  - eapply LogicalOrStatement_random_checked, H.
Qed.

Lemma compound_random_no_redundant_part_witness :
  let st := LogicalAndStatement 0%nat (TrueFalseStatement 1%nat 0 true)
                                      (TrueFalseStatement 2%nat 1 false) in
  ∃ s', LogicalAndStatement_random (replay draws_and) 5 0%nat two_people = (Ok st, s') ∧
        no_redundant_part (contexts s') st.
Proof.
  intros st. eexists. split; [vm_compute; reflexivity|].
  apply (compound_random_no_redundant_part (replay draws_and) 5 0%nat two_people st).
  left. vm_compute. reflexivity.
Defined.

(** C1 as stated fails for the disjunction: on the statement returned by
    this run of [LogicalOrStatement.random] both substatements imply the
    compound. *)
Lemma LogicalOrStatement_random_substatement_implies :
  let s1 := TrueFalseStatement 1%nat 0 true in
  let s2 := TrueFalseStatement 1%nat 1 true in
  let st := LogicalOrStatement 0%nat s1 s2 in
  ∃ s', LogicalOrStatement_random (replay draws_or) 5 0%nat two_people = (Ok st, s') ∧
        implies (contexts s') s1 st = true ∧ implies (contexts s') s2 st = true.
Proof.
  intros s1 s2 st. eexists. split; [vm_compute; reflexivity|].
  apply substatement_implies_disjunction.
Qed.

(** ** What the generator guarantees *)

Lemma post_of_bind {A B} (m : M A) (k : A → M B) s (Q : B → state → Prop) :
  post_of (m s) (λ a s1, post_of (k a s1) Q) → post_of (bind m k s) Q.
Proof. unfold bind. destruct (m s) as [[a|e|] s1]; simpl; auto. Qed.

Lemma post_of_mono {A} (r : outcome A * state) (Q Q' : A → state → Prop) :
  post_of r Q → (∀ a s', Q a s' → Q' a s') → post_of r Q'.
Proof. destruct r as [[a|e|] s1]; simpl; auto. Qed.

Lemma bind_from c {B} (k : ref → M B) s :
  bind (LogicalStatementContext_from c) k s
  = k (length (contexts s))
      (mkState (contexts s ++ [mkContext (personCount (contexts s !!! c))
                                 (speakerIndex (contexts s !!! c))
                                 (isRoot (contexts s !!! c))
                                 (shouldUseGa (contexts s !!! c))
                                 (preconditionPredicate (contexts s !!! c))
                                 (complexityFactor (contexts s !!! c))])
         (drawn s)).
Proof. reflexivity. Qed.

Lemma bind_update c f {B} (k : unit → M B) s :
  bind (update_context c f) k s = k tt (mkState (alter f c (contexts s)) (drawn s)).
Proof. reflexivity. Qed.

Lemma bind_get_store {B} (k : store → M B) s :
  bind get_store k s = k (contexts s) s.
Proof. reflexivity. Qed.

Lemma prefix_alter (h0 l : store) f c :
  h0 `prefix_of` l → (length h0 ≤ c)%nat → h0 `prefix_of` alter f c l.
Proof.
  intros [k ->] Hc. rewrite alter_app_r_alt by assumption.
  apply prefix_app_r. reflexivity.
Qed.

Lemma refs_below_mono n m s : (n ≤ m)%nat → refs_below n s → refs_below m s.
Proof.
  intros Hnm. induction s; simpl; intuition lia.
Qed.

Lemma generated_subjectBitsArray s :
  generated s → ∃ array, subjectBitsArray s = Some array.
Proof.
  induction s; simpl; try contradiction; eauto;
    intros [H1 H2];
    destruct (IHs1 H1) as [a1 ->], (IHs2 H2) as [a2 ->]; simpl; eauto.
Qed.

Lemma first_below_range r pws count : ∀ i j,
  first_below r pws count i = Some j → (i ≤ j < i + count)%nat.
Proof.
  induction count as [|count IH]; intros i j H; simpl in H; [discriminate|].
  destruct (pws !! i) as [w|].
  - destruct (Qltb r w).
    + injection H as <-. lia.
    + apply IH in H. lia.
  - apply IH in H. lia.
Qed.

Lemma choose_index_lt r pws count :
  (0 < count)%nat → (choose_index r pws count < count)%nat.
Proof.
  intros Hc. unfold choose_index.
  destruct (first_below r pws count 0) as [j|] eqn:E; simpl; [|lia].
  apply first_below_range in E. lia.
Qed.

Lemma gen_post_weaken h0 n0 n1 context (P P' : StatementClass → Prop) st s' :
  gen_post h0 n1 context P st s' →
  (n0 ≤ n1)%nat → (∀ c, P c → P' c) →
  gen_post h0 n0 context P' st s'.
Proof.
  intros (Hpre & Hlen & Hgen & (c & Hc & HP) & Hrefs) Hn HPP'.
  repeat split; try assumption; [lia | eauto |].
  intros Hctx. apply Hrefs. lia.
Qed.

Section GeneratorSpec.

Variable rnd : nat → Q.

Lemma bind_Math_random {B} (k : Q → M B) s :
  bind (Math_random rnd) k s
  = k (rnd (drawn s)) (mkState (contexts s) (S (drawn s))).
Proof. reflexivity. Qed.

(** *** The two atomic classes *)

Lemma TrueFalseStatement_random_spec h0 context s :
  h0 `prefix_of` contexts s →
  post_of (TrueFalseStatement_random rnd context s)
    (gen_post h0 (length (contexts s)) context (λ c, c = ClassTrueFalse)).
Proof.
  intros Hpre. unfold TrueFalseStatement_random.
  rewrite bind_Math_random, bind_get_store, bind_Math_random. simpl.
  repeat split; eauto.
Qed.

Lemma TypeCountStatement_random_subjectBits_spec fuel : ∀ context s,
  post_of (TypeCountStatement_random_subjectBits rnd fuel context s)
    (λ subjectBits s', contexts s' = contexts s ∧ 1 < popcount subjectBits).
Proof.
  induction fuel as [|fuel IH]; intros context s; [exact I|].
  cbn [TypeCountStatement_random_subjectBits].
  rewrite bind_Math_random, bind_get_store. cbn [contexts].
  destruct (Z.leb_spec (popcount (floor_scaled (rnd (drawn s))
                                    (JS.shl 1 (personCount (contexts s !!! context))))) 1).
  - eapply post_of_mono; [apply IH|]. simpl. intros a s' [-> ?]. auto.
  - simpl. split; [reflexivity | lia].
Qed.

Lemma TypeCountStatement_random_spec h0 fuel context s :
  h0 `prefix_of` contexts s →
  post_of (TypeCountStatement_random rnd fuel context s)
    (gen_post h0 (length (contexts s)) context (λ c, c = ClassTypeCount)).
Proof.
  intros Hpre. unfold TypeCountStatement_random.
  apply post_of_bind.
  eapply post_of_mono; [apply TypeCountStatement_random_subjectBits_spec|].
  intros subjectBits s1 [Hs1 _]. rewrite bind_Math_random. simpl.
  rewrite Hs1. repeat split; eauto.
Qed.

Lemma randomStatement_with_spec fuel h0 context maxLayer s :
  loop_spec rnd fuel →
  h0 `prefix_of` contexts s →
  eligible maxLayer ≠ [] →
  post_of (randomStatement_with (randomStatement_loop rnd fuel) context maxLayer s)
    (λ st s', gen_post h0 (length (contexts s)) context (λ c, c ∈ eligible maxLayer) st s'
              ∧ no_repeated_subject st).
Proof.
  intros Hloop Hpre Hne. unfold randomStatement_with.
  destruct (length (eligible maxLayer) =? 0)%nat eqn:E.
  - apply Nat.eqb_eq in E. destruct (eligible maxLayer); [congruence | discriminate].
  - rewrite bind_get_store. apply Hloop; assumption.
Qed.

Lemma loop_spec_S fuel : loop_spec rnd fuel → class_spec rnd fuel → loop_spec rnd (S fuel).
Proof.
  intros IHloop IHclass h0 context classChoices weightSum partialWeightSums s Hpre Hne.
  cbn [randomStatement_loop]. rewrite bind_Math_random.
  set (s1 := mkState (contexts s) (S (drawn s))).
  set (i := choose_index _ _ _).
  assert (Hi : (i < length classChoices)%nat).
  { apply choose_index_lt. destruct classChoices; [congruence | simpl; lia]. }
  destruct (lookup_lt_is_Some_2 _ _ Hi) as [classChoice Hc]. rewrite Hc.
  apply post_of_bind.
  eapply post_of_mono.
  { pose proof (IHclass h0 classChoice context s1 Hpre) as Hcl.
    destruct classChoice; exact Hcl. }
  intros st s2 Hpost.
  destruct Hpost as (Hpre2 & Hlen2 & Hgen & (c & Hcls & Hceq) & Hrefs).
  destruct (generated_subjectBitsArray st Hgen) as [array Harr]. rewrite Harr.
  destruct (hasDuplicate array) eqn:Hdup.
  - eapply post_of_mono; [apply (IHloop h0); assumption|].
    intros st' s3 [Hg Hn]. split; [|assumption].
    eapply gen_post_weaken; [exact Hg | exact Hlen2 | auto].
  - simpl. split.
    + split; [assumption|]. split; [exact Hlen2|]. split; [assumption|].
      split; [|assumption]. exists c. split; [assumption|]. subst c.
      eapply list_elem_of_lookup_2; eauto.
    + exists array. auto.
Qed.

Lemma eligible_0 : eligible (Finite 0) = [ClassTrueFalse; ClassTypeCount].
Proof. reflexivity. Qed.

Lemma eligible_1 :
  eligible (Finite 1) = [ClassTrueFalse; ClassTypeCount; ClassLogicalAnd; ClassLogicalOr].
Proof. reflexivity. Qed.

Lemma and_spec_S fuel :
  loop_spec rnd fuel → class_spec rnd fuel →
  ∀ h0 context s, h0 `prefix_of` contexts s →
    post_of (LogicalAndStatement_random rnd (S fuel) context s)
      (gen_post h0 (length (contexts s)) context (λ c, c = ClassLogicalAnd)).
Proof.
  intros IHloop IHclass h0 context s Hpre.
  pose proof (prefix_length _ _ Hpre) as Hlen0.
  rewrite LogicalAndStatement_random_S.
  unfold set_isRoot, set_preconditionPredicate.
  rewrite bind_from, bind_update. cbn [contexts drawn].
  set (c1 := length (contexts s)).
  assert (Ec1 : c1 = length (contexts s)) by reflexivity.
  match goal with |- post_of (bind _ _ ?st) _ => set (s1 := st) end.
  assert (Hpre1 : h0 `prefix_of` contexts s1).
  { apply prefix_alter; [apply prefix_app_r; assumption | lia]. }
  assert (Hlen1 : length (contexts s1) = S c1).
  { unfold s1. cbn [contexts]. rewrite length_alter, length_app. simpl. lia. }
  apply post_of_bind. eapply post_of_mono.
  { apply (randomStatement_with_spec fuel h0 c1 (Finite 0) s1 IHloop Hpre1).
    rewrite eligible_0. discriminate. }
  intros st1 s2 [(Hpre2 & Hlen2 & Hgen1 & _ & Hrefs1) _].
  rewrite bind_from, bind_update. cbn [contexts drawn].
  set (c2 := length (contexts s2)).
  assert (Ec2 : c2 = length (contexts s2)) by reflexivity.
  match goal with |- post_of (bind _ _ ?st) _ => set (s3 := st) end.
  assert (Hpre3 : h0 `prefix_of` contexts s3).
  { apply prefix_alter; [apply prefix_app_r; assumption|].
    apply prefix_length in Hpre2. lia. }
  assert (Hlen3 : length (contexts s3) = S c2).
  { unfold s3. cbn [contexts]. rewrite length_alter, length_app. simpl. lia. }
  apply post_of_bind. eapply post_of_mono.
  { apply (randomStatement_with_spec fuel h0 c2 (Finite 0) s3 IHloop Hpre3).
    rewrite eligible_0. discriminate. }
  intros st2 s4 [(Hpre4 & Hlen4 & Hgen2 & _ & Hrefs2) _].
  rewrite bind_get_store.
  destruct (_ || _ || _).
  - eapply post_of_mono.
    { apply (IHclass h0 ClassLogicalAnd context s4 Hpre4). }
    intros st s5 Hg. eapply gen_post_weaken; [exact Hg | | auto].
    lia.
  - simpl. split; [assumption|]. split; [lia|].
    split; [split; assumption|]. split; [eauto|].
    intros Hctx. cbn [refs_below]. split; [lia|]. split.
    + apply (refs_below_mono (length (contexts s2))); [lia | apply Hrefs1; lia].
    + apply Hrefs2. lia.
Qed.

Ltac fresh_context_state c st :=
  match goal with
  | |- post_of (bind _ _ ?x) _ => set (st := x)
  end.

Ltac prefix_after_updates :=
  repeat (apply prefix_alter; [|lia]); apply prefix_app_r; assumption.

Ltac length_after_updates st :=
  unfold st; cbn [contexts]; rewrite !length_alter, length_app; simpl; lia.

Lemma or_spec_S fuel :
  loop_spec rnd fuel → class_spec rnd fuel →
  ∀ h0 context s, h0 `prefix_of` contexts s →
    post_of (LogicalOrStatement_random rnd (S fuel) context s)
      (gen_post h0 (length (contexts s)) context (λ c, c = ClassLogicalOr)).
Proof.
  intros IHloop IHclass h0 context s Hpre.
  pose proof (prefix_length _ _ Hpre) as Hlen0.
  rewrite LogicalOrStatement_random_S.
  unfold set_isRoot, set_shouldUseGa, set_preconditionPredicate.
  rewrite bind_from, !bind_update. cbn [contexts drawn].
  set (c1 := length (contexts s)).
  assert (Ec1 : c1 = length (contexts s)) by reflexivity.
  fresh_context_state c1 s1.
  assert (Hpre1 : h0 `prefix_of` contexts s1) by prefix_after_updates.
  assert (Hlen1 : length (contexts s1) = S c1) by length_after_updates s1.
  apply post_of_bind. eapply post_of_mono.
  { apply (randomStatement_with_spec fuel h0 c1 (Finite 0) s1 IHloop Hpre1).
    rewrite eligible_0. discriminate. }
  intros st1 s2 [(Hpre2 & Hlen2 & Hgen1 & _ & Hrefs1) _].
  apply post_of_bind. eapply post_of_mono.
  { apply (randomStatement_with_spec fuel h0 c1 (Finite 0) s2 IHloop Hpre2).
    rewrite eligible_0. discriminate. }
  intros st2 s3 [(Hpre3 & Hlen3 & Hgen2 & _ & Hrefs2) _].
  rewrite bind_get_store.
  destruct (_ || _ || _).
  - eapply post_of_mono.
    { apply (IHclass h0 ClassLogicalOr context s3 Hpre3). }
    intros st s4 Hg. eapply gen_post_weaken; [exact Hg | | auto]. lia.
  - simpl. split; [assumption|]. split; [lia|].
    split; [split; assumption|]. split; [eauto|].
    intros Hctx. cbn [refs_below]. split; [lia|]. split.
    + apply (refs_below_mono (length (contexts s2))); [lia | apply Hrefs1; lia].
    + apply Hrefs2. lia.
Qed.

Lemma if_spec_S fuel :
  loop_spec rnd fuel → class_spec rnd fuel →
  ∀ h0 context s, h0 `prefix_of` contexts s →
    post_of (LogicalIfStatement_random rnd (S fuel) context s)
      (gen_post h0 (length (contexts s)) context (λ c, c = ClassLogicalIf)).
Proof.
  intros IHloop IHclass h0 context s Hpre.
  pose proof (prefix_length _ _ Hpre) as Hlen0.
  rewrite LogicalIfStatement_random_S.
  unfold set_isRoot, set_shouldUseGa, set_preconditionPredicate.
  rewrite bind_from, !bind_update. cbn [contexts drawn].
  set (c1 := length (contexts s)).
  assert (Ec1 : c1 = length (contexts s)) by reflexivity.
  fresh_context_state c1 s1.
  assert (Hpre1 : h0 `prefix_of` contexts s1) by prefix_after_updates.
  assert (Hlen1 : length (contexts s1) = S c1) by length_after_updates s1.
  apply post_of_bind. eapply post_of_mono.
  { apply (randomStatement_with_spec fuel h0 c1 (Finite 1) s1 IHloop Hpre1).
    rewrite eligible_1. discriminate. }
  intros st1 s2 [(Hpre2 & Hlen2 & Hgen1 & _ & Hrefs1) _].
  rewrite bind_from, bind_get_store, !bind_update. cbn [contexts drawn].
  set (c2 := length (contexts s2)).
  assert (Ec2 : c2 = length (contexts s2)) by reflexivity.
  fresh_context_state c2 s3.
  pose proof (prefix_length _ _ Hpre2) as Hlen02.
  assert (Hpre3 : h0 `prefix_of` contexts s3) by prefix_after_updates.
  assert (Hlen3 : length (contexts s3) = S c2) by length_after_updates s3.
  apply post_of_bind. eapply post_of_mono.
  { apply (randomStatement_with_spec fuel h0 c2 (Finite 1) s3 IHloop Hpre3).
    rewrite eligible_1. discriminate. }
  intros st2 s4 [(Hpre4 & Hlen4 & Hgen2 & _ & Hrefs2) _].
  rewrite bind_get_store.
  destruct (_ || _ || _).
  - eapply post_of_mono.
    { apply (IHclass h0 ClassLogicalIf context s4 Hpre4). }
    intros st s5 Hg. eapply gen_post_weaken; [exact Hg | | auto]. lia.
  - simpl. split; [assumption|]. split; [lia|].
    split; [split; assumption|]. split; [eauto|].
    intros Hctx. cbn [refs_below]. split; [lia|]. split.
    + apply (refs_below_mono (length (contexts s2))); [lia | apply Hrefs1; lia].
    + apply Hrefs2. lia.
Qed.

Lemma generator_spec : ∀ fuel, loop_spec rnd fuel ∧ class_spec rnd fuel.
Proof.
  induction fuel as [|fuel [IHloop IHclass]].
  - split.
    + intros h0 context classChoices weightSum partialWeightSums s _ _. exact I.
    + intros h0 classChoice context s Hpre. destruct classChoice; try exact I.
      apply TrueFalseStatement_random_spec; assumption.
  - split; [apply loop_spec_S; assumption|].
    intros h0 classChoice context s Hpre. destruct classChoice.
    + apply TrueFalseStatement_random_spec; assumption.
    + apply TypeCountStatement_random_spec; assumption.
    + apply and_spec_S; assumption.
    + apply or_spec_S; assumption.
    + apply if_spec_S; assumption.
Qed.

End GeneratorSpec.

(** ** Layers, duplicates, errors and the caller's context *)

Lemma randomStatement_post rnd fuel h0 context maxLayer s :
  h0 `prefix_of` contexts s →
  eligible maxLayer ≠ [] →
  post_of (randomStatement rnd fuel context maxLayer s)
    (λ st s', gen_post h0 (length (contexts s)) context (λ c, c ∈ eligible maxLayer) st s'
              ∧ no_repeated_subject st).
Proof.
  intros Hpre Hne. unfold randomStatement.
  apply randomStatement_with_spec; [apply generator_spec | assumption | assumption].
Qed.

Lemma randomStatement_no_class rnd fuel context maxLayer s :
  eligible maxLayer = [] →
  randomStatement rnd fuel context maxLayer s = (Throw NoStatementClass, s).
Proof.
  intros E. unfold randomStatement, randomStatement_with. rewrite E. reflexivity.
Qed.

Lemma elem_of_eligible c maxLayer :
  c ∈ eligible maxLayer ↔ layer_le (nestingLayer c) maxLayer = true.
Proof.
  unfold eligible. rewrite list_elem_of_filter. split; [tauto|].
  intros H. split; [assumption|]. destruct c; set_solver.
Qed.

Lemma eligible_empty maxLayer :
  eligible maxLayer = [] ↔ ∃ z, maxLayer = Finite z ∧ z < 0.
Proof.
  split.
  - intros E. destruct maxLayer as [z|].
    + exists z. split; [reflexivity|].
      destruct (Z_lt_le_dec z 0) as [|Hz]; [assumption|]. exfalso.
      assert (H : ClassTrueFalse ∈ eligible (Finite z)).
      { apply elem_of_eligible. simpl. apply Z.leb_le. assumption. }
      rewrite E in H. inversion H.
    + discriminate.
  - intros (z & -> & Hz).
    destruct (eligible (Finite z)) as [|c l] eqn:E; [reflexivity|]. exfalso.
    assert (H : c ∈ eligible (Finite z)) by (rewrite E; left).
    apply elem_of_eligible in H. simpl in H. apply Z.leb_le in H.
    destruct c; simpl in H; lia.
Qed.

(** C7.  Every statement returned by [randomStatement(context, maxLayer)]
    is an instance of a registered class whose [nestingLayer] is at most
    [maxLayer], and its [subjectBitsArray()] has no repeated element:
    [hasDuplicate] is false on it. *)
Theorem randomStatement_layer_and_subjects rnd fuel context maxLayer s st s' :
  randomStatement rnd fuel context maxLayer s = (Ok st, s') →
  (∃ c, class_of st = Some c ∧ layer_le (nestingLayer c) maxLayer = true) ∧
  (∃ array, subjectBitsArray st = Some array ∧ hasDuplicate array = false
            ∧ NoDup array).
Proof.
  intros H.
  destruct (eligible maxLayer) as [|c0 l] eqn:E.
  - rewrite randomStatement_no_class in H by assumption. discriminate.
  - pose proof (randomStatement_post rnd fuel [] context maxLayer s) as P.
    rewrite H in P. simpl in P.
    destruct P as [(_ & _ & _ & (c & Hc & Hin) & _) (array & Ha & Hd)].
    + apply prefix_nil.
    + rewrite E. discriminate.
    + split.
      * exists c. split; [assumption|]. apply elem_of_eligible. assumption.
      * exists array. repeat split; try assumption. apply hasDuplicate_false. assumption.
Qed.

Lemma randomStatement_layer_and_subjects_witness :
  ∃ st s',
    randomStatement (replay draws_statement) 5 0%nat Infinity two_people = (Ok st, s') ∧
    (∃ c, class_of st = Some c ∧ layer_le (nestingLayer c) Infinity = true) ∧
    (∃ array, subjectBitsArray st = Some array ∧ hasDuplicate array = false
              ∧ NoDup array).
Proof.
  eexists _, _. split; [vm_compute; reflexivity|].
  eapply (randomStatement_layer_and_subjects (replay draws_statement) 5 0%nat
            Infinity two_people).
  vm_compute. reflexivity.
Defined.

(** C8.  [randomStatement(context, maxLayer)] throws if and only if no
    registered class has [nestingLayer <= maxLayer]; with the registry of
    [statement.js] that is exactly when [maxLayer < 0].  The error is the
    one raised before the loop, so a call for which some class qualifies
    never surfaces an error, however many candidates are rejected. *)
Theorem randomStatement_throws rnd fuel context maxLayer s :
  let throws := ∃ e s', randomStatement rnd fuel context maxLayer s = (Throw e, s') in
  (throws ↔ ∀ c, c ∈ childStatementClasses → layer_le (nestingLayer c) maxLayer = false) ∧
  (throws ↔ ∃ z, maxLayer = Finite z ∧ z < 0) ∧
  (throws → randomStatement rnd fuel context maxLayer s = (Throw NoStatementClass, s)).
Proof.
  intros throws.
  assert (Hthrows : throws ↔ eligible maxLayer = []).
  { split.
    - intros (e & s' & H).
      destruct (eligible maxLayer) as [|c0 l] eqn:E; [reflexivity|]. exfalso.
      pose proof (randomStatement_post rnd fuel [] context maxLayer s) as P.
      rewrite H in P. apply P; [apply prefix_nil | rewrite E; discriminate].
    - intros E. exists NoStatementClass, s. apply randomStatement_no_class. assumption. }
  split; [|split].
  - rewrite Hthrows. split.
    + intros E c Hc. destruct (layer_le (nestingLayer c) maxLayer) eqn:L; [|reflexivity].
      exfalso. apply elem_of_eligible in L. rewrite E in L. inversion L.
    + intros Hall. destruct (eligible maxLayer) as [|c l] eqn:E; [reflexivity|]. exfalso.
      assert (H : c ∈ eligible maxLayer) by (rewrite E; left).
      pose proof H as H'. apply elem_of_eligible in H'.
      unfold eligible in H. apply list_elem_of_filter in H as [_ H].
      rewrite (Hall c H) in H'. discriminate.
  - rewrite Hthrows. apply eligible_empty.
  - intros Ht. apply randomStatement_no_class, Hthrows, Ht.
Qed.

Lemma random_of_post rnd fuel h0 classChoice context s :
  h0 `prefix_of` contexts s →
  post_of (random_of rnd classChoice fuel context s)
    (gen_post h0 (length (contexts s)) context (λ c, c = classChoice)).
Proof. intros Hpre. apply generator_spec. assumption. Qed.

(** C9.  [randomStatement] and the [random] constructor of every class
    leave every context object that exists at the time of the call, the
    caller's context among them, with the same six fields; the assignments
    made during generation go to objects created by
    [LogicalStatementContext.from] during the call. *)
Theorem random_leaves_contexts_unchanged rnd fuel context maxLayer classChoice s st s' c :
  (c < length (contexts s))%nat →
  randomStatement rnd fuel context maxLayer s = (Ok st, s') ∨
  random_of rnd classChoice fuel context s = (Ok st, s') →
  contexts s' !! c = contexts s !! c.
Proof.
  intros Hc H.
  assert (Hpre : contexts s `prefix_of` contexts s').
  { destruct H as [H|H].
    - destruct (eligible maxLayer) as [|c0 l] eqn:E.
      + rewrite randomStatement_no_class in H by assumption. discriminate.
      + pose proof (randomStatement_post rnd fuel (contexts s) context maxLayer s) as P.
        rewrite H in P. apply P; [reflexivity | rewrite E; discriminate].
    - pose proof (random_of_post rnd fuel (contexts s) classChoice context s) as P.
      rewrite H in P. apply P. reflexivity. }
  symmetry. apply prefix_lookup_lt; assumption.
Qed.

Lemma random_leaves_contexts_unchanged_witness :
  ∃ st s',
    randomStatement (replay draws_statement) 5 0%nat Infinity two_people = (Ok st, s') ∧
    (0 < length (contexts two_people))%nat ∧
    contexts s' !! 0%nat = contexts two_people !! 0%nat.
Proof.
  eexists _, _. split; [vm_compute; reflexivity|]. split; [simpl; lia|].
  eapply (random_leaves_contexts_unchanged (replay draws_statement) 5 0%nat
            Infinity ClassTrueFalse two_people).
  - simpl. lia.
  - left. vm_compute. reflexivity.
Defined.

(** ** Doubles *)

Section Doubles.

Local Open Scope Q_scope.

Lemma Qpower2_pos e : 0 < 2 ^ e.
Proof. apply Qpower.Qpower_0_lt. reflexivity. Qed.

Lemma Qpower2_sub (a b : Z) :
  (0 <= a)%Z → (0 <= b)%Z → 2 ^ (a - b) == inject_Z (2 ^ a) / inject_Z (2 ^ b).
Proof.
  intros Ha Hb. rewrite Qpower.Qpower_minus by discriminate.
  rewrite !Qpower.Zpower_Qpower by assumption. reflexivity.
Qed.

Lemma Qlt_pow2_frac (p : Z) (q : positive) (a b : Z) :
  (0 <= a)%Z → (0 <= b)%Z → (p * 2 ^ b < 2 ^ a * Zpos q)%Z → p # q < 2 ^ (a - b).
Proof.
  intros Ha Hb H. rewrite Qpower2_sub by assumption.
  apply Qlt_shift_div_l.
  - change 0 with (inject_Z 0). rewrite <- Zlt_Qlt. apply Z.pow_pos_nonneg; lia.
  - unfold Qlt, Qmult, inject_Z. simpl. lia.
Qed.

Lemma Qle_pow2_frac (p : Z) (q : positive) (a b : Z) :
  (0 <= a)%Z → (0 <= b)%Z → (2 ^ a * Zpos q <= p * 2 ^ b)%Z → 2 ^ (a - b) <= p # q.
Proof.
  intros Ha Hb H. rewrite Qpower2_sub by assumption.
  apply Qle_shift_div_r.
  - change 0 with (inject_Z 0). rewrite <- Zlt_Qlt. apply Z.pow_pos_nonneg; lia.
  - unfold Qle, Qmult, inject_Z. simpl. lia.
Qed.

Lemma binade_spec x : 0 < x → 2 ^ binade x <= x ∧ x < 2 ^ (binade x + 1).
Proof.
  destruct x as [p q]. intros Hx.
  assert (Hp : (0 < p)%Z).
  { unfold Qlt in Hx. simpl in Hx. lia. }
  unfold binade. cbn [Qnum Qden].
  set (lp := Z.log2 p). set (lq := Z.log2 (Zpos q)).
  assert (Hlp : (0 <= lp)%Z) by apply Z.log2_nonneg.
  assert (Hlq : (0 <= lq)%Z) by apply Z.log2_nonneg.
  destruct (Z.log2_spec p Hp) as [Hp1 Hp2]. fold lp in Hp1, Hp2.
  destruct (Z.log2_spec (Zpos q) ltac:(lia)) as [Hq1 Hq2]. fold lq in Hq1, Hq2.
  assert (Hlow : 2 ^ (lp - lq - 1) <= p # q).
  { replace (lp - lq - 1)%Z with (lp - (lq + 1))%Z by lia.
    apply Qle_pow2_frac; [lia | lia |].
    replace (lq + 1)%Z with (Z.succ lq) by lia. nia. }
  assert (Hhigh : p # q < 2 ^ (lp - lq + 1)).
  { replace (lp - lq + 1)%Z with (lp + 1 - lq)%Z by lia.
    apply Qlt_pow2_frac; [lia | lia |].
    replace (lp + 1)%Z with (Z.succ lp) by lia. nia. }
  destruct (Qle_bool (2 ^ (lp - lq)) (p # q)) eqn:E.
  - apply Qle_bool_iff in E. split; assumption.
  - split; [exact Hlow|].
    replace (lp - lq - 1 + 1)%Z with (lp - lq)%Z by lia.
    apply Qnot_le_lt. intros H. apply Qle_bool_iff in H. congruence.
Qed.

Lemma round_half_even_near y :
  y - (1 # 2) <= inject_Z (round_half_even y) ∧
  inject_Z (round_half_even y) <= y + (1 # 2).
Proof.
  unfold round_half_even.
  pose proof (Qfloor_le y) as Hlo. pose proof (Qlt_floor y) as Hhi.
  set (f := Qfloor y) in *.
  rewrite !inject_Z_plus in *. change (inject_Z 1) with 1 in *.
  destruct (Qcompare_spec (y - inject_Z f) (1 # 2)) as [E|E|E].
  - destruct (Z.even f); [|rewrite inject_Z_plus; change (inject_Z 1) with 1]; Lqa.lra.
  - Lqa.lra.
  - rewrite inject_Z_plus. change (inject_Z 1) with 1. Lqa.lra.
Qed.

Lemma Qfloor_near y : y - 1 <= inject_Z (Qfloor y) ∧ inject_Z (Qfloor y) <= y.
Proof.
  pose proof (Qfloor_le y) as Hlo. pose proof (Qlt_floor y) as Hhi.
  rewrite inject_Z_plus in Hhi. change (inject_Z 1) with 1 in Hhi. Lqa.lra.
Qed.

(** A positive number rounded to a multiple of [2^e], where the integer
    rounding moves down by at most [d1] and up by at most [d2]. *)
Lemma round_to_double_near (round : Q → Z) d1 d2 x :
  (∀ y, y - d1 <= inject_Z (round y) ∧ inject_Z (round y) <= y + d2) →
  0 < x →
  let e := double_exponent x in
  x - d1 * 2 ^ e <= round_to_double round x ∧ round_to_double round x <= x + d2 * 2 ^ e.
Proof.
  intros Hround Hx e.
  unfold round_to_double.
  destruct x as [p q]. unfold Qlt in Hx. simpl in Hx.
  destruct p as [|p|p]; try lia. cbn [Qnum]. fold e.
  pose proof (Qpower2_pos e) as He.
  destruct (Hround ((Z.pos p # q) / 2 ^ e)) as [H1 H2].
  set (m := inject_Z (round ((Z.pos p # q) / 2 ^ e))) in *.
  assert (Hx' : (Z.pos p # q) == (Z.pos p # q) / 2 ^ e * 2 ^ e).
  { field. intros H0. rewrite H0 in He. discriminate. }
  set (y := (Z.pos p # q) / 2 ^ e) in *.
  rewrite Hx' at 1 2.
  pose proof (Qmult_le_compat_r _ _ (2 ^ e) H1 (Qlt_le_weak _ _ He)) as M1.
  pose proof (Qmult_le_compat_r _ _ (2 ^ e) H2 (Qlt_le_weak _ _ He)) as M2.
  set (P := 2 ^ e) in *. clearbody P m y. split; Lqa.lra.
Qed.

Lemma round_to_double_0 (round : Q → Z) x : x == 0 → round_to_double round x = 0.
Proof.
  destruct x as [p q]. unfold Qeq. simpl. intros H.
  assert (p = 0%Z) by lia. subst p. reflexivity.
Qed.

Lemma double_exponent_cases x :
  0 < x →
  2 ^ double_exponent x <= x * 2 ^ (-52) ∨
  (double_exponent x = (-1074)%Z ∧ x < 2 ^ (-1022)).
Proof.
  intros Hx. destruct (binade_spec x Hx) as [Hlo Hhi].
  unfold double_exponent.
  destruct (Z.max_spec (binade x - 52) (-1074)) as [[Hlt ->]|[Hge ->]].
  - right. split; [reflexivity|].
    eapply Qlt_le_trans; [exact Hhi|].
    apply Qpower.Qpower_le_compat_l; [lia | discriminate].
  - left. replace (binade x - 52)%Z with (binade x + -52)%Z by lia.
    rewrite Qpower.Qpower_plus by discriminate.
    apply Qmult_le_compat_r; [exact Hlo | apply Qlt_le_weak, Qpower2_pos].
Qed.

Lemma binary64_near x :
  0 < x →
  (x * (1 - unit_roundoff) <= binary64 x ∧ binary64 x <= x * (1 + unit_roundoff)) ∨
  (x < 1 ∧ binary64 x < 1).
Proof.
  intros Hx.
  destruct (round_to_double_near round_half_even (1 # 2) (1 # 2) x
              round_half_even_near Hx) as [H1 H2].
  fold binary64 in H1, H2. cbv zeta in H1, H2.
  destruct (double_exponent_cases x Hx) as [He|[He Hsmall]].
  - left.
    assert (E : 2 ^ (-52) == 2 * unit_roundoff) by (vm_compute; reflexivity).
    rewrite E in He. unfold unit_roundoff in *.
    set (P := 2 ^ double_exponent x) in *. clearbody P.
    split; Lqa.lra.
  - right. rewrite He in H1, H2.
    assert (H3 : 2 ^ (-1022) + (1 # 2) * 2 ^ (-1074) < 1) by (vm_compute; reflexivity).
    assert (H4 : 2 ^ (-1022) < 1) by (vm_compute; reflexivity).
    split; Lqa.lra.
Qed.

Lemma round_to_double_nonneg (round : Q → Z) x :
  (∀ y, 0 <= y → (0 <= round y)%Z) → 0 <= x → 0 <= round_to_double round x.
Proof.
  intros Hround Hx. unfold round_to_double.
  destruct x as [p q]. unfold Qle in Hx. simpl in Hx.
  destruct p as [|p|p]; try lia; cbn [Qnum]; [discriminate|].
  set (e := double_exponent (Z.pos p # q)).
  pose proof (Qpower2_pos e) as He.
  apply Qmult_le_0_compat; [|apply Qlt_le_weak; exact He].
  change 0 with (inject_Z 0). rewrite <- Zle_Qle. apply Hround.
  apply Qle_shift_div_l; [exact He|]. rewrite Qmult_0_l. discriminate.
Qed.

Lemma Qfloor_nonneg y : 0 <= y → (0 <= Qfloor y)%Z.
Proof. intros H. change 0%Z with (Qfloor 0). apply Qfloor_resp_le. exact H. Qed.

Lemma round_half_even_nonneg y : 0 <= y → (0 <= round_half_even y)%Z.
Proof.
  intros H. unfold round_half_even. pose proof (Qfloor_nonneg y H).
  destruct (_ ?= _)%Q; [destruct (Z.even _)| |]; lia.
Qed.

Lemma Qfloor_lt_Z y (n : Z) : y < inject_Z n → (Qfloor y < n)%Z.
Proof.
  intros H. rewrite Zlt_Qlt. eapply Qle_lt_trans; [apply Qfloor_le | exact H].
Qed.

Lemma to_double_unit r :
  0 <= r → r < 1 → 0 <= to_double r ∧ to_double r <= 1 - unit_roundoff.
Proof.
  intros H0 H1. split; [apply round_to_double_nonneg; [apply Qfloor_nonneg | exact H0]|].
  destruct (Qlt_le_dec 0 r) as [Hpos|Hz].
  2:{ unfold to_double. rewrite round_to_double_0; [discriminate|]. Lqa.lra. }
  destruct (Qlt_le_dec r (1 # 2)) as [Hsmall|Hbig].
  - destruct (round_to_double_near Qfloor 1 0 r) as [_ H]; [|exact Hpos|].
    + intros y. destruct (Qfloor_near y). split; Lqa.lra.
    + fold to_double in H. cbv zeta in H. unfold unit_roundoff. Lqa.lra.
  - destruct (binade_spec r Hpos) as [Hlo Hhi].
    assert (Hk : binade r = (-1)%Z).
    { assert (binade r < 0)%Z.
      { apply (Qpower.Qpower_lt_compat_l_inv 2); [|reflexivity].
        eapply Qle_lt_trans; [exact Hlo | exact H1]. }
      assert (-1 < binade r + 1)%Z.
      { apply (Qpower.Qpower_lt_compat_l_inv 2); [|reflexivity].
        eapply Qle_lt_trans; [|exact Hhi]. exact Hbig. }
      lia. }
    unfold to_double, round_to_double.
    destruct r as [p q]. unfold Qlt in Hpos. simpl in Hpos.
    destruct p as [|p|p]; try lia. cbn [Qnum].
    unfold double_exponent. rewrite Hk. change (Z.max (-1 - 52) (-1074)) with (-53)%Z.
    set (y := (Z.pos p # q) / 2 ^ (-53)).
    assert (Hy : y < inject_Z (2 ^ 53)).
    { unfold y. apply Qlt_shift_div_r; [reflexivity|].
      assert (E : inject_Z (2 ^ 53) * 2 ^ (-53) == 1) by (vm_compute; reflexivity).
      rewrite E. exact H1. }
    apply Qfloor_lt_Z in Hy.
    assert (Hf : inject_Z (Qfloor y) <= inject_Z (2 ^ 53 - 1)).
    { rewrite <- Zle_Qle. lia. }
    assert (E : 1 - unit_roundoff == inject_Z (2 ^ 53 - 1) * 2 ^ (-53)) by (vm_compute; reflexivity).
    rewrite E. apply Qmult_le_compat_r; [exact Hf | discriminate].
Qed.

Lemma binary64_nonneg x : 0 <= x → 0 <= binary64 x.
Proof. apply round_to_double_nonneg. exact round_half_even_nonneg. Qed.

(** *** Doubles are left as they are *)

Lemma binade_unique x k : 0 < x → 2 ^ k <= x → x < 2 ^ (k + 1) → binade x = k.
Proof.
  intros Hx Hlo Hhi. destruct (binade_spec x Hx) as [Blo Bhi].
  assert (k < binade x + 1)%Z.
  { apply (Qpower.Qpower_lt_compat_l_inv 2); [|reflexivity].
    eapply Qle_lt_trans; eassumption. }
  assert (binade x < k + 1)%Z.
  { apply (Qpower.Qpower_lt_compat_l_inv 2); [|reflexivity].
    eapply Qle_lt_trans; eassumption. }
  lia.
Qed.

Lemma round_half_even_Z (z : Z) : round_half_even (inject_Z z) = z.
Proof.
  unfold round_half_even. rewrite Qfloor_Z.
  destruct (Qcompare_spec (inject_Z z - inject_Z z) (1 # 2)) as [E|E|E].
  - exfalso. Lqa.lra.
  - reflexivity.
  - exfalso. Lqa.lra.
Qed.

Lemma round_half_even_comp : Proper (Qeq ==> eq) round_half_even.
Proof.
  intros y y' E. unfold round_half_even. rewrite <- (Qfloor_comp _ _ E).
  assert (E' : y - inject_Z (Qfloor y) == y' - inject_Z (Qfloor y)) by Lqa.lra.
  rewrite (Qcompare_comp _ _ E' _ _ (Qeq_refl (1 # 2))). reflexivity.
Qed.

Lemma binade_scaled (m e : Z) : (0 < m)%Z → binade (inject_Z m * 2 ^ e) = (Z.log2 m + e)%Z.
Proof.
  intros Hm. destruct (Z.log2_spec m Hm) as [H1 H2].
  pose proof (Z.log2_nonneg m) as Hl.
  pose proof (Qpower2_pos e) as He.
  apply binade_unique.
  - apply Qmult_lt_0_compat; [|exact He].
    change 0 with (inject_Z 0). rewrite <- Zlt_Qlt. exact Hm.
  - rewrite Qpower.Qpower_plus by discriminate.
    apply Qmult_le_compat_r; [|apply Qlt_le_weak; exact He].
    rewrite <- (Qpower.Zpower_Qpower 2) by exact Hl. rewrite <- Zle_Qle. exact H1.
  - replace (Z.log2 m + e + 1)%Z with (Z.succ (Z.log2 m) + e)%Z by lia.
    rewrite Qpower.Qpower_plus by discriminate.
    apply Qmult_lt_compat_r; [exact He|].
    rewrite <- (Qpower.Zpower_Qpower 2) by lia. rewrite <- Zlt_Qlt. exact H2.
Qed.

Lemma double_exponent_scaled (m e : Z) :
  (0 < m < 2 ^ 53)%Z → (-1074 <= e)%Z → (2 ^ 52 <= m)%Z ∨ e = (-1074)%Z →
  double_exponent (inject_Z m * 2 ^ e) = e.
Proof.
  intros [Hm0 Hm1] He Hcase. unfold double_exponent. rewrite binade_scaled by exact Hm0.
  assert (Z.log2 m < 53)%Z by (apply Z.log2_lt_pow2; lia).
  destruct Hcase as [Hbig| ->].
  - assert (52 <= Z.log2 m)%Z by (apply Z.log2_le_pow2; lia). lia.
  - lia.
Qed.

(** The significand that [to_double] gives to a positive number. *)
Lemma to_double_significand x :
  0 < x →
  let e := double_exponent x in
  let m := Qfloor (x / 2 ^ e) in
  to_double x = inject_Z m * 2 ^ e ∧
  (0 <= m < 2 ^ 53)%Z ∧ (-1074 <= e)%Z ∧ ((2 ^ 52 <= m)%Z ∨ e = (-1074)%Z).
Proof.
  intros Hx e m.
  destruct (binade_spec x Hx) as [Hlo Hhi].
  pose proof (Qpower2_pos e) as He.
  split; [|split; [|split]].
  - unfold to_double, round_to_double. destruct x as [p q].
    unfold Qlt in Hx. simpl in Hx. destruct p as [|p|p]; try lia. reflexivity.
  - split.
    + apply Qfloor_nonneg. apply Qle_shift_div_l; [exact He|].
      rewrite Qmult_0_l. apply Qlt_le_weak. exact Hx.
    + apply Qfloor_lt_Z. apply Qlt_shift_div_r; [exact He|].
      eapply Qlt_le_trans; [exact Hhi|].
      rewrite (Qpower.Zpower_Qpower 2) by lia.
      rewrite <- Qpower.Qpower_plus by discriminate.
      apply Qpower.Qpower_le_compat_l; [|discriminate].
      unfold e, double_exponent. lia.
  - unfold e, double_exponent. lia.
  - subst m e. unfold double_exponent in *.
    destruct (Z.max_spec (binade x - 52) (-1074)) as [[Hlt E]|[Hge E]];
      rewrite E in *; [right; reflexivity|left].
    change (2 ^ 52)%Z with (Qfloor (inject_Z (2 ^ 52))).
    apply Qfloor_resp_le. apply Qle_shift_div_l; [exact He|].
    eapply Qle_trans; [|exact Hlo].
    rewrite (Qpower.Zpower_Qpower 2) by lia.
    rewrite <- Qpower.Qpower_plus by discriminate.
    apply Qpower.Qpower_le_compat_l; [lia | discriminate].
Qed.

(** A rounding leaves a double as it is. *)
Lemma round_to_double_double (round : Q → Z) x :
  Proper (Qeq ==> eq) round → (∀ z, round (inject_Z z) = z) → 0 <= x →
  round_to_double round (to_double x) == to_double x.
Proof.
  intros Hproper Hfix Hx0.
  destruct (Qlt_le_dec 0 x) as [Hx|Hz].
  2:{ unfold to_double at 1 2. rewrite (round_to_double_0 Qfloor x) by Lqa.lra. reflexivity. }
  destruct (to_double_significand x Hx) as (E & [Hm0 Hm1] & He & Hcase).
  cbv zeta in *. set (e := double_exponent x) in *. set (m := Qfloor (x / 2 ^ e)) in *.
  rewrite E. clearbody m e. clear E.
  destruct (Z.eq_dec m 0%Z) as [->|Hm].
  - rewrite round_to_double_0; [reflexivity|]. apply Qmult_0_l.
  - pose proof (double_exponent_scaled m e ltac:(lia) He Hcase) as Hexp.
    pose proof (Qpower2_pos e) as Hpow.
    assert (Hpos : 0 < inject_Z m * 2 ^ e).
    { apply Qmult_lt_0_compat; [|exact Hpow].
      change 0 with (inject_Z 0). rewrite <- Zlt_Qlt. lia. }
    unfold round_to_double.
    destruct (inject_Z m * 2 ^ e) as [p q] eqn:Ex.
    unfold Qlt in Hpos. simpl in Hpos. destruct p as [|p|p]; try lia.
    cbn [Qnum]. rewrite Hexp.
    assert (Ey : (Z.pos p # q) / 2 ^ e == inject_Z m).
    { rewrite <- Ex. field. intros H0. rewrite H0 in Hpow. discriminate. }
    rewrite (Hproper _ _ Ey), Hfix. rewrite <- Ex. reflexivity.
Qed.

Lemma to_double_idempotent x : 0 <= x → to_double (to_double x) == to_double x.
Proof.
  apply round_to_double_double; [exact Qfloor_comp | exact Qfloor_Z].
Qed.

Lemma binary64_to_double x : 0 <= x → binary64 (to_double x) == to_double x.
Proof.
  apply round_to_double_double; [exact round_half_even_comp | exact round_half_even_Z].
Qed.

End Doubles.

(** ** Count statements produced by the generator *)

(** *** Random integers *)

Section FloorScaled.

Local Open Scope Q_scope.

Lemma floor_scaled_range r n :
  0 <= r → r < 1 → (0 < n)%Z → (0 <= floor_scaled r n < n)%Z.
Proof.
  intros H0 H1 Hn. unfold floor_scaled, random_times.
  destruct (to_double_unit r H0 H1) as [Hr0 Hr1].
  set (r' := to_double r) in *.
  assert (HN : 1 <= inject_Z n).
  { change 1 with (inject_Z 1). rewrite <- Zle_Qle. lia. }
  assert (Hx0 : 0 <= r' * inject_Z n).
  { apply Qmult_le_0_compat; [exact Hr0 | Lqa.lra]. }
  assert (Hx1 : r' * inject_Z n <= (1 - unit_roundoff) * inject_Z n).
  { apply Qmult_le_compat_r; [exact Hr1 | Lqa.lra]. }
  set (x := r' * inject_Z n) in *.
  split; [apply Qfloor_nonneg, binary64_nonneg; exact Hx0|].
  apply Qfloor_lt_Z.
  destruct (Qlt_le_dec 0 x) as [Hpos|Hz].
  - destruct (binary64_near x Hpos) as [[_ Hup]|[_ Hup]]; unfold unit_roundoff in *; Lqa.lra.
  - unfold binary64. rewrite round_to_double_0; Lqa.lra.
Qed.

Lemma floor_scaled_near r n i :
  0 <= r → (0 <= n)%Z → floor_scaled r n = i →
  inject_Z i <= (1 + unit_roundoff) * (to_double r * inject_Z n) ∧
  (1 - unit_roundoff) * (to_double r * inject_Z n) < inject_Z (i + 1).
Proof.
  intros H0 Hn <-. unfold floor_scaled, random_times.
  assert (Hr0 : 0 <= to_double r).
  { apply round_to_double_nonneg; [apply Qfloor_nonneg | exact H0]. }
  set (r' := to_double r) in *.
  assert (HN : 0 <= inject_Z n).
  { change 0 with (inject_Z 0). rewrite <- Zle_Qle. lia. }
  assert (Hx0 : 0 <= r' * inject_Z n) by (apply Qmult_le_0_compat; assumption).
  set (x := r' * inject_Z n) in *.
  pose proof (Qfloor_le (binary64 x)) as Hlo.
  pose proof (Qlt_floor (binary64 x)) as Hhi.
  destruct (Qlt_le_dec 0 x) as [Hpos|Hz].
  - destruct (binary64_near x Hpos) as [[Hdown Hup]|[Hx1 Hup]]; unfold unit_roundoff in *.
    + split; Lqa.lra.
    + assert (E : Qfloor (binary64 x) = 0%Z).
      { pose proof (Qfloor_nonneg _ (binary64_nonneg x Hx0)).
        pose proof (Qfloor_lt_Z (binary64 x) 1 Hup). lia. }
      rewrite E. change (inject_Z 0) with 0. change (inject_Z (0 + 1)) with 1.
      split; Lqa.lra.
  - unfold binary64. rewrite round_to_double_0 by Lqa.lra.
    change (Qfloor 0) with 0%Z. change (inject_Z 0) with 0. change (inject_Z (0 + 1)) with 1.
    unfold unit_roundoff. split; Lqa.lra.
Qed.

End FloorScaled.

(** *** Bit counts of small numbers *)

Lemma naive_popcount_zero n : naive_popcount n 0 = 0.
Proof. induction n as [|n IH]; [reflexivity|]. simpl. exact IH. Qed.

Lemma naive_popcount_small n m x :
  0 <= x < 2 ^ Z.of_nat n →
  naive_popcount (n + m) x = naive_popcount n x.
Proof.
  intros Hx. rewrite naive_popcount_app, Z.div_small by assumption.
  rewrite naive_popcount_zero. lia.
Qed.

Lemma popcount_small (n : nat) x :
  (n <= 32)%nat → 0 <= x < 2 ^ Z.of_nat n →
  popcount x = naive_popcount n x.
Proof.
  intros Hn Hx.
  assert (2 ^ Z.of_nat n <= 2 ^ 32) by (apply Z.pow_le_mono_r; lia).
  rewrite popcount_toUint32, toUint32_small by lia.
  replace 32%nat with (n + (32 - n))%nat by lia.
  apply naive_popcount_small. assumption.
Qed.

(** *** Sets of counts *)

Lemma some_bit_set m x :
  0 < x < 2 ^ m → ∃ k, 0 <= k < m ∧ Z.testbit x k = true.
Proof.
  intros Hx. exists (Z.log2 x). split.
  - split; [apply Z.log2_nonneg|]. apply Z.log2_lt_pow2; lia.
  - apply Z.bit_log2. lia.
Qed.

Lemma complement_testbit m x k :
  0 <= k < m → Z.testbit (2 ^ m - 1 - x) k = negb (Z.testbit x k).
Proof.
  intros Hk.
  replace (2 ^ m - 1 - x) with (Z.lnot x + 1 * 2 ^ m) by (unfold Z.lnot; lia).
  rewrite <- (Z.mod_pow2_bits_low _ m k) by lia.
  rewrite Z.mod_add by (apply Z.pow_nonzero; lia).
  rewrite Z.mod_pow2_bits_low by lia. apply Z.lnot_spec. lia.
Qed.

Lemma some_bit_clear m x :
  0 <= x < 2 ^ m - 1 → ∃ k, 0 <= k < m ∧ Z.testbit x k = false.
Proof.
  intros Hx.
  destruct (some_bit_set m (2 ^ m - 1 - x)) as (k & Hk & Hbit); [lia|].
  exists k. split; [assumption|].
  rewrite complement_testbit in Hbit by assumption.
  destruct (Z.testbit x k); [discriminate | reflexivity].
Qed.

(** *** Sub-masks with a prescribed number of bits *)

Lemma land_double x t : Z.land x (2 * t) = 2 * Z.land (x / 2) t.
Proof.
  apply Z.bits_inj'. intros i Hi.
  rewrite Z.land_spec.
  destruct (Z.eq_dec i 0) as [->|Hne].
  - rewrite !Z.testbit_even_0. apply andb_false_r.
  - replace i with (Z.succ (i - 1)) by lia.
    rewrite !Z.double_bits_succ, Z.land_spec.
    rewrite Z.div2_bits by lia. reflexivity.
Qed.

Lemma submask_with_count n : ∀ x k,
  0 <= x < 2 ^ Z.of_nat n → 0 <= k <= naive_popcount n x →
  ∃ t, 0 <= t < 2 ^ Z.of_nat n ∧ Z.land x t = t ∧ naive_popcount n t = k.
Proof.
  induction n as [|n IH]; intros x k Hx Hk.
  - simpl in *. exists 0. repeat split; try lia. apply Z.land_0_r.
  - rewrite Nat2Z.inj_succ, Z.pow_succ_r in * by lia.
    cbn [naive_popcount] in Hk.
    pose proof (Z.mod_pos_bound x 2 ltac:(lia)) as Hbit.
    pose proof (Z.div_mod x 2 ltac:(lia)) as Hdm.
    assert (Hhalf : 0 <= x / 2 < 2 ^ Z.of_nat n).
    { split; [apply Z.div_pos; lia | apply Z.div_lt_upper_bound; lia]. }
    destruct (Z_le_gt_dec k (naive_popcount n (x / 2))) as [Hle|Hgt].
    + destruct (IH (x / 2) k Hhalf ltac:(lia)) as (t & Ht & Hsub & Hcnt).
      exists (2 * t). repeat split; try lia.
      * rewrite land_double, Hsub. reflexivity.
      * cbn [naive_popcount].
        rewrite (Z.mul_comm 2 t), Z.mod_mul, Z.div_mul by lia. lia.
    + exists x. repeat split; try lia.
      * apply Z.land_diag.
      * cbn [naive_popcount]. lia.
Qed.

(** The assignment in which exactly the members of [t] are liars. *)
Lemma liars_exactly (n : Z) x t :
  0 <= n <= 30 → 0 <= x < 2 ^ n → 0 <= t < 2 ^ n → Z.land x t = t →
  JS.and x (JS.not (2 ^ n - 1 - t)) = t.
Proof.
  intros Hn Hx Ht Hsub.
  assert (Hpow : 2 ^ n <= 2 ^ 30) by (apply Z.pow_le_mono_r; lia).
  unfold JS.and, JS.not.
  rewrite (toInt32_small (2 ^ n - 1 - t)) by lia.
  rewrite (toInt32_small x) by lia.
  rewrite toInt32_small by (unfold Z.lnot; lia).
  apply Z.bits_inj'. intros i Hi. rewrite Z.land_spec, Z.lnot_spec by lia.
  destruct (Z_lt_le_dec i n) as [Hlt|Hge].
  - rewrite complement_testbit, negb_involutive by lia.
    rewrite <- Hsub at 2. rewrite Z.land_spec.
    destruct (Z.testbit x i), (Z.testbit t i); reflexivity.
  - assert (Hxi : Z.testbit x i = false).
    { destruct (Z.eq_dec x 0) as [->|]; [apply Z.bits_0|].
      apply Z.bits_above_log2; [lia|].
      assert (Z.log2 x < n) by (apply Z.log2_lt_pow2; lia). lia. }
    assert (Hti : Z.testbit t i = false).
    { destruct (Z.eq_dec t 0) as [->|]; [apply Z.bits_0|].
      apply Z.bits_above_log2; [lia|].
      assert (Z.log2 t < n) by (apply Z.log2_lt_pow2; lia). lia. }
    rewrite Hxi, Hti. reflexivity.
Qed.

Section CountStatements.
Variable rnd : nat → Q.

Lemma TypeCountStatement_random_subjectBits_inv fuel : ∀ context s subjectBits s',
  TypeCountStatement_random_subjectBits rnd fuel context s = (Ok subjectBits, s') →
  contexts s' = contexts s ∧ 1 < popcount subjectBits ∧
  ∃ i, subjectBits = floor_scaled (rnd i) (JS.shl 1 (personCount (contexts s !!! context))).
Proof.
  induction fuel as [|fuel IH]; intros context s subjectBits s' H; [discriminate|].
  cbn [TypeCountStatement_random_subjectBits] in H.
  rewrite bind_Math_random, bind_get_store in H. cbn [contexts] in H.
  destruct (Z.leb_spec (popcount (floor_scaled (rnd (drawn s))
                                    (JS.shl 1 (personCount (contexts s !!! context))))) 1).
  - apply IH in H. exact H.
  - injection H as <- <-. repeat split; [lia|]. eauto.
Qed.

Lemma TypeCountStatement_random_inv fuel context s st s' :
  TypeCountStatement_random rnd fuel context s = (Ok st, s') →
  contexts s' = contexts s ∧
  ∃ i j,
    let subjectBits :=
      floor_scaled (rnd i) (JS.shl 1 (personCount (contexts s !!! context))) in
    1 < popcount subjectBits ∧
    st = TypeCountStatement context subjectBits
           (floor_scaled (rnd j) (JS.shl 1 (popcount subjectBits + 1) - 2) + 1).
Proof.
  unfold TypeCountStatement_random. intros H. bind_inv H.
  apply TypeCountStatement_random_subjectBits_inv in E as (Hs & Hpop & i & ->).
  rewrite bind_Math_random in H. injection H as <- <-.
  split; [assumption|]. exists i, (drawn s0). split; [assumption | reflexivity].
Qed.

End CountStatements.

Lemma isTrueOn_not s a :
  isTrueOn (BasicLogicalNotStatement s) a = negb (isTrueOn s a).
Proof. reflexivity. Qed.

Lemma isTautology_false h st a :
  a ∈ assignments (personCount (h !!! context_of st)) →
  isTrueOn st a = false → isTautology h st = false.
Proof.
  intros Ha Hf. unfold isTautology.
  destruct (forallb _ _) eqn:E; [|reflexivity].
  rewrite forallb_forall in E. rewrite E in Hf; [discriminate|].
  apply list_elem_of_In. assumption.
Qed.

Lemma count_statement_informative h c N subjectBits liarCountBits :
  2 <= N <= 29 →
  personCount (h !!! c) = N →
  0 <= subjectBits < 2 ^ N →
  1 < popcount subjectBits →
  1 <= liarCountBits <= 2 ^ (popcount subjectBits + 1) - 2 →
  informative_count_statement h N (TypeCountStatement c subjectBits liarCountBits).
Proof.
  intros HN Hpc Hsb Hpop HL.
  remember (popcount subjectBits) as sc eqn:Esc.
  assert (Hpow : 2 ^ N <= 2 ^ 29) by (apply Z.pow_le_mono_r; lia).
  assert (Hnat : 2 ^ N = 2 ^ Z.of_nat (Z.to_nat N)) by (rewrite Z2Nat.id; lia).
  assert (Hsc : sc = naive_popcount (Z.to_nat N) subjectBits).
  { rewrite Esc. apply popcount_small; lia. }
  assert (Hscle : sc <= N).
  { rewrite Hsc. pose proof (naive_popcount_range (Z.to_nat N) subjectBits). lia. }
  (* every count is realised *)
  assert (Hreal : ∀ k, 0 <= k <= sc →
            ∃ a, 0 <= a < 2 ^ N ∧ popcount (JS.and subjectBits (JS.not a)) = k).
  { intros k Hk.
    destruct (submask_with_count (Z.to_nat N) subjectBits k) as (t & Ht & Hsub & Hcnt);
      [lia | lia |].
    exists (2 ^ N - 1 - t). split; [lia|].
    rewrite liars_exactly by lia.
    rewrite <- Hcnt. apply popcount_small; lia. }
  (* the mask contains a count and misses a count *)
  assert (Hpow1 : 2 ^ (sc + 1) = 2 * 2 ^ sc) by (rewrite Z.pow_add_r by lia; change (2 ^ 1) with 2; lia).
  destruct (some_bit_set (sc + 1) liarCountBits) as (k1 & Hk1 & Hin); [lia|].
  destruct (some_bit_clear (sc + 1) liarCountBits) as (k0 & Hk0 & Hout); [lia|].
  assert (Heval : ∀ a k, popcount (JS.and subjectBits (JS.not a)) = k → 0 <= k <= sc →
            isTrueOn (TypeCountStatement c subjectBits liarCountBits) a
            = Z.testbit liarCountBits k).
  { intros a k <- Hk. apply TypeCountStatement_isTrueOn_bit. lia. }
  destruct (Hreal k1 ltac:(lia)) as (a1 & Ha1 & Hc1).
  destruct (Hreal k0 ltac:(lia)) as (a0 & Ha0 & Hc0).
  assert (Ht : isTrueOn (TypeCountStatement c subjectBits liarCountBits) a1 = true)
    by (rewrite (Heval a1 k1) by (assumption || lia); assumption).
  assert (Hf : isTrueOn (TypeCountStatement c subjectBits liarCountBits) a0 = false)
    by (rewrite (Heval a0 k0) by (assumption || lia); assumption).
  exists c, subjectBits, liarCountBits.
  split; [reflexivity|]. rewrite <- Esc. split; [lia|].
  split; [exists k1; split; [lia | assumption]|].
  split; [exists k0; split; [lia | assumption]|].
  split; [assumption|].
  split; [exists a1; split; assumption|].
  split; [exists a0; split; assumption|].
  split.
  - apply (isTautology_false h _ a0); [|assumption].
    cbn [context_of]. rewrite Hpc. apply elem_of_assignments; lia.
  - apply (isTautology_false h _ a1).
    + cbn [context_of]. rewrite Hpc. apply elem_of_assignments; lia.
    + rewrite isTrueOn_not, Ht. reflexivity.
Qed.

(** C10, as amended.  For a person count between 2 and 29, every
    [TypeCountStatement] produced by [TypeCountStatement.random] has at
    least two subjects; its [liarCountBits] includes one and excludes one
    of the counts 0 .. [popcount subjectBits]; every such count is the
    number of liars among the subjects under some assignment in [0, 2^N);
    so the statement is true on some assignment and false on another, and
    neither it nor its negation is a tautology. *)
Theorem TypeCountStatement_random_informative rnd fuel context s st s' :
  valid_draws rnd →
  2 <= personCount (contexts s !!! context) <= 29 →
  TypeCountStatement_random rnd fuel context s = (Ok st, s') →
  informative_count_statement (contexts s') (personCount (contexts s !!! context)) st.
Proof.
  intros Hrnd HN H.
  apply TypeCountStatement_random_inv in H as (Hs & i & j & Hpop & ->).
  set (N := personCount (contexts s !!! context)) in *.
  rewrite shl_one in * by lia.
  assert (Hpow : 0 < 2 ^ N) by (apply Z.pow_pos_nonneg; lia).
  assert (Hpow' : 2 ^ N <= 2 ^ 29) by (apply Z.pow_le_mono_r; lia).
  destruct (Hrnd i) as [Hi0 Hi1]. destruct (Hrnd j) as [Hj0 Hj1].
  pose proof (floor_scaled_range (rnd i) (2 ^ N) Hi0 Hi1 Hpow) as Hsb.
  set (subjectBits := floor_scaled (rnd i) (2 ^ N)) in *.
  assert (Hsc : popcount subjectBits <= N).
  { rewrite (popcount_small (Z.to_nat N)) by (rewrite ?Z2Nat.id; lia).
    pose proof (naive_popcount_range (Z.to_nat N) subjectBits). lia. }
  rewrite shl_one by lia.
  assert (Hpow2 : 2 ^ 2 <= 2 ^ popcount subjectBits) by (apply Z.pow_le_mono_r; lia).
  assert (Hpow3 : 2 ^ (popcount subjectBits + 1) = 2 * 2 ^ popcount subjectBits)
    by (rewrite Z.pow_add_r by lia; change (2 ^ 1) with 2; lia).
  pose proof (floor_scaled_range (rnd j) (2 ^ (popcount subjectBits + 1) - 2)
                Hj0 Hj1 ltac:(lia)) as HL.
  apply count_statement_informative; try assumption; try lia.
  rewrite Hs. reflexivity.
Qed.

Lemma replay_valid (draws : list Q) :
  Forall (λ r, (0 <= r)%Q ∧ (r < 1)%Q) draws → valid_draws (replay draws).
Proof.
  intros H n. unfold replay.
  destruct (nth_in_or_default n draws 0%Q) as [Hin | ->].
  - rewrite Forall_forall in H. apply H, list_elem_of_In, Hin.
  - split; [apply Qle_refl | reflexivity].
Qed.

Lemma TypeCountStatement_random_informative_witness :
  valid_draws (replay draws_count) ∧
  2 <= personCount (contexts two_people !!! 0%nat) <= 29 ∧
  ∃ st s',
    TypeCountStatement_random (replay draws_count) 3 0%nat two_people = (Ok st, s') ∧
    informative_count_statement (contexts s')
      (personCount (contexts two_people !!! 0%nat)) st.
Proof.
  assert (Hvalid : valid_draws (replay draws_count)).
  { apply replay_valid. repeat constructor; unfold Qle, Qlt; simpl; lia. }
  split; [exact Hvalid|]. split; [simpl; lia|].
  eexists _, _. split; [vm_compute; reflexivity|].
  apply (TypeCountStatement_random_informative (replay draws_count) 3 0%nat two_people).
  - exact Hvalid.
  - simpl. lia.
  - vm_compute. reflexivity.
Defined.

(** C10 as stated fails for 30 people.  When all 30 are subjects,
    [1 << 31] is negative, and a draw close to 1 yields a mask that, as an
    int32, has all of the bits 0 to 30 set: no count is excluded and the
    statement is true on every assignment. *)
Lemma TypeCountStatement_random_30_people :
  let st := TypeCountStatement 0%nat (2 ^ 30 - 1) (- 2 ^ 31 - 1) in
  valid_draws (replay draws_count30) ∧
  personCount (contexts thirty_people !!! 0%nat) = 30 ∧
  (∃ s', TypeCountStatement_random (replay draws_count30) 3 0%nat thirty_people
         = (Ok st, s')) ∧
  popcount (2 ^ 30 - 1) = 30 ∧
  (∀ k, 0 <= k <= 30 → Z.testbit (- 2 ^ 31 - 1) k = true) ∧
  (∀ a, isTrueOn st a = true) ∧
  isTautology (contexts thirty_people) st = true.
Proof.
  intros st.
  assert (Hall : ∀ a, isTrueOn st a = true).
  { intros a. unfold st. cbn [isTrueOn]. rewrite bit_test.
    change (JS.toInt32 (- 2 ^ 31 - 1)) with (Z.ones 31).
    set (x := JS.and (2 ^ 30 - 1) (JS.not a)).
    assert (Hx : 0 <= x < 2 ^ Z.of_nat 30).
    { unfold x, JS.and. change (JS.toInt32 (2 ^ 30 - 1)) with (Z.ones 30).
      rewrite Z.land_comm, Z.land_ones by lia. apply Z.mod_pos_bound. lia. }
    rewrite (popcount_small 30) by (lia || assumption).
    pose proof (naive_popcount_range 30 x).
    rewrite Z.mod_small by lia. apply Z.ones_spec_low. lia. }
  split; [apply replay_valid; repeat constructor; unfold Qle, Qlt; simpl; lia|].
  split; [reflexivity|].
  split; [eexists; vm_compute; reflexivity|].
  split; [vm_compute; reflexivity|].
  split; [|split; [exact Hall|]].
  - intros k Hk. change (- 2 ^ 31 - 1) with (Z.lnot (2 ^ 31)).
    rewrite Z.lnot_spec, Z.pow2_bits_false by lia. reflexivity.
  - unfold isTautology. apply forallb_forall. intros a _. apply Hall.
Qed.

(** ** The puzzle assembler *)

Lemma prefix_lookup_total (h h' : store) c :
  h `prefix_of` h' → (c < length h)%nat → h' !!! c = h !!! c.
Proof.
  intros Hpre Hc.
  destruct (lookup_lt_is_Some_2 h c Hc) as [x Hx].
  rewrite (list_lookup_total_correct h c x Hx).
  apply list_lookup_total_correct.
  rewrite <- Hx. symmetry. apply prefix_lookup_lt; assumption.
Qed.

Lemma sentence_stable (h h' : store) st :
  h `prefix_of` h' → refs_below (length h) st → sentence h' st = sentence h st.
Proof.
  intros Hpre. induction st; cbn [sentence refs_below]; intros Hrefs;
    try reflexivity;
    try (rewrite (prefix_lookup_total h h') by tauto; reflexivity);
    destruct Hrefs as (Hc & H1 & H2);
    rewrite (prefix_lookup_total h h'), IHst1, IHst2 by assumption; reflexivity.
Qed.

Lemma accepted_spec minL maxL p :
  accepted minL maxL p = true ↔
  length (solutions p) = 1%nat ∧ within_band minL maxL (sumOfSentenceLengths (sentences p)).
Proof.
  unfold accepted, within_band. rewrite !andb_true_iff, Nat.eqb_eq, Qle_bool_iff.
  destruct maxL; [rewrite Qle_bool_iff|]; tauto.
Qed.

Lemma for_each_length {A B} (f : A → M B) : ∀ l s bs s',
  for_each f l s = (Ok bs, s') → length bs = length l.
Proof.
  induction l as [|a l IH]; intros s bs s' H; cbn [for_each] in H.
  - prim_inv H. reflexivity.
  - bind_inv H. bind_inv H. prim_inv H. simpl. f_equal. eapply IH; eassumption.
Qed.

Lemma Forall2_fst_snd {A B} (P : A → B → Prop) (l : list (A * B)) :
  Forall (λ x, P (fst x) (snd x)) l → Forall2 P (map fst l) (map snd l).
Proof. induction 1; simpl; constructor; assumption. Qed.

Section AssemblerSpec.
Variable rnd : nat → Q.

Lemma speak_spec fuel context s st sen s' :
  speak rnd fuel context s = (Ok (st, sen), s') →
  contexts s `prefix_of` contexts s' ∧
  sentence (contexts s') st = Ok sen ∧
  ((context < length (contexts s))%nat → refs_below (length (contexts s')) st) ∧
  randomStatement rnd fuel context Infinity s = (Ok st, s').
Proof.
  unfold speak. intros H. bind_inv H. rewrite bind_get_store in H.
  unfold lift, bind in H.
  destruct (sentence (contexts s0) a) as [sen'|e|] eqn:Es; try discriminate.
  injection H as <- <- <-.
  pose proof (randomStatement_post rnd fuel (contexts s) context Infinity s) as P.
  rewrite E in P. destruct P as [(Hpre & _ & _ & _ & Hrefs) _];
    [reflexivity | discriminate |].
  repeat split; eauto.
Qed.

Lemma regenerate_one_spec fuel statementContexts N p s p' s' :
  regenerate_one rnd fuel statementContexts N p s = (Ok p', s') →
  puzzle_ok s statementContexts p →
  puzzle_ok s' statementContexts p' ∧
  ∃ i context st sen,
    floor_scaled (rnd (drawn s)) N = i ∧ 0 <= i ∧
    (Z.to_nat i < length (statements p))%nat ∧
    statementContexts !! Z.to_nat i = Some context ∧
    randomStatement rnd fuel context Infinity
      (mkState (contexts s) (S (drawn s))) = (Ok st, s') ∧
    sentence (contexts s') st = Ok sen ∧
    p' = mkPuzzle (<[Z.to_nat i := st]> (statements p))
                  (<[Z.to_nat i := sen]> (sentences p))
                  (solutionsTo (contexts s') (<[Z.to_nat i := st]> (statements p))).
Proof.
  unfold regenerate_one. rewrite bind_Math_random.
  set (i := floor_scaled (rnd (drawn s)) N).
  set (s1 := mkState (contexts s) (S (drawn s))).
  intros H (Hsol & Hsen & Hlen & Hctx).
  unfold array_get in H. destruct (Z.ltb_spec i 0) as [|Hi]; [discriminate|].
  destruct (statementContexts !! Z.to_nat i) as [context|] eqn:Ec; [|discriminate].
  bind_inv H. destruct a as [st sen]. rewrite bind_get_store in H.
  injection H as <- <-. cbn [fst snd].
  apply speak_spec in E as (Hpre & Hrender & Hrefs & Hrun).
  cbn [contexts s1] in Hpre, Hrefs.
  assert (Hc : (context < length (contexts s))%nat).
  { rewrite Forall_forall in Hctx. apply Hctx.
    eapply list_elem_of_lookup_2; eauto. }
  pose proof (prefix_length _ _ Hpre) as Hgrow.
  split.
  - split; [reflexivity|]. cbn [statements sentences]. split; [|split].
    + apply Forall2_insert; [|split; [assumption | apply Hrefs; assumption]].
      eapply Forall2_impl; [exact Hsen|]. intros st' sen' [Hr Hb]. split.
      * rewrite (sentence_stable (contexts s)); assumption.
      * eapply refs_below_mono; [|exact Hb]. assumption.
    + rewrite length_insert. assumption.
    + eapply Forall_impl; [exact Hctx|]. simpl. intros c Hlt. lia.
  - exists i, context, st, sen. repeat split; try assumption.
    rewrite Hlen. eapply lookup_lt_Some; eauto.
Qed.

Lemma regenerate_spec fuel statementContexts N minL maxL : ∀ p s pf sf,
  regenerate rnd fuel statementContexts N minL maxL p s = (Ok pf, sf) →
  puzzle_ok s statementContexts p →
  puzzle_ok sf statementContexts pf ∧ accepted minL maxL pf = true.
Proof.
  induction fuel as [|fuel IH]; intros p s pf sf H Hok; [discriminate|].
  cbn [regenerate] in H.
  destruct (accepted minL maxL p) eqn:Hacc.
  - prim_inv H. split; assumption.
  - bind_inv H. apply regenerate_one_spec in E as [Hok' _]; [|assumption].
    eapply IH; eauto.
Qed.

Lemma regenerate_run fuel statementContexts N minL maxL :
  valid_draws rnd →
  length statementContexts = Z.to_nat N →
  ∀ p s pf sf,
  regenerate rnd fuel statementContexts N minL maxL p s = (Ok pf, sf) →
  puzzle_ok s statementContexts p →
  assembler_run rnd statementContexts N minL maxL p s pf sf.
Proof.
  intros Hrnd HN.
  induction fuel as [|fuel IH]; intros p s pf sf H Hok; [discriminate|].
  cbn [regenerate] in H.
  destruct (accepted minL maxL p) eqn:Hacc.
  - prim_inv H. apply accepted_spec in Hacc as [? ?]. apply run_accept; assumption.
  - bind_inv H.
    destruct (regenerate_one_spec _ _ _ _ _ _ _ E Hok)
      as (Hok' & i & context & st & sen & Hi & Hi0 & Hlt & Hc & Hrun & Hsen & ->).
    pose proof (lookup_lt_Some _ _ _ Hc) as HiN. rewrite HN in HiN.
    destruct (floor_scaled_near _ N _ (proj1 (Hrnd (drawn s))) ltac:(lia) Hi)
      as [Hlow Hhigh].
    eapply run_regenerate; eauto; [|lia].
    rewrite <- accepted_spec, Hacc. discriminate.
Qed.

Lemma for_each_new_context (f : Z → LogicalStatementContext) : ∀ l s cs s',
  for_each (λ i, new_context (f i)) l s = (Ok cs, s') →
  contexts s `prefix_of` contexts s' ∧
  Forall (λ c, (c < length (contexts s'))%nat) cs ∧ drawn s' = drawn s.
Proof.
  induction l as [|a l IH]; intros s cs s' H; cbn [for_each] in H.
  - prim_inv H. repeat split; [reflexivity | constructor].
  - bind_inv H. bind_inv H. prim_inv H.
    unfold new_context in E. injection E as <- <-.
    apply IH in E0 as (Hpre & Hall & Hd). cbn [contexts drawn] in *.
    split; [eapply prefix_app_l; exact Hpre|]. split; [|assumption].
    constructor; [|assumption].
    apply prefix_length in Hpre. rewrite length_app in Hpre. simpl in Hpre. lia.
Qed.

Lemma for_each_speak fuel : ∀ cs s spoken s',
  for_each (speak rnd fuel) cs s = (Ok spoken, s') →
  Forall (λ c, (c < length (contexts s))%nat) cs →
  contexts s `prefix_of` contexts s' ∧
  length spoken = length cs ∧
  Forall (λ x, sentence (contexts s') (fst x) = Ok (snd x)
               ∧ refs_below (length (contexts s')) (fst x)) spoken.
Proof.
  induction cs as [|c cs IH]; intros s spoken s' H Hcs; cbn [for_each] in H.
  - prim_inv H. repeat split; [reflexivity | constructor].
  - bind_inv H. bind_inv H. prim_inv H. destruct a as [st sen].
    apply Forall_cons in Hcs as [Hc Hcs].
    apply speak_spec in E as (Hpre1 & Hsen & Hrefs & _).
    pose proof (prefix_length _ _ Hpre1) as Hgrow.
    apply IH in E0 as (Hpre2 & Hlen & Hall).
    2:{ eapply Forall_impl; [exact Hcs|]. simpl. intros; lia. }
    pose proof (prefix_length _ _ Hpre2) as Hgrow2.
    split; [etrans; eassumption|]. split; [simpl; lia|].
    constructor; [|assumption]. cbn [fst snd]. split.
    + rewrite (sentence_stable (contexts s0)); auto.
    + eapply refs_below_mono; [|apply Hrefs; assumption]. assumption.
Qed.

Lemma initial_puzzle_ok fuel N cf s statementContexts p0 s0 :
  initial_puzzle rnd fuel N cf s = (Ok (statementContexts, p0), s0) →
  puzzle_ok s0 statementContexts p0.
Proof.
  unfold initial_puzzle. intros H. bind_inv H. bind_inv H.
  rewrite bind_get_store in H. apply ret_Ok in H as [H ->].
  injection H as -> ->.
  apply for_each_new_context in E as (_ & Hcs & _).
  apply for_each_speak in E0 as (Hpre & Hlen & Hall); [|assumption].
  split; [reflexivity|]. cbn [statements sentences]. split; [|split].
  - apply Forall2_fst_snd. assumption.
  - rewrite length_map. assumption.
  - apply prefix_length in Hpre.
    eapply Forall_impl; [exact Hcs|]. simpl. intros; lia.
Qed.

Lemma initial_puzzle_length fuel N cf s statementContexts p0 s0 :
  initial_puzzle rnd fuel N cf s = (Ok (statementContexts, p0), s0) →
  length statementContexts = Z.to_nat N.
Proof.
  unfold initial_puzzle. intros H. bind_inv H. bind_inv H.
  rewrite bind_get_store in H. apply ret_Ok in H as [H ->].
  injection H as -> ->.
  rewrite (for_each_length _ _ _ _ _ E). apply length_seqZ.
Qed.

End AssemblerSpec.

(** C5.  With the values of [Math.random()] in [0, 1): whenever the
    regeneration loop ends, the solver returns exactly one assignment for
    the final statements and the lengths of their rendered sentences add
    up to a value within [minSentenceLength, maxSentenceLength]; and the
    loop has run as the specification says: every iteration that does not
    accept draws one speaker index [i] in [0, N) with a single call of
    [Math.random()], replaces the statement and the sentence at index [i]
    only, and solves again.  The index is the one that the value [r] of
    that call selects, [i <= r * N < i + 1], up to the rounding of the
    product to a double: [i <= (1 + 2^-53) * r * N] and
    [(1 - 2^-53) * r * N < i + 1], so that the draws selecting an index
    form an interval of length [1/N] up to that relative error. *)
Theorem generateButton_onclick_accepts rnd fuel N minL maxL cf s p s' :
  valid_draws rnd →
  generateButton_onclick rnd fuel N minL maxL cf s = (Ok p, s') →
  length (solutionsTo (contexts s') (statements p)) = 1%nat ∧
  (∃ rendered,
     Forall2 (λ st sen, sentence (contexts s') st = Ok sen) (statements p) rendered ∧
     within_band minL maxL (sumOfSentenceLengths rendered)) ∧
  ∃ statementContexts p0 s0,
    initial_puzzle rnd fuel N cf s = (Ok (statementContexts, p0), s0) ∧
    assembler_run rnd statementContexts N minL maxL p0 s0 p s'.
Proof.
  unfold generateButton_onclick. intros Hrnd H. bind_inv H.
  destruct a as [statementContexts p0].
  cbn [fst snd] in H.
  pose proof (initial_puzzle_ok rnd _ _ _ _ _ _ _ E) as Hok.
  pose proof (initial_puzzle_length rnd _ _ _ _ _ _ _ E) as HN.
  destruct (regenerate_spec rnd _ _ _ _ _ _ _ _ _ H Hok)
    as [(Hsol & Hsen & _ & _) Hacc].
  apply accepted_spec in Hacc as [Hone Hband].
  split; [rewrite <- Hsol; assumption|]. split.
  - exists (sentences p). split; [|assumption].
    eapply Forall2_impl; [exact Hsen|]. simpl. tauto.
  - exists statementContexts, p0, s0. split; [assumption|].
    eapply regenerate_run; eassumption.
Qed.

Lemma generateButton_onclick_accepts_witness :
  ∃ p s',
    valid_draws (replay draws_puzzle) ∧
    generateButton_onclick (replay draws_puzzle) 6 2 20 (AtMost 30) 1 (mkState [] 0)
    = (Ok p, s') ∧
    length (solutionsTo (contexts s') (statements p)) = 1%nat ∧
    (∃ rendered,
       Forall2 (λ st sen, sentence (contexts s') st = Ok sen) (statements p) rendered ∧
       within_band 20 (AtMost 30) (sumOfSentenceLengths rendered)) ∧
    ∃ statementContexts p0 s0,
      initial_puzzle (replay draws_puzzle) 6 2 1 (mkState [] 0)
      = (Ok (statementContexts, p0), s0) ∧
      assembler_run (replay draws_puzzle) statementContexts 2 20 (AtMost 30) p0 s0 p s'.
Proof.
  assert (Hvalid : valid_draws (replay draws_puzzle)).
  { apply replay_valid. repeat constructor; unfold Qle, Qlt; simpl; lia. }
  eexists _, _. split; [exact Hvalid|]. split; [vm_compute; reflexivity|].
  apply (generateButton_onclick_accepts (replay draws_puzzle) 6 2 20 (AtMost 30) 1 (mkState [] 0)).
  - exact Hvalid.
  - vm_compute. reflexivity.
Defined.

(** ** The target length band *)

Lemma Rpower_2_ge_1 x : (0 <= x)%R → (1 <= Rpower 2 x)%R.
Proof.
  intros Hx. rewrite <- (Rpower_O 2) by lra.
  apply Rle_Rpower; lra.
Qed.

Lemma interpolatedSentenceLength_mono N t t' :
  2 <= N → (0 <= t <= t')%R →
  (0 <= interpolatedSentenceLength N t <= interpolatedSentenceLength N t')%R.
Proof.
  intros HN Ht. unfold interpolatedSentenceLength.
  assert (HN' : (2 <= IZR N)%R) by (apply IZR_le; assumption).
  pose proof (Rpower_2_ge_1 (2 * t) ltac:(lra)) as H1.
  assert (H2 : (Rpower 2 (2 * t) <= Rpower 2 (2 * t'))%R)
    by (apply Rle_Rpower; lra).
  split.
  - assert (0 <= (Rpower 2 (2 * t) - 1) / 3 * (100 * (IZR N - 1) - 11 * IZR N))%R.
    { apply Rmult_le_pos; lra. }
    lra.
  - apply Rplus_le_compat_l, Rmult_le_compat_r; lra.
Qed.

(** C6.  For every person count from 2 to 8, the minimum target length
    does not decrease when the complexity selector grows from one value in
    0 .. 4 to another, and the maximum target length is infinite for
    selector 4 and finite for every selector below 4. *)
Theorem length_band_monotone N c c' :
  2 <= N <= 8 → 0 <= c <= c' → c' <= 4 →
  (minSentenceLength N c <= minSentenceLength N c')%R ∧
  maxSentenceLength N 4 = InfiniteLength ∧
  (c < 4 → ∃ x, maxSentenceLength N c = FiniteLength x).
Proof.
  intros HN Hc Hc'. split; [|split].
  - unfold minSentenceLength.
    assert (Hq : (0 <= IZR c / 5 <= IZR c' / 5)%R).
    { assert (0 <= IZR c)%R by (apply IZR_le; lia).
      assert (IZR c <= IZR c')%R by (apply IZR_le; lia). lra. }
    destruct (Z.eqb_spec c 0) as [->|Hc0], (Z.eqb_spec c' 0) as [->|Hc'0]; try lia.
    + lra.
    + destruct (interpolatedSentenceLength_mono N 0 (IZR c' / 5)) as [? ?];
        [lia | lra | lra].
    + apply interpolatedSentenceLength_mono; [lia | assumption].
  - reflexivity.
  - intros Hlt. unfold maxSentenceLength.
    destruct (Z.eqb_spec c 4); [lia|]. eauto.
Qed.

Lemma length_band_monotone_witness :
  2 <= 4 <= 8 ∧ 0 <= 1 <= 3 ∧ 3 <= 4 ∧
  (minSentenceLength 4 1 <= minSentenceLength 4 3)%R ∧
  maxSentenceLength 4 4 = InfiniteLength ∧
  (1 < 4 → ∃ x, maxSentenceLength 4 1 = FiniteLength x).
Proof.
  split; [lia|]. split; [lia|]. split; [lia|].
  apply (length_band_monotone 4 1 3); lia.
Defined.

(** *** The band in rounded arithmetic

    The monotonicity of the minimum needs of the arithmetic only that
    rounding is monotone and exact on integers, and that [Math.pow(2, x)]
    is monotone in [x] with [Math.pow(2, 0) = 1]. *)

Section RoundedBand.
Variable round : R → R.
Variable pow : R → R → R.
Hypothesis round_monotone : ∀ x y, (x <= y)%R → (round x <= round y)%R.
Hypothesis round_integer : ∀ z, - 2 ^ 53 <= z <= 2 ^ 53 → round (IZR z) = IZR z.
Hypothesis pow_monotone : ∀ x y, (x <= y)%R → (pow 2 x <= pow 2 y)%R.
Hypothesis pow_zero : pow 2 0 = 1%R.

Lemma round_nonneg x : (0 <= x)%R → (0 <= round x)%R.
Proof.
  intros Hx. rewrite <- (round_integer 0) by lia. apply round_monotone. assumption.
Qed.

Lemma interpolatedSentenceLength_rounded_mono N t t' :
  2 <= N <= 8 → (0 <= t <= t')%R →
  (0 <= interpolatedSentenceLength_rounded round pow N t
     <= interpolatedSentenceLength_rounded round pow N t')%R.
Proof.
  intros HN Ht. unfold interpolatedSentenceLength_rounded.
  replace (11 * IZR N)%R with (IZR (11 * N)) by (rewrite mult_IZR; reflexivity).
  replace (IZR N - 1)%R with (IZR (N - 1)) by (rewrite minus_IZR; reflexivity).
  rewrite (round_integer (11 * N)), (round_integer (N - 1)) by lia.
  replace (100 * IZR (N - 1))%R with (IZR (100 * (N - 1)))
    by (rewrite mult_IZR; reflexivity).
  rewrite (round_integer (100 * (N - 1))) by lia.
  replace (IZR (100 * (N - 1)) - IZR (11 * N))%R with (IZR (89 * N - 100))
    by (rewrite <- minus_IZR; f_equal; lia).
  rewrite (round_integer (89 * N - 100)) by lia.
  assert (Hstart : (0 <= IZR (11 * N))%R) by (apply IZR_le; lia).
  assert (Hwidth : (0 <= IZR (89 * N - 100))%R) by (apply IZR_le; lia).
  set (ip := λ t, round (round (pow 2 (round (2 * t)) - 1) / 3)).
  assert (Hip0 : ∀ u, (0 <= u)%R → (0 <= ip u)%R).
  { intros u Hu. unfold ip. apply round_nonneg.
    assert (0 <= round (pow 2 (round (2 * u)) - 1))%R; [|lra].
    apply round_nonneg.
    assert (pow 2 0 <= pow 2 (round (2 * u)))%R; [|lra].
    apply pow_monotone, round_nonneg. lra. }
  assert (Hip : (ip t <= ip t')%R).
  { unfold ip. apply round_monotone.
    assert (round (pow 2 (round (2 * t)) - 1)
            <= round (pow 2 (round (2 * t')) - 1))%R; [|lra].
    apply round_monotone.
    assert (pow 2 (round (2 * t)) <= pow 2 (round (2 * t')))%R; [|lra].
    apply pow_monotone, round_monotone. lra. }
  fold (ip t) (ip t'). split.
  - apply round_nonneg.
    assert (0 <= round (ip t * IZR (89 * N - 100)))%R; [|lra].
    apply round_nonneg, Rmult_le_pos; [apply Hip0; lra | assumption].
  - apply round_monotone, Rplus_le_compat_l, round_monotone.
    apply Rmult_le_compat_r; assumption.
Qed.

Lemma minSentenceLength_rounded_mono N c c' :
  2 <= N <= 8 → 0 <= c <= c' → c' <= 4 →
  (minSentenceLength_rounded round pow N c
   <= minSentenceLength_rounded round pow N c')%R.
Proof.
  intros HN Hc Hc'. unfold minSentenceLength_rounded.
  assert (Hq : (0 <= IZR c / 5 <= IZR c' / 5)%R).
  { assert (0 <= IZR c)%R by (apply IZR_le; lia).
    assert (IZR c <= IZR c')%R by (apply IZR_le; lia). lra. }
  assert (Hr : (0 <= round (IZR c / 5) <= round (IZR c' / 5))%R).
  { split; [apply round_nonneg | apply round_monotone]; lra. }
  destruct (Z.eqb_spec c 0) as [->|Hc0], (Z.eqb_spec c' 0) as [->|Hc'0]; try lia.
  - lra.
  - destruct (interpolatedSentenceLength_rounded_mono N 0 (round (IZR c' / 5)))
      as [? ?]; [lia | lra | lra].
  - apply interpolatedSentenceLength_rounded_mono; assumption.
Qed.
End RoundedBand.

Lemma interpolatedSentenceLength_exact N t :
  interpolatedSentenceLength_rounded (λ x, x) Rpower N t = interpolatedSentenceLength N t.
Proof. reflexivity. Qed.

(** * Further properties of the code *)

(** ** utility.js *)

Lemma repeated_element (l : list Z) :
  ¬ NoDup l → ∃ i j x, (i < j)%nat ∧ l !! i = Some x ∧ l !! j = Some x.
Proof.
  induction l as [|a l IH]; intros H.
  - destruct H. constructor.
  - destruct (decide (a ∈ l)) as [Hin|Hin].
    + apply list_elem_of_lookup in Hin as [k Hk].
      exists 0%nat, (S k), a. split; [lia|]. done.
    + destruct IH as (i & j & x & L & Hi & Hj).
      { intros Hl. apply H. by constructor. }
      exists (S i), (S j), x. split; [lia|]. done.
Qed.

(** X1.  [hasDuplicate(array)] returns [true] exactly when some value
    occurs at two different positions of the array. *)
Theorem hasDuplicate_true_iff (array : list Z) :
  hasDuplicate array = true ↔
  ∃ i j x, (i < j)%nat ∧ array !! i = Some x ∧ array !! j = Some x.
Proof.
  rewrite <- not_false_iff_true, hasDuplicate_false. split.
  - apply repeated_element.
  - intros (i & j & x & L & Hi & Hj) H.
    pose proof (proj1 (NoDup_alt array) H i j x Hi Hj). lia.
Qed.

(** *** The bit count of any integer *)

Lemma naive_popcount_count n : ∀ x k, 0 <= k →
  naive_popcount n (x / 2 ^ k)
  = Z.of_nat (length (filter (λ i, Z.testbit x i = true) (seqZ k (Z.of_nat n)))).
Proof.
  induction n as [|n IH]; intros x k Hk; [reflexivity|].
  rewrite seqZ_cons by lia.
  replace (Z.pred (Z.of_nat (S n))) with (Z.of_nat n) by lia.
  rewrite filter_cons. cbn [naive_popcount].
  rewrite Z.div_div by lia.
  replace (2 ^ k * 2) with (2 ^ Z.succ k) by (rewrite Z.pow_succ_r; lia).
  rewrite IH by lia.
  rewrite <- Z.testbit_spec' by lia.
  destruct (Z.testbit x k); simpl.
  - destruct (decide (true = true)); [|done]. cbn [length]. lia.
  - destruct (decide (false = true)); [done|]. lia.
Qed.

Lemma popcount_count x :
  popcount x = Z.of_nat (length (filter (λ i, Z.testbit x i = true) (seqZ 0 32))).
Proof.
  rewrite popcount_toUint32.
  rewrite <- (Z.div_1_r (JS.toUint32 x)).
  change 1 with (2 ^ 0). rewrite (naive_popcount_count 32 _ 0) by lia.
  change (Z.of_nat 32) with 32. f_equal. f_equal.
  (* bits below 32 are those of x *)
  assert (H : ∀ l, Forall (λ i, 0 <= i < 32) l →
                   filter (λ i, Z.testbit (JS.toUint32 x) i = true) l
                   = filter (λ i, Z.testbit x i = true) l).
  { induction l as [|i l IH]; intros Hl; [done|].
    apply Forall_cons in Hl as [Hi Hl].
    rewrite !filter_cons, IH by done.
    rewrite toUint32_testbit by lia.
    replace (i <? 32) with true by (symmetry; apply Z.ltb_lt; lia).
    reflexivity. }
  apply H. apply Forall_forall. intros i Hi. apply elem_of_seqZ in Hi. lia.
Qed.

Lemma length_filter_impl {A} (P Q : A → Prop) `{∀ x, Decision (P x)} `{∀ x, Decision (Q x)}
    (l : list A) :
  Forall (λ x, P x → Q x) l → (length (filter P l) ≤ length (filter Q l))%nat.
Proof.
  induction 1 as [|x l Hx Hl IH]; [done|].
  rewrite !filter_cons.
  destruct (decide (P x)), (decide (Q x)); simpl; try lia. tauto.
Qed.

(** X2.  For every integer [x] of absolute value below [2^53], negative
    ones included, [popcount(x)] is the number of positions [i] in 0..31 at
    which the two's complement representation of [x] has a 1; it lies
    between 0 and 32.  (From [2^53] on the code rounds the difference of
    the first line.) *)
Theorem popcount_bits x :
  - 2 ^ 53 < x < 2 ^ 53 →
  popcount x = Z.of_nat (length (filter (λ i, Z.testbit x i = true) (seqZ 0 32))) ∧
  0 <= popcount x <= 32.
Proof.
  intros _. split; [apply popcount_count | apply popcount_range].
Qed.

Lemma popcount_bits_witness :
  - 2 ^ 53 < -6 < 2 ^ 53 ∧
  popcount (-6) = Z.of_nat (length (filter (λ i, Z.testbit (-6) i = true) (seqZ 0 32))) ∧
  0 <= popcount (-6) <= 32.
Proof.
  split; [lia|]. apply (popcount_bits (-6)). lia.
Defined.

Lemma and_testbit x y i :
  0 <= i < 32 → Z.testbit (JS.and x y) i = Z.testbit x i && Z.testbit y i.
Proof.
  intros Hi. unfold JS.and. rewrite Z.land_spec, !toInt32_testbit by lia. reflexivity.
Qed.

(** X3.  The number of liars that [TypeCountStatement.isTrueOn] counts,
    [popcount(subjectBits & ~peopleTypeBits)], never exceeds the number of
    subjects [popcount(subjectBits)], for every assignment and every
    [subjectBits] of absolute value below [2^53]. *)
Theorem liarCount_le_subjectCount subjectBits peopleTypeBits :
  - 2 ^ 53 < subjectBits < 2 ^ 53 →
  0 <= popcount (JS.and subjectBits (JS.not peopleTypeBits)) <= popcount subjectBits.
Proof.
  intros _. split; [apply popcount_range|].
  rewrite !popcount_count. apply inj_le, length_filter_impl.
  apply Forall_forall. intros i Hi. apply elem_of_seqZ in Hi.
  rewrite and_testbit by lia. intros H. apply andb_true_iff in H. tauto.
Qed.

Lemma liarCount_le_subjectCount_witness :
  - 2 ^ 53 < 7 < 2 ^ 53 ∧
  0 <= popcount (JS.and 7 (JS.not 2)) <= popcount 7.
Proof.
  split; [lia|]. apply (liarCount_le_subjectCount 7 2). lia.
Defined.

(** ** Truth, consistency, tautologies *)

(** X4.  For a subject index in 0..31, a [TrueFalseStatement] is true on
    an assignment exactly when bit [subjectIndex] of the assignment equals
    [isTruthTeller]. *)
Theorem TrueFalseStatement_isTrueOn c subjectIndex isTruthTeller a :
  0 <= subjectIndex < 32 →
  isTrueOn (TrueFalseStatement c subjectIndex isTruthTeller) a
  = eqb (Z.testbit a subjectIndex) isTruthTeller.
Proof.
  intros Hi. cbn [isTrueOn]. rewrite bit_test_low by lia. reflexivity.
Qed.

Lemma TrueFalseStatement_isTrueOn_witness :
  0 <= 1 < 32 ∧
  isTrueOn (TrueFalseStatement 0%nat 1 false) 5 = eqb (Z.testbit 5 1) false.
Proof.
  split; [lia|]. apply TrueFalseStatement_isTrueOn. lia.
Defined.

(** X5.  A statement by which the speaker describes the speaker is
    consistent with every assignment when it says "I am a truth-teller"
    and with no assignment when it says "I am a liar":
    [isConsistentOn] returns [isTruthTeller]. *)
Theorem own_type_statement h c isTruthTeller a :
  isConsistentOn h (TrueFalseStatement c (speakerIndex (h !!! c)) isTruthTeller) a
  = isTruthTeller.
Proof.
  unfold isConsistentOn. cbn [isTrueOn context_of].
  destruct (negb _), isTruthTeller; reflexivity.
Qed.

Lemma isTautology_true_iff h s :
  0 <= personCount (h !!! context_of s) <= 30 →
  isTautology h s = true ↔
  ∀ a, 0 <= a < 2 ^ personCount (h !!! context_of s) → isTrueOn s a = true.
Proof.
  intros HN. unfold isTautology. rewrite forallb_forall. split.
  - intros H a Ha. apply H, list_elem_of_In, elem_of_assignments; done.
  - intros H a Ha. apply H. apply list_elem_of_In, elem_of_assignments in Ha; done.
Qed.

Lemma isTautology_false_iff h s :
  0 <= personCount (h !!! context_of s) <= 30 →
  isTautology h s = false ↔
  ∃ a, 0 <= a < 2 ^ personCount (h !!! context_of s) ∧ isTrueOn s a = false.
Proof.
  intros HN. split.
  - unfold isTautology. intros H.
    assert (E : existsb (λ a, negb (isTrueOn s a))
                  (assignments (personCount (h !!! context_of s))) = true).
    { revert H. generalize (assignments (personCount (h !!! context_of s))).
      induction l as [|a l IH]; simpl; [done|].
      destruct (isTrueOn s a); simpl; [exact IH|done]. }
    apply existsb_exists in E as (a & Ha & E).
    exists a. apply list_elem_of_In, elem_of_assignments in Ha; [|done].
    split; [done|]. by apply negb_true_iff.
  - intros (a & Ha & E). eapply isTautology_false; [|exact E].
    by apply elem_of_assignments.
Qed.

Lemma implies_true_iff h s t :
  0 <= personCount (h !!! context_of s) <= 30 →
  implies h s t = true ↔
  ∀ a, 0 <= a < 2 ^ personCount (h !!! context_of s) →
       isTrueOn s a = true → isTrueOn t a = true.
Proof.
  intros HN. unfold implies. rewrite isTautology_true_iff by exact HN.
  cbn [context_of isTrueOn]. split.
  - intros H a Ha Hs. specialize (H a Ha). rewrite Hs in H. exact H.
  - intros H a Ha. specialize (H a Ha). destruct (isTrueOn s a); simpl; auto.
Qed.

Lemma implies_false_iff h s t :
  0 <= personCount (h !!! context_of s) <= 30 →
  implies h s t = false ↔
  ∃ a, 0 <= a < 2 ^ personCount (h !!! context_of s) ∧
       isTrueOn s a = true ∧ isTrueOn t a = false.
Proof.
  intros HN. unfold implies. rewrite isTautology_false_iff by exact HN.
  cbn [context_of isTrueOn]. split.
  - intros (a & Ha & E). exists a. split; [done|].
    destruct (isTrueOn s a), (isTrueOn t a); simpl in E; try done.
  - intros (a & Ha & Es & Et). exists a. split; [done|]. rewrite Es, Et. reflexivity.
Qed.

(** X6.  For a person count [N] between 0 and 30, [isTautology()] returns
    [true] exactly when the statement is true on every assignment in
    [0, 2^N), and [false] exactly when it is false on one of them. *)
Theorem isTautology_iff h s :
  0 <= personCount (h !!! context_of s) <= 30 →
  (isTautology h s = true ↔
   ∀ a, 0 <= a < 2 ^ personCount (h !!! context_of s) → isTrueOn s a = true) ∧
  (isTautology h s = false ↔
   ∃ a, 0 <= a < 2 ^ personCount (h !!! context_of s) ∧ isTrueOn s a = false).
Proof.
  intros HN. split; [by apply isTautology_true_iff | by apply isTautology_false_iff].
Qed.

Lemma isTautology_iff_witness :
  let h := two_speakers_store in
  let s := TrueFalseStatement 0%nat 1 true in
  0 <= personCount (h !!! context_of s) <= 30 ∧
  (isTautology h s = true ↔
   ∀ a, 0 <= a < 2 ^ personCount (h !!! context_of s) → isTrueOn s a = true) ∧
  (isTautology h s = false ↔
   ∃ a, 0 <= a < 2 ^ personCount (h !!! context_of s) ∧ isTrueOn s a = false).
Proof.
  split; [simpl; lia|].
  apply (isTautology_iff two_speakers_store (TrueFalseStatement 0%nat 1 true)).
  simpl; lia.
Defined.

(** X7.  For a person count [N] between 0 and 30, taken from the context
    of the implying statement, [s.implies(t)] returns [true] exactly when
    [t] is true on every assignment in [0, 2^N) on which [s] is true, and
    [false] exactly when some assignment makes [s] true and [t] false. *)
Theorem implies_iff h s t :
  0 <= personCount (h !!! context_of s) <= 30 →
  (implies h s t = true ↔
   ∀ a, 0 <= a < 2 ^ personCount (h !!! context_of s) →
        isTrueOn s a = true → isTrueOn t a = true) ∧
  (implies h s t = false ↔
   ∃ a, 0 <= a < 2 ^ personCount (h !!! context_of s) ∧
        isTrueOn s a = true ∧ isTrueOn t a = false).
Proof.
  intros HN. split; [by apply implies_true_iff | by apply implies_false_iff].
Qed.

Lemma implies_iff_witness :
  let h := two_speakers_store in
  let s := TrueFalseStatement 0%nat 1 true in
  let t := TrueFalseStatement 0%nat 0 true in
  0 <= personCount (h !!! context_of s) <= 30 ∧
  (implies h s t = true ↔
   ∀ a, 0 <= a < 2 ^ personCount (h !!! context_of s) →
        isTrueOn s a = true → isTrueOn t a = true) ∧
  (implies h s t = false ↔
   ∃ a, 0 <= a < 2 ^ personCount (h !!! context_of s) ∧
        isTrueOn s a = true ∧ isTrueOn t a = false).
Proof.
  split; [simpl; lia|].
  apply (implies_iff two_speakers_store (TrueFalseStatement 0%nat 1 true)
           (TrueFalseStatement 0%nat 0 true)).
  simpl; lia.
Defined.

Lemma shl_one_mod n :
  JS.shl 1 n = if n mod 32 =? 31 then - 2 ^ 31 else 2 ^ (n mod 32).
Proof.
  unfold JS.shl. rewrite (toInt32_small 1) by lia.
  assert (Hn : 0 <= n mod 32 < 32) by (apply Z.mod_pos_bound; lia).
  rewrite Z.shiftl_1_l.
  destruct (n mod 32 =? 31) eqn:E.
  - apply Z.eqb_eq in E. rewrite E. reflexivity.
  - apply Z.eqb_neq in E. apply toInt32_small.
    split; [pose proof (Z.pow_pos_nonneg 2 (n mod 32)); lia|].
    apply Z.pow_lt_mono_r; lia.
Qed.

(** X8.  When the person count is 31 modulo 32, [1 << personCount] is
    negative, the loop of [isTautology()] does not run, and every statement
    is reported to be a tautology. *)
Theorem isTautology_31_people h s :
  personCount (h !!! context_of s) mod 32 = 31 → isTautology h s = true.
Proof.
  intros HN. unfold isTautology, assignments. rewrite shl_one_mod, HN. reflexivity.
Qed.

Lemma isTautology_31_people_witness :
  let s := TrueFalseStatement 0%nat 0 true in
  personCount (puzzle31_store !!! context_of s) mod 32 = 31 ∧
  isTautology puzzle31_store s = true.
Proof.
  intros s. split; [reflexivity|].
  apply (isTautology_31_people puzzle31_store s). reflexivity.
Defined.

(** ** The solver *)

Lemma filter_seqZ_increasing (P : Z → Prop) `{∀ x, Decision (P x)} m (n : nat) :
  ∀ i j x y, (i < j)%nat →
    filter P (seqZ m (Z.of_nat n)) !! i = Some x →
    filter P (seqZ m (Z.of_nat n)) !! j = Some y → x < y.
Proof.
  induction n as [|n IH]; intros i j x y Hij Hi Hj.
  - simpl in Hi. done.
  - rewrite seqZ_S, filter_app in Hi, Hj.
    set (l := filter P (seqZ m (Z.of_nat n))) in *.
    destruct (decide (j < length l)%nat) as [Hlt|Hge].
    + rewrite lookup_app_l in Hi, Hj by lia. eauto.
    + pose proof (lookup_lt_Some _ _ _ Hj) as Hlen.
      rewrite length_app in Hlen.
      pose proof (length_filter P [m + Z.of_nat n]) as Hone. simpl in Hone.
      rewrite lookup_app_r in Hj by lia.
      rewrite lookup_app_l in Hi by lia.
      assert (Hx : x ∈ seqZ m (Z.of_nat n)).
      { apply list_elem_of_lookup_2 in Hi. unfold l in Hi.
        apply list_elem_of_filter in Hi. tauto. }
      apply elem_of_seqZ in Hx.
      apply list_elem_of_lookup_2 in Hj. apply list_elem_of_filter in Hj as [_ Hj].
      apply list_elem_of_singleton in Hj. lia.
Qed.

(** X9.  [solutionsTo] returns the assignments in strictly increasing
    order: of two entries of the result, the one at the smaller index is
    the smaller integer, and it is not negative. *)
Theorem solutionsTo_increasing h statements i j x y :
  (i < j)%nat →
  solutionsTo h statements !! i = Some x →
  solutionsTo h statements !! j = Some y →
  0 <= x < y.
Proof.
  unfold solutionsTo, assignments. intros Hij Hi Hj.
  set (n := JS.shl 1 (Z.of_nat (length statements))) in *.
  destruct (decide (0 <= n)) as [Hn|Hn].
  - rewrite <- (Z2Nat.id n) in Hi, Hj by lia. split.
    + apply list_elem_of_lookup_2, list_elem_of_filter in Hi as [_ Hi].
      apply elem_of_seqZ in Hi. lia.
    + eapply filter_seqZ_increasing; eauto.
  - replace (seqZ 0 n) with (@nil Z) in Hi; [done|].
    unfold seqZ. rewrite Z2Nat.nonpos by lia. reflexivity.
Qed.

Lemma solutionsTo_increasing_witness :
  (0 < 1)%nat ∧
  solutionsTo two_speakers_store two_speakers !! 0%nat = Some 0 ∧
  solutionsTo two_speakers_store two_speakers !! 1%nat = Some 3 ∧
  0 <= 0 < 3.
Proof.
  split; [lia|]. split; [reflexivity|]. split; [reflexivity|].
  apply (solutionsTo_increasing two_speakers_store two_speakers 0 1); [lia|reflexivity..].
Defined.

(** X10.  For [n] statements, every assignment returned by [solutionsTo]
    lies in [0, 2^(n mod 32)), and nothing is returned when [n mod 32] is
    31: the loop bound is [1 << n]. *)
Theorem solutionsTo_bounds h statements a :
  a ∈ solutionsTo h statements →
  Z.of_nat (length statements) mod 32 ≠ 31 ∧
  0 <= a < 2 ^ (Z.of_nat (length statements) mod 32).
Proof.
  unfold solutionsTo, assignments. intros Ha.
  apply list_elem_of_filter in Ha as [_ Ha]. apply elem_of_seqZ in Ha.
  rewrite shl_one_mod in Ha.
  destruct (_ =? 31) eqn:E; [lia|]. apply Z.eqb_neq in E. split; [done|lia].
Qed.

Lemma solutionsTo_bounds_witness :
  3 ∈ solutionsTo two_speakers_store two_speakers ∧
  Z.of_nat (length two_speakers) mod 32 ≠ 31 ∧
  0 <= 3 < 2 ^ (Z.of_nat (length two_speakers) mod 32).
Proof.
  assert (H : 3 ∈ solutionsTo two_speakers_store two_speakers).
  { apply list_elem_of_In. vm_compute. right. left. reflexivity. }
  split; [exact H|]. exact (solutionsTo_bounds two_speakers_store two_speakers 3 H).
Defined.

(** X11.  A puzzle in which somebody says "I am a liar" has no solution:
    [solutionsTo] returns the empty array. *)
Theorem solutionsTo_self_declared_liar h statements c :
  TrueFalseStatement c (speakerIndex (h !!! c)) false ∈ statements →
  solutionsTo h statements = [].
Proof.
  intros Hin. unfold solutionsTo.
  induction (assignments (Z.of_nat (length statements))) as [|a l IH]; [done|].
  rewrite filter_cons, IH.
  destruct (decide _) as [E|]; [|done].
  rewrite forallb_forall in E.
  apply list_elem_of_In in Hin. apply E in Hin.
  unfold isConsistentOn in Hin. cbn [isTrueOn context_of] in Hin.
  destruct (negb _) in Hin; discriminate.
Qed.

Lemma solutionsTo_self_declared_liar_witness :
  let h := two_speakers_store in
  let statements := [TrueFalseStatement 0%nat 1 true; TrueFalseStatement 1%nat 1 false] in
  TrueFalseStatement 1%nat (speakerIndex (h !!! 1%nat)) false ∈ statements ∧
  solutionsTo h statements = [].
Proof.
  split.
  - apply list_elem_of_In. simpl. right. left. reflexivity.
  - apply (solutionsTo_self_declared_liar two_speakers_store _ 1%nat).
    apply list_elem_of_In. simpl. right. left. reflexivity.
Defined.

(** ** Contexts and the atomic classes *)

(** X12.  [LogicalStatementContext.from(other)] creates a new object with
    the six fields of [other] and leaves every existing object as it is; an
    assignment to a field of the copy changes the copy only. *)
Theorem LogicalStatementContext_from_copy other s :
  (other < length (contexts s))%nat →
  ∃ c s',
    LogicalStatementContext_from other s = (Ok c, s') ∧
    c = length (contexts s) ∧ drawn s' = drawn s ∧
    contexts s' !! c = contexts s !! other ∧
    (∀ r, (r < length (contexts s))%nat → contexts s' !! r = contexts s !! r) ∧
    ∀ f s'', update_context c f s' = (Ok tt, s'') →
      contexts s'' !! c = f <$> contexts s !! other ∧
      ∀ r, (r < length (contexts s))%nat → contexts s'' !! r = contexts s !! r.
Proof.
  intros Hother. unfold LogicalStatementContext_from.
  rewrite bind_get_store. unfold new_context. eexists _, _.
  split; [reflexivity|]. cbn [contexts drawn].
  destruct (lookup_lt_is_Some_2 _ _ Hother) as [o Ho].
  unfold ref in *.
  rewrite (list_lookup_total_correct _ _ _ Ho).
  split; [reflexivity|]. split; [reflexivity|]. split; [|split].
  - rewrite lookup_app_r by lia. rewrite Nat.sub_diag, Ho. destruct o; reflexivity.
  - intros r Hr. apply lookup_app_l. exact Hr.
  - intros f s'' H. unfold update_context in H. injection H as <-. cbn [contexts].
    rewrite alter_app_r_alt by lia. rewrite Nat.sub_diag. split.
    + rewrite lookup_app_r by lia. rewrite Nat.sub_diag, Ho. destruct o; reflexivity.
    + intros r Hr. apply lookup_app_l. exact Hr.
Qed.

Lemma LogicalStatementContext_from_copy_witness :
  (0 < length (contexts two_people))%nat ∧
  ∃ c s',
    LogicalStatementContext_from 0%nat two_people = (Ok c, s') ∧
    c = length (contexts two_people) ∧ drawn s' = drawn two_people ∧
    contexts s' !! c = contexts two_people !! 0%nat ∧
    (∀ r, (r < length (contexts two_people))%nat →
          contexts s' !! r = contexts two_people !! r) ∧
    ∀ f s'', update_context c f s' = (Ok tt, s'') →
      contexts s'' !! c = f <$> contexts two_people !! 0%nat ∧
      ∀ r, (r < length (contexts two_people))%nat →
           contexts s'' !! r = contexts two_people !! r.
Proof.
  split; [simpl; lia|].
  apply (LogicalStatementContext_from_copy 0%nat two_people). simpl; lia.
Defined.

Lemma Qltb_true r q : Qltb r q = true ↔ (r < q)%Q.
Proof.
  unfold Qltb. rewrite negb_true_iff. split.
  - intros H. apply Qnot_le_lt. intros Hle. apply Qle_bool_iff in Hle. congruence.
  - intros H. destruct (Qle_bool q r) eqn:E; [|reflexivity].
    apply Qle_bool_iff in E. exfalso. eapply Qlt_not_le; eassumption.
Qed.


(** X13.  With draws in [0, 1) and at least one person,
    [TrueFalseStatement.random(context)] returns, after exactly two draws
    and without touching the store, a statement on the given context whose
    subject is one of the [personCount] people, and which says
    "truth-teller" exactly when the second draw is below 1/2. *)
Theorem TrueFalseStatement_random_result rnd context s :
  valid_draws rnd →
  0 < personCount (contexts s !!! context) →
  ∃ subjectIndex isTruthTeller,
    TrueFalseStatement_random rnd context s
    = (Ok (TrueFalseStatement context subjectIndex isTruthTeller),
       mkState (contexts s) (2 + drawn s)) ∧
    0 <= subjectIndex < personCount (contexts s !!! context) ∧
    (isTruthTeller = true ↔ (rnd (S (drawn s)) < 1 # 2)%Q).
Proof.
  intros Hrnd HN. unfold TrueFalseStatement_random.
  rewrite bind_Math_random, bind_get_store, bind_Math_random. cbn [contexts drawn].
  eexists _, _. split; [reflexivity|]. split.
  - destruct (Hrnd (drawn s)). apply floor_scaled_range; assumption.
  - apply Qltb_true.
Qed.

Lemma TrueFalseStatement_random_result_witness :
  valid_draws (replay draws_count) ∧
  0 < personCount (contexts two_people !!! 0%nat) ∧
  ∃ subjectIndex isTruthTeller,
    TrueFalseStatement_random (replay draws_count) 0%nat two_people
    = (Ok (TrueFalseStatement 0%nat subjectIndex isTruthTeller),
       mkState (contexts two_people) (2 + drawn two_people)) ∧
    0 <= subjectIndex < personCount (contexts two_people !!! 0%nat) ∧
    (isTruthTeller = true ↔ (replay draws_count (S (drawn two_people)) < 1 # 2)%Q).
Proof.
  assert (Hvalid : valid_draws (replay draws_count)).
  { apply replay_valid. repeat constructor; unfold Qle, Qlt; simpl; lia. }
  split; [exact Hvalid|]. split; [simpl; lia|].
  apply (TrueFalseStatement_random_result (replay draws_count) 0%nat two_people Hvalid).
  simpl; lia.
Defined.

(** X14.  With draws in [0, 1) and between 2 and 29 people, the statement
    returned by [TypeCountStatement.random(context)] is on the given
    context, its subjects are among the [personCount] people and at least
    two, and its [liarCountBits] is between 1 and
    [2^(subjectCount + 1) - 2]; the store is left as it was. *)
Theorem TypeCountStatement_random_fields rnd fuel context s st s' :
  valid_draws rnd →
  2 <= personCount (contexts s !!! context) <= 29 →
  TypeCountStatement_random rnd fuel context s = (Ok st, s') →
  contexts s' = contexts s ∧
  ∃ subjectBits liarCountBits,
    st = TypeCountStatement context subjectBits liarCountBits ∧
    0 <= subjectBits < 2 ^ personCount (contexts s !!! context) ∧
    2 <= popcount subjectBits <= personCount (contexts s !!! context) ∧
    1 <= liarCountBits <= 2 ^ (popcount subjectBits + 1) - 2.
Proof.
  intros Hrnd HN H.
  apply TypeCountStatement_random_inv in H as (Hs & i & j & Hpop & ->).
  split; [exact Hs|].
  set (N := personCount (contexts s !!! context)) in *.
  rewrite shl_one in * by lia.
  assert (Hpow : 0 < 2 ^ N) by (apply Z.pow_pos_nonneg; lia).
  destruct (Hrnd i) as [Hi0 Hi1]. destruct (Hrnd j) as [Hj0 Hj1].
  pose proof (floor_scaled_range (rnd i) (2 ^ N) Hi0 Hi1 Hpow) as Hsb.
  set (subjectBits := floor_scaled (rnd i) (2 ^ N)) in *.
  assert (Hsc : popcount subjectBits <= N).
  { rewrite (popcount_small (Z.to_nat N)) by (rewrite ?Z2Nat.id; lia).
    pose proof (naive_popcount_range (Z.to_nat N) subjectBits). lia. }
  rewrite shl_one by lia.
  assert (Hpow2 : 2 ^ 2 <= 2 ^ popcount subjectBits) by (apply Z.pow_le_mono_r; lia).
  assert (Hpow3 : 2 ^ (popcount subjectBits + 1) = 2 * 2 ^ popcount subjectBits)
    by (rewrite Z.pow_add_r by lia; change (2 ^ 1) with 2; lia).
  pose proof (floor_scaled_range (rnd j) (2 ^ (popcount subjectBits + 1) - 2)
                Hj0 Hj1 ltac:(lia)) as HL.
  eexists _, _. split; [reflexivity|]. lia.
Qed.

Lemma TypeCountStatement_random_fields_witness :
  valid_draws (replay draws_count) ∧
  2 <= personCount (contexts two_people !!! 0%nat) <= 29 ∧
  ∃ st s',
    TypeCountStatement_random (replay draws_count) 3 0%nat two_people = (Ok st, s') ∧
    contexts s' = contexts two_people ∧
    ∃ subjectBits liarCountBits,
      st = TypeCountStatement 0%nat subjectBits liarCountBits ∧
      0 <= subjectBits < 2 ^ personCount (contexts two_people !!! 0%nat) ∧
      2 <= popcount subjectBits <= personCount (contexts two_people !!! 0%nat) ∧
      1 <= liarCountBits <= 2 ^ (popcount subjectBits + 1) - 2.
Proof.
  assert (Hvalid : valid_draws (replay draws_count)).
  { apply replay_valid. repeat constructor; unfold Qle, Qlt; simpl; lia. }
  split; [exact Hvalid|]. split; [simpl; lia|].
  eexists _, _. split; [vm_compute; reflexivity|].
  apply (TypeCountStatement_random_fields (replay draws_count) 3 0%nat two_people).
  - exact Hvalid.
  - simpl. lia.
  - vm_compute. reflexivity.
Defined.

Lemma TypeCountStatement_random_subjectBits_loops rnd fuel : ∀ context s,
  valid_draws rnd →
  0 <= personCount (contexts s !!! context) <= 1 →
  fst (TypeCountStatement_random_subjectBits rnd fuel context s) = OutOfFuel.
Proof.
  induction fuel as [|fuel IH]; intros context s Hrnd HN; [reflexivity|].
  cbn [TypeCountStatement_random_subjectBits].
  rewrite bind_Math_random, bind_get_store. cbn [contexts].
  set (N := personCount (contexts s !!! context)) in *.
  rewrite shl_one by lia.
  destruct (Hrnd (drawn s)) as [H0 H1].
  assert (Hpow : 0 < 2 ^ N) by (apply Z.pow_pos_nonneg; lia).
  pose proof (floor_scaled_range (rnd (drawn s)) (2 ^ N) H0 H1 Hpow) as Hsb.
  assert (Hle : 2 ^ N <= 2 ^ 1) by (apply Z.pow_le_mono_r; lia).
  change (2 ^ 1) with 2 in Hle.
  set (x := floor_scaled (rnd (drawn s)) (2 ^ N)) in *.
  assert (Hx : x = 0 ∨ x = 1) by lia.
  replace (popcount x <=? 1) with true by (destruct Hx as [-> | ->]; reflexivity).
  apply IH; assumption.
Qed.

(** X15.  With draws in [0, 1) and fewer than two people, the
    [do ... while] loop of [TypeCountStatement.random] never finds two
    subjects: the call does not return, whatever amount of fuel the model
    is given. *)
Theorem TypeCountStatement_random_needs_two_people rnd fuel context s :
  valid_draws rnd →
  0 <= personCount (contexts s !!! context) <= 1 →
  fst (TypeCountStatement_random rnd fuel context s) = OutOfFuel.
Proof.
  intros Hrnd HN. unfold TypeCountStatement_random, bind.
  pose proof (TypeCountStatement_random_subjectBits_loops rnd fuel context s Hrnd HN) as H.
  destruct (TypeCountStatement_random_subjectBits rnd fuel context s) as [[a|e|] s1];
    simpl in H; try discriminate. reflexivity.
Qed.

Lemma TypeCountStatement_random_needs_two_people_witness :
  valid_draws (replay draws_count) ∧
  0 <= personCount (contexts one_person !!! 0%nat) <= 1 ∧
  fst (TypeCountStatement_random (replay draws_count) 100 0%nat one_person) = OutOfFuel.
Proof.
  assert (Hvalid : valid_draws (replay draws_count)).
  { apply replay_valid. repeat constructor; unfold Qle, Qlt; simpl; lia. }
  split; [exact Hvalid|]. split; [simpl; lia|].
  apply (TypeCountStatement_random_needs_two_people (replay draws_count) 100 0%nat one_person).
  - exact Hvalid.
  - simpl; lia.
Defined.

(** ** The choice of the class *)










(** ** The shape of generated statements *)

Lemma alter_fresh (h : store) f o : alter f (length h) (h ++ [o]) = h ++ [f o].
Proof.
  rewrite alter_app_r_alt by lia. rewrite Nat.sub_diag. reflexivity.
Qed.

Lemma lookup_total_fresh (h : store) o : (h ++ [o]) !!! length h = o.
Proof.
  rewrite lookup_total_app_r by lia. rewrite Nat.sub_diag. reflexivity.
Qed.

Lemma refs_below_parts n st :
  generated st → refs_below n st →
  (context_of st < n)%nat ∧ Forall (λ c, (c < n)%nat) (part_contexts st).
Proof.
  induction st; cbn [generated refs_below context_of part_contexts]; try tauto;
    try (intros _ Hc; split; [exact Hc | constructor]).
  all: intros [G1 G2] (Hc & R1 & R2);
       destruct (IHst1 G1 R1) as [C1 P1]; destruct (IHst2 G2 R2) as [C2 P2];
       split; [exact Hc|];
       constructor; [exact C1|]; apply Forall_app; split; [exact P1|];
       constructor; [exact C2 | exact P2].
Qed.

Lemma fresh_copy_weaken (h h' : store) n0 n1 o0 o1 c :
  fresh_copy h n1 o1 c → h `prefix_of` h' → (n0 ≤ n1)%nat → same_people o1 o0 →
  fresh_copy h' n0 o0 c.
Proof.
  unfold fresh_copy, same_people, ref.
  intros ([Hn Hc] & (P1 & P2 & P3) & Hr) Hpre Hle (Q1 & Q2 & Q3).
  pose proof (prefix_length _ _ Hpre).
  rewrite (prefix_lookup_total h h' c Hpre Hc).
  split; [lia|]. split; [|exact Hr].
  split; [congruence|]. split; congruence.
Qed.

(** The creation of a context by [LogicalStatementContext.from] followed by
    the assignments to its fields, as one new object. *)
Ltac normalise_fresh H :=
  unfold set_isRoot, set_shouldUseGa, set_preconditionPredicate in H;
  rewrite bind_from in H;
  repeat rewrite ?bind_get_store, ?bind_update in H;
  cbn [contexts drawn] in H;
  rewrite !alter_fresh in H;
  cbn [personCount speakerIndex isRoot shouldUseGa preconditionPredicate
       complexityFactor] in H.

Section StructureSpec.

Variable rnd : nat → Q.

Lemma randomStatement_with_frame fuel context maxLayer s st s' :
  randomStatement_with (randomStatement_loop rnd fuel) context maxLayer s = (Ok st, s') →
  contexts s `prefix_of` contexts s' ∧ generated st ∧
  (∃ c, class_of st = Some c ∧ c ∈ eligible maxLayer) ∧
  ((context < length (contexts s))%nat → refs_below (length (contexts s')) st).
Proof.
  intros H.
  destruct (eligible maxLayer) as [|c0 l] eqn:E.
  - unfold randomStatement_with in H. rewrite E in H. discriminate.
  - pose proof (randomStatement_with_spec rnd fuel (contexts s) context maxLayer s
                  (proj1 (generator_spec rnd fuel))) as P.
    rewrite H in P. destruct P as [(P1 & _ & P2 & P3 & P4) _].
    + reflexivity.
    + rewrite E. discriminate.
    + rewrite <- E. auto.
Qed.

Lemma random_of_frame fuel classChoice context s st s' :
  random_of rnd classChoice fuel context s = (Ok st, s') →
  contexts s `prefix_of` contexts s' ∧ generated st ∧
  class_of st = Some classChoice ∧
  ((context < length (contexts s))%nat → refs_below (length (contexts s')) st).
Proof.
  intros H.
  pose proof (random_of_post rnd fuel (contexts s) classChoice context s) as P.
  rewrite H in P. destruct P as (P1 & _ & P2 & (c & P3 & ->) & P4); [reflexivity|].
  auto.
Qed.

Lemma struct_post_weaken n0 n1 o0 o1 context st s' :
  struct_post n1 o1 context st s' → (n0 ≤ n1)%nat → same_people o1 o0 →
  struct_post n0 o0 context st s'.
Proof.
  intros (H1 & H2 & H3) Hle Hs. split; [exact H1|]. split; [exact H2|].
  eapply Forall_impl; [exact H3|]. intros c Hc.
  eapply fresh_copy_weaken; [exact Hc | reflexivity | exact Hle | exact Hs].
Qed.

Lemma same_people_refl o : same_people o o.
Proof. repeat split. Qed.

Lemma struct_with fuel context maxLayer s st s' :
  struct_loop_spec rnd fuel →
  randomStatement_with (randomStatement_loop rnd fuel) context maxLayer s = (Ok st, s') →
  (context < length (contexts s))%nat →
  struct_post (length (contexts s)) (contexts s !!! context) context st s'.
Proof.
  intros IH H Hc. unfold randomStatement_with in H.
  destruct (length (eligible maxLayer) =? 0)%nat; [discriminate|].
  rewrite bind_get_store in H. eapply IH; eassumption.
Qed.

Lemma struct_loop_S fuel :
  struct_loop_spec rnd fuel → struct_class_spec rnd fuel → struct_loop_spec rnd (S fuel).
Proof.
  intros IHloop IHclass context classChoices weightSum partialWeightSums s st s' H Hc.
  cbn [randomStatement_loop] in H. rewrite bind_Math_random in H.
  set (s1 := mkState (contexts s) (S (drawn s))) in *.
  destruct (classChoices !! _) as [classChoice|] eqn:Hcls; [|discriminate].
  bind_inv H.
  assert (E' : random_of rnd classChoice fuel context s1 = (Ok a, s0)).
  { destruct classChoice; exact E. }
  clear E.
  destruct (random_of_frame _ _ _ _ _ _ E') as (Hpre & Hgen & _ & Hrefs).
  destruct (subjectBitsArray a) as [array|]; [|discriminate].
  destruct (hasDuplicate array).
  - pose proof (prefix_length _ _ Hpre) as Hlen. cbn [s1 contexts] in Hlen.
    apply IHloop in H. specialize (H ltac:(lia)).
    eapply struct_post_weaken; [exact H | exact Hlen |].
    unfold ref in *.
    rewrite (prefix_lookup_total _ _ _ Hpre Hc). apply same_people_refl.
  - prim_inv H. apply (IHclass _ _ _ _ _ E' Hc).
Qed.

Lemma layer_at_most_of_eligible z st :
  (∃ c, class_of st = Some c ∧ c ∈ eligible (Finite z)) → layer_at_most z st.
Proof.
  intros (c & Hc & Hin). exists c. split; [exact Hc|].
  apply elem_of_eligible in Hin. simpl in Hin. apply Z.leb_le. exact Hin.
Qed.

(** What the nested call for a part, made on the fresh context [c] in state
    [s1], contributes to the compound returned with the store [hf]. *)
Lemma struct_part fuel c maxLayer z s1 st1 s2 (hf : store) n0 o0 :
  struct_loop_spec rnd fuel →
  randomStatement_with (randomStatement_loop rnd fuel) c maxLayer s1 = (Ok st1, s2) →
  maxLayer = Finite z →
  (n0 ≤ c < length (contexts s1))%nat →
  same_people (contexts s1 !!! c) o0 →
  isRoot (contexts s1 !!! c) = false →
  contexts s2 `prefix_of` hf →
  layer_at_most z st1 ∧ well_nested st1 ∧
  Forall (fresh_copy hf n0 o0) (context_of st1 :: part_contexts st1).
Proof.
  intros IH E -> Hc Hsame Hroot Hpre.
  destruct (randomStatement_with_frame _ _ _ _ _ _ E) as (Hpre1 & Hgen & Hcls & Hrefs).
  destruct (struct_with _ _ _ _ _ _ IH E ltac:(lia)) as (Hctx & Hwn & Hparts).
  split; [by apply layer_at_most_of_eligible|]. split; [exact Hwn|].
  pose proof (prefix_length _ _ Hpre1) as Hlen1.
  pose proof (prefix_length _ _ Hpre) as Hlen2.
  constructor.
  - rewrite Hctx. unfold fresh_copy, ref in *.
    assert (Hpre' : contexts s1 `prefix_of` hf) by (etrans; eassumption).
    rewrite (prefix_lookup_total (contexts s1) hf c Hpre') by lia.
    split; [lia|]. split; assumption.
  - eapply Forall_impl; [exact Hparts|]. intros c' Hc'.
    eapply fresh_copy_weaken; [exact Hc' | exact Hpre | lia | exact Hsame].
Qed.

Lemma struct_retry context s s4 st s' :
  struct_post (length (contexts s4)) (contexts s4 !!! context) context st s' →
  contexts s `prefix_of` contexts s4 →
  (context < length (contexts s))%nat →
  struct_post (length (contexts s)) (contexts s !!! context) context st s'.
Proof.
  intros H Hpre Hc. eapply struct_post_weaken; [exact H | by apply prefix_length |].
  unfold ref in *. rewrite (prefix_lookup_total _ _ _ Hpre Hc). apply same_people_refl.
Qed.

Lemma and_struct_S fuel :
  struct_loop_spec rnd fuel → struct_class_spec rnd fuel →
  ∀ context s st s',
    LogicalAndStatement_random rnd (S fuel) context s = (Ok st, s') →
    (context < length (contexts s))%nat →
    struct_post (length (contexts s)) (contexts s !!! context) context st s'.
Proof.
  intros IHloop IHclass context s st s' H Hc.
  rewrite LogicalAndStatement_random_S in H.
  normalise_fresh H.
  bind_inv H. rename a into st1, s0 into s2, E into E1.
  destruct (randomStatement_with_frame _ _ _ _ _ _ E1) as (Hpre2 & _ & _ & _).
  normalise_fresh H.
  bind_inv H. rename a into st2, s0 into s4, E into E2.
  destruct (randomStatement_with_frame _ _ _ _ _ _ E2) as (Hpre4 & _ & _ & _).
  cbn [contexts] in Hpre2, Hpre4.
  pose proof (prefix_length _ _ Hpre2) as Hlen2. rewrite length_app in Hlen2.
  pose proof (prefix_length _ _ Hpre4) as Hlen4. rewrite length_app in Hlen4.
  simpl in Hlen2, Hlen4.
  assert (Hc1 : contexts s2 !!! length (contexts s) =
                (contexts s ++ [mkContext (personCount (contexts s !!! context))
                                  (speakerIndex (contexts s !!! context)) false
                                  (shouldUseGa (contexts s !!! context))
                                  (preconditionPredicate (contexts s !!! context))
                                  (complexityFactor (contexts s !!! context))])
                !!! length (contexts s)).
  { apply prefix_lookup_total; [exact Hpre2|]. rewrite length_app. simpl. lia. }
  rewrite lookup_total_fresh in Hc1.
  assert (Hpre_s4 : contexts s `prefix_of` contexts s4).
  { etrans; [|exact Hpre4]. etrans; [|apply prefix_app_r; exact Hpre2].
    apply prefix_app_r. reflexivity. }
  rewrite bind_get_store in H.
  destruct (_ || _ || _) in H.
  - pose proof (IHclass ClassLogicalAnd _ _ _ _ H ltac:(lia)) as H'.
    eapply struct_retry; eassumption.
  - prim_inv H.
    edestruct (struct_part fuel _ _ 0 _ _ _ (contexts s4) (length (contexts s))
                 (contexts s !!! context) IHloop E1) as (L1 & W1 & P1).
    { reflexivity. }
    { cbn [contexts]. rewrite length_app. simpl. lia. }
    { cbn [contexts]. rewrite lookup_total_fresh. repeat split. }
    { cbn [contexts]. rewrite lookup_total_fresh. reflexivity. }
    { etrans; [|exact Hpre4]. apply prefix_app_r. reflexivity. }
    edestruct (struct_part fuel _ _ 0 _ _ _ (contexts s4) (length (contexts s))
                 (contexts s !!! context) IHloop E2) as (L2 & W2 & P2).
    { reflexivity. }
    { cbn [contexts]. rewrite length_app. simpl. lia. }
    { cbn [contexts]. rewrite lookup_total_fresh. unfold same_people, ref in *.
      cbn [personCount speakerIndex complexityFactor]. rewrite Hc1. repeat split. }
    { cbn [contexts]. rewrite lookup_total_fresh. unfold ref in *.
      cbn [isRoot]. rewrite Hc1. reflexivity. }
    { reflexivity. }
    split; [reflexivity|]. split; [cbn [well_nested]; auto|].
    cbn [part_contexts]. rewrite app_comm_cons. apply Forall_app. split; assumption.
Qed.

Lemma or_struct_S fuel :
  struct_loop_spec rnd fuel → struct_class_spec rnd fuel →
  ∀ context s st s',
    LogicalOrStatement_random rnd (S fuel) context s = (Ok st, s') →
    (context < length (contexts s))%nat →
    struct_post (length (contexts s)) (contexts s !!! context) context st s'.
Proof.
  intros IHloop IHclass context s st s' H Hc.
  rewrite LogicalOrStatement_random_S in H.
  normalise_fresh H.
  bind_inv H. rename a into st1, s0 into s2, E into E1.
  destruct (randomStatement_with_frame _ _ _ _ _ _ E1) as (Hpre2 & _ & _ & _).
  bind_inv H. rename a into st2, s0 into s4, E into E2.
  destruct (randomStatement_with_frame _ _ _ _ _ _ E2) as (Hpre4 & _ & _ & _).
  cbn [contexts] in Hpre2.
  pose proof (prefix_length _ _ Hpre2) as Hlen2. rewrite length_app in Hlen2.
  pose proof (prefix_length _ _ Hpre4) as Hlen4.
  simpl in Hlen2.
  unfold ref in *.
  assert (Hc1 : contexts s2 !!! length (contexts s) =
                (contexts s ++ [mkContext (personCount (contexts s !!! context))
                                  (speakerIndex (contexts s !!! context)) false
                                  true None
                                  (complexityFactor (contexts s !!! context))])
                !!! length (contexts s)).
  { apply prefix_lookup_total; [exact Hpre2|]. rewrite length_app. simpl. lia. }
  rewrite lookup_total_fresh in Hc1.
  assert (Hpre_s4 : contexts s `prefix_of` contexts s4).
  { etrans; [|exact Hpre4]. etrans; [|exact Hpre2]. apply prefix_app_r. reflexivity. }
  rewrite bind_get_store in H.
  destruct (_ || _ || _) in H.
  - pose proof (IHclass ClassLogicalOr _ _ _ _ H ltac:(lia)) as H'.
    eapply struct_retry; eassumption.
  - prim_inv H.
    edestruct (struct_part fuel _ _ 0 _ _ _ (contexts s4) (length (contexts s))
                 (contexts s !!! context) IHloop E1) as (L1 & W1 & P1).
    { reflexivity. }
    { cbn [contexts]. rewrite length_app. simpl. lia. }
    { cbn [contexts]. rewrite lookup_total_fresh. repeat split. }
    { cbn [contexts]. rewrite lookup_total_fresh. reflexivity. }
    { exact Hpre4. }
    edestruct (struct_part fuel _ _ 0 _ _ _ (contexts s4) (length (contexts s))
                 (contexts s !!! context) IHloop E2) as (L2 & W2 & P2).
    { reflexivity. }
    { lia. }
    { unfold ref. rewrite Hc1. repeat split. }
    { unfold ref. rewrite Hc1. reflexivity. }
    { reflexivity. }
    split; [reflexivity|]. split; [cbn [well_nested]; auto|].
    cbn [part_contexts]. rewrite app_comm_cons. apply Forall_app. split; assumption.
Qed.

Lemma if_struct_S fuel :
  struct_loop_spec rnd fuel → struct_class_spec rnd fuel →
  ∀ context s st s',
    LogicalIfStatement_random rnd (S fuel) context s = (Ok st, s') →
    (context < length (contexts s))%nat →
    struct_post (length (contexts s)) (contexts s !!! context) context st s'.
Proof.
  intros IHloop IHclass context s st s' H Hc.
  rewrite LogicalIfStatement_random_S in H.
  normalise_fresh H.
  bind_inv H. rename a into st1, s0 into s2, E into E1.
  destruct (randomStatement_with_frame _ _ _ _ _ _ E1) as (Hpre2 & _ & _ & _).
  normalise_fresh H.
  bind_inv H. rename a into st2, s0 into s4, E into E2.
  destruct (randomStatement_with_frame _ _ _ _ _ _ E2) as (Hpre4 & _ & _ & _).
  cbn [contexts] in Hpre2, Hpre4.
  pose proof (prefix_length _ _ Hpre2) as Hlen2. rewrite length_app in Hlen2.
  pose proof (prefix_length _ _ Hpre4) as Hlen4. rewrite length_app in Hlen4.
  simpl in Hlen2, Hlen4.
  unfold ref in *.
  assert (Hc1 : contexts s2 !!! length (contexts s) =
                (contexts s ++ [mkContext (personCount (contexts s !!! context))
                                  (speakerIndex (contexts s !!! context)) false
                                  true
                                  (preconditionPredicate (contexts s !!! context))
                                  (complexityFactor (contexts s !!! context))])
                !!! length (contexts s)).
  { apply prefix_lookup_total; [exact Hpre2|]. rewrite length_app. simpl. lia. }
  rewrite lookup_total_fresh in Hc1.
  assert (Hpre_s4 : contexts s `prefix_of` contexts s4).
  { etrans; [|exact Hpre4]. etrans; [|apply prefix_app_r; exact Hpre2].
    apply prefix_app_r. reflexivity. }
  rewrite bind_get_store in H.
  destruct (_ || _ || _) in H.
  - pose proof (IHclass ClassLogicalIf _ _ _ _ H ltac:(lia)) as H'.
    eapply struct_retry; eassumption.
  - prim_inv H.
    edestruct (struct_part fuel _ _ 1 _ _ _ (contexts s4) (length (contexts s))
                 (contexts s !!! context) IHloop E1) as (L1 & W1 & P1).
    { reflexivity. }
    { cbn [contexts]. rewrite length_app. simpl. lia. }
    { cbn [contexts]. rewrite lookup_total_fresh. repeat split. }
    { cbn [contexts]. rewrite lookup_total_fresh. reflexivity. }
    { etrans; [|exact Hpre4]. apply prefix_app_r. reflexivity. }
    edestruct (struct_part fuel _ _ 1 _ _ _ (contexts s4) (length (contexts s))
                 (contexts s !!! context) IHloop E2) as (L2 & W2 & P2).
    { reflexivity. }
    { cbn [contexts]. rewrite length_app. simpl. lia. }
    { cbn [contexts]. rewrite lookup_total_fresh. unfold same_people.
      cbn [personCount speakerIndex complexityFactor]. rewrite Hc1. repeat split. }
    { cbn [contexts]. rewrite lookup_total_fresh.
      cbn [isRoot]. rewrite Hc1. reflexivity. }
    { reflexivity. }
    split; [reflexivity|]. split; [cbn [well_nested]; auto|].
    cbn [part_contexts]. rewrite app_comm_cons. apply Forall_app. split; assumption.
Qed.

Lemma structure_spec : ∀ fuel, struct_loop_spec rnd fuel ∧ struct_class_spec rnd fuel.
Proof.
  assert (Htf : ∀ context s st s',
             TrueFalseStatement_random rnd context s = (Ok st, s') →
             struct_post (length (contexts s)) (contexts s !!! context) context st s').
  { intros context s st s' H. unfold TrueFalseStatement_random in H.
    rewrite bind_Math_random, bind_get_store, bind_Math_random in H.
    prim_inv H. repeat split. constructor. }
  induction fuel as [|fuel [IHloop IHclass]].
  - split.
    + intros context classChoices weightSum partialWeightSums s st s' H. discriminate.
    + intros classChoice context s st s' H Hc. destruct classChoice; try discriminate.
      apply Htf. exact H.
  - split; [apply struct_loop_S; assumption|].
    intros classChoice context s st s' H Hc. destruct classChoice.
    + apply Htf. exact H.
    + cbn [random_of] in H. apply TypeCountStatement_random_inv in H as (_ & i & j & _ & ->).
      repeat split. constructor.
    + apply (and_struct_S fuel); assumption.
    + apply (or_struct_S fuel); assumption.
    + apply (if_struct_S fuel); assumption.
Qed.

End StructureSpec.

Lemma randomStatement_struct rnd fuel context maxLayer s st s' :
  randomStatement rnd fuel context maxLayer s = (Ok st, s') →
  (context < length (contexts s))%nat →
  struct_post (length (contexts s)) (contexts s !!! context) context st s'.
Proof.
  intros H Hc. eapply struct_with; [apply structure_spec | exact H | exact Hc].
Qed.

Lemma layer_0_atom s :
  layer_at_most 0 s → ∃ a, subjectBitsArray s = Some [a].
Proof.
  intros (c & Hc & Hl). destruct s; try discriminate; simpl in Hc;
    injection Hc as <-; simpl in Hl; try lia; eexists; reflexivity.
Qed.

Lemma layer_1_atoms s :
  layer_at_most 1 s → well_nested s →
  ∃ array, subjectBitsArray s = Some array ∧ (1 ≤ length array ≤ 2)%nat.
Proof.
  intros (c & Hc & Hl) Hw. destruct s; try discriminate; simpl in Hc;
    injection Hc as <-; simpl in Hl; try lia.
  - eexists. split; [reflexivity|]. simpl. lia.
  - eexists. split; [reflexivity|]. simpl. lia.
  - destruct Hw as (L1 & L2 & _). apply layer_0_atom in L1 as [a1 E1], L2 as [a2 E2].
    cbn [subjectBitsArray]. rewrite E1, E2. eexists. split; [reflexivity|]. simpl. lia.
  - destruct Hw as (L1 & L2 & _). apply layer_0_atom in L1 as [a1 E1], L2 as [a2 E2].
    cbn [subjectBitsArray]. rewrite E1, E2. eexists. split; [reflexivity|]. simpl. lia.
Qed.

Lemma well_nested_atoms s :
  well_nested s →
  ∃ array, subjectBitsArray s = Some array ∧ (1 ≤ length array ≤ 4)%nat.
Proof.
  destruct s; cbn [well_nested]; try tauto.
  - intros _. eexists. split; [reflexivity|]. simpl. lia.
  - intros _. eexists. split; [reflexivity|]. simpl. lia.
  - intros (L1 & L2 & _). apply layer_0_atom in L1 as [a1 E1], L2 as [a2 E2].
    cbn [subjectBitsArray]. rewrite E1, E2. eexists. split; [reflexivity|]. simpl. lia.
  - intros (L1 & L2 & _). apply layer_0_atom in L1 as [a1 E1], L2 as [a2 E2].
    cbn [subjectBitsArray]. rewrite E1, E2. eexists. split; [reflexivity|]. simpl. lia.
  - intros (L1 & L2 & W1 & W2).
    destruct (layer_1_atoms _ L1 W1) as (a1 & E1 & H1).
    destruct (layer_1_atoms _ L2 W2) as (a2 & E2 & H2).
    cbn [subjectBitsArray]. rewrite E1, E2. eexists. split; [reflexivity|].
    simpl. rewrite length_app. lia.
Qed.

(** X17.  Every statement returned by [randomStatement] is nested as the
    constructors nest: the two parts of a conjunction or disjunction are
    atomic statements, the two parts of a conditional have layer at most 1;
    so it has between one and four atomic statements. *)
Theorem randomStatement_nesting rnd fuel context maxLayer s st s' :
  (context < length (contexts s))%nat →
  randomStatement rnd fuel context maxLayer s = (Ok st, s') →
  well_nested st ∧
  ∃ array, subjectBitsArray st = Some array ∧ (1 ≤ length array ≤ 4)%nat.
Proof.
  intros Hc H. destruct (randomStatement_struct _ _ _ _ _ _ _ H Hc) as (_ & Hw & _).
  split; [exact Hw | by apply well_nested_atoms].
Qed.

Lemma randomStatement_nesting_witness :
  ∃ st s',
    (0 < length (contexts two_people))%nat ∧
    randomStatement (replay draws_statement) 5 0%nat Infinity two_people = (Ok st, s') ∧
    well_nested st ∧
    ∃ array, subjectBitsArray st = Some array ∧ (1 ≤ length array ≤ 4)%nat.
Proof.
  eexists _, _. split; [simpl; lia|]. split; [vm_compute; reflexivity|].
  eapply (randomStatement_nesting (replay draws_statement) 5 0%nat Infinity two_people).
  - simpl; lia.
  - vm_compute. reflexivity.
Defined.

(** X18.  The statement returned by [randomStatement(context, maxLayer)]
    has [context] as its context, unchanged; the context of each of its
    parts, at any depth, is an object created during the call, with the
    [personCount], [speakerIndex] and [complexityFactor] of [context] and
    with [isRoot] false. *)
Theorem randomStatement_part_contexts rnd fuel context maxLayer s st s' :
  (context < length (contexts s))%nat →
  randomStatement rnd fuel context maxLayer s = (Ok st, s') →
  context_of st = context ∧
  contexts s' !! context = contexts s !! context ∧
  ∀ c, c ∈ part_contexts st →
    (length (contexts s) ≤ c < length (contexts s'))%nat ∧
    personCount (contexts s' !!! c) = personCount (contexts s !!! context) ∧
    speakerIndex (contexts s' !!! c) = speakerIndex (contexts s !!! context) ∧
    complexityFactor (contexts s' !!! c) = complexityFactor (contexts s !!! context) ∧
    isRoot (contexts s' !!! c) = false.
Proof.
  intros Hc H. destruct (randomStatement_struct _ _ _ _ _ _ _ H Hc) as (Hctx & _ & Hp).
  split; [exact Hctx|]. split.
  - destruct (randomStatement_with_frame _ _ _ _ _ _ _ H) as (Hpre & _).
    symmetry. apply prefix_lookup_lt; assumption.
  - intros c Hin. rewrite Forall_forall in Hp.
    destruct (Hp c Hin) as (? & (? & ? & ?) & ?). auto.
Qed.

Lemma randomStatement_part_contexts_witness :
  ∃ st s',
    (0 < length (contexts two_people))%nat ∧
    randomStatement (replay draws_statement) 5 0%nat Infinity two_people = (Ok st, s') ∧
    context_of st = 0%nat ∧
    contexts s' !! 0%nat = contexts two_people !! 0%nat ∧
    ∀ c, c ∈ part_contexts st →
      (length (contexts two_people) ≤ c < length (contexts s'))%nat ∧
      personCount (contexts s' !!! c) = personCount (contexts two_people !!! 0%nat) ∧
      speakerIndex (contexts s' !!! c) = speakerIndex (contexts two_people !!! 0%nat) ∧
      complexityFactor (contexts s' !!! c)
      = complexityFactor (contexts two_people !!! 0%nat) ∧
      isRoot (contexts s' !!! c) = false.
Proof.
  eexists _, _. split; [simpl; lia|]. split; [vm_compute; reflexivity|].
  eapply (randomStatement_part_contexts (replay draws_statement) 5 0%nat Infinity
            two_people).
  - simpl; lia.
  - vm_compute. reflexivity.
Defined.

(** ** What the rejection loops leave *)

Section Rejections.

Variable rnd : nat → Q.

Lemma LogicalAndStatement_random_rejections fuel : ∀ context s st s',
  LogicalAndStatement_random rnd fuel context s = (Ok st, s') →
  ∃ s1 s2, st = LogicalAndStatement context s1 s2 ∧
    implies (contexts s') s1 st = false ∧
    implies (contexts s') s2 st = false ∧
    isTautology (contexts s') (BasicLogicalNotStatement st) = false.
Proof.
  induction fuel as [|fuel IH]; intros context s st s' H; [discriminate|].
  rewrite LogicalAndStatement_random_S in H.
  do 7 bind_inv H. prim_inv E5.
  destruct (_ || _ || _) eqn:Hcheck in H.
  - eapply IH, H.
  - prim_inv H. apply orb_false_elim in Hcheck as [Hcheck H3].
    apply orb_false_elim in Hcheck as [H1 H2]. eauto 6.
Qed.

Lemma LogicalOrStatement_random_rejections fuel : ∀ context s st s',
  LogicalOrStatement_random rnd fuel context s = (Ok st, s') →
  ∃ s1 s2, st = LogicalOrStatement context s1 s2 ∧
    implies (contexts s') st s1 = false ∧
    implies (contexts s') st s2 = false ∧
    isTautology (contexts s') st = false.
Proof.
  induction fuel as [|fuel IH]; intros context s st s' H; [discriminate|].
  rewrite LogicalOrStatement_random_S in H.
  do 7 bind_inv H. prim_inv E5.
  destruct (_ || _ || _) eqn:Hcheck in H.
  - eapply IH, H.
  - prim_inv H. apply orb_false_elim in Hcheck as [Hcheck H3].
    apply orb_false_elim in Hcheck as [H1 H2]. eauto 6.
Qed.

Lemma LogicalIfStatement_random_rejections fuel : ∀ context s st s',
  LogicalIfStatement_random rnd fuel context s = (Ok st, s') →
  ∃ antecedent consequent, st = LogicalIfStatement context antecedent consequent ∧
    implies (contexts s') st (BasicLogicalNotStatement antecedent) = false ∧
    implies (contexts s') st consequent = false ∧
    isTautology (contexts s') st = false.
Proof.
  induction fuel as [|fuel IH]; intros context s st s' H; [discriminate|].
  rewrite LogicalIfStatement_random_S in H.
  do 10 bind_inv H.
  destruct (_ || _ || _) eqn:Hcheck in H.
  - eapply IH, H.
  - prim_inv H. prim_inv E8. apply orb_false_elim in Hcheck as [Hcheck H3].
    apply orb_false_elim in Hcheck as [H1 H2]. eauto 6.
Qed.

(** The person count seen by the checks of a compound made by [random_of]
    on [context]: that of the caller's context, for the compound and for
    each of its parts. *)
Lemma compound_person_counts classChoice fuel context s st s' :
  random_of rnd classChoice fuel context s = (Ok st, s') →
  (context < length (contexts s))%nat →
  personCount (contexts s' !!! context) = personCount (contexts s !!! context) ∧
  ∀ c, c ∈ part_contexts st →
       personCount (contexts s' !!! c) = personCount (contexts s !!! context).
Proof.
  intros H Hc.
  destruct (random_of_frame _ _ _ _ _ _ _ H) as (Hpre & _).
  destruct (proj2 (structure_spec rnd fuel) _ _ _ _ _ H Hc) as (_ & _ & Hp).
  split.
  - unfold ref in *. rewrite (prefix_lookup_total _ _ _ Hpre Hc). reflexivity.
  - intros c Hin. rewrite Forall_forall in Hp.
    destruct (Hp c Hin) as (_ & (E & _) & _). exact E.
Qed.

End Rejections.

(** X19.  For up to 30 people, a conjunction returned by
    [LogicalAndStatement.random] can be true: its negation is not a
    tautology, and among the assignments in [0, 2^N) one makes both
    conjuncts true, one makes only the first true and one makes only the
    second true. *)
Theorem LogicalAndStatement_random_parts rnd fuel context s st s' :
  (context < length (contexts s))%nat →
  0 <= personCount (contexts s !!! context) <= 30 →
  LogicalAndStatement_random rnd fuel context s = (Ok st, s') →
  ∃ s1 s2, st = LogicalAndStatement context s1 s2 ∧
    isTautology (contexts s') (BasicLogicalNotStatement st) = false ∧
    let N := personCount (contexts s !!! context) in
    (∃ a, 0 <= a < 2 ^ N ∧ isTrueOn s1 a = true ∧ isTrueOn s2 a = true) ∧
    (∃ a, 0 <= a < 2 ^ N ∧ isTrueOn s1 a = true ∧ isTrueOn s2 a = false) ∧
    (∃ a, 0 <= a < 2 ^ N ∧ isTrueOn s1 a = false ∧ isTrueOn s2 a = true).
Proof.
  intros Hc HN H.
  destruct (compound_person_counts rnd ClassLogicalAnd _ _ _ _ _ H Hc) as [N0 Np].
  destruct (LogicalAndStatement_random_rejections _ _ _ _ _ _ H)
    as (s1 & s2 & -> & H1 & H2 & H3).
  exists s1, s2. split; [reflexivity|]. split; [exact H3|].
  assert (N1 : personCount (contexts s' !!! context_of s1)
               = personCount (contexts s !!! context)).
  { apply Np. cbn [part_contexts]. left. }
  assert (N2 : personCount (contexts s' !!! context_of s2)
               = personCount (contexts s !!! context)).
  { apply Np. cbn [part_contexts]. right. apply elem_of_app. right. left. }
  apply implies_false_iff in H1; [|rewrite N1; exact HN].
  apply implies_false_iff in H2; [|rewrite N2; exact HN].
  apply isTautology_false_iff in H3; [|cbn [context_of]; rewrite N0; exact HN].
  rewrite N1 in H1. rewrite N2 in H2. cbn [context_of] in H3. rewrite N0 in H3.
  cbn [isTrueOn] in H1, H2, H3.
  destruct H1 as (a1 & R1 & T1 & F1), H2 as (a2 & R2 & T2 & F2), H3 as (a3 & R3 & F3).
  cbn zeta. split; [|split].
  - exists a3. split; [exact R3|]. apply negb_false_iff, andb_true_iff in F3. exact F3.
  - exists a1. split; [exact R1|]. rewrite T1 in F1. simpl in F1. auto.
  - exists a2. split; [exact R2|]. rewrite T2, andb_true_r in F2. auto.
Qed.

Lemma LogicalAndStatement_random_parts_witness :
  (0 < length (contexts two_people))%nat ∧
  0 <= personCount (contexts two_people !!! 0%nat) <= 30 ∧
  ∃ st s',
    LogicalAndStatement_random (replay draws_and) 5 0%nat two_people = (Ok st, s') ∧
    ∃ s1 s2, st = LogicalAndStatement 0%nat s1 s2 ∧
      isTautology (contexts s') (BasicLogicalNotStatement st) = false ∧
      let N := personCount (contexts two_people !!! 0%nat) in
      (∃ a, 0 <= a < 2 ^ N ∧ isTrueOn s1 a = true ∧ isTrueOn s2 a = true) ∧
      (∃ a, 0 <= a < 2 ^ N ∧ isTrueOn s1 a = true ∧ isTrueOn s2 a = false) ∧
      (∃ a, 0 <= a < 2 ^ N ∧ isTrueOn s1 a = false ∧ isTrueOn s2 a = true).
Proof.
  split; [simpl; lia|]. split; [simpl; lia|].
  eexists _, _. split; [vm_compute; reflexivity|].
  eapply (LogicalAndStatement_random_parts (replay draws_and) 5 0%nat two_people).
  - simpl; lia.
  - simpl; lia.
  - vm_compute. reflexivity.
Defined.

(** X20.  For up to 30 people, a disjunction returned by
    [LogicalOrStatement.random] is not a tautology, and among the
    assignments in [0, 2^N) one makes both disjuncts false, one makes only
    the first true and one makes only the second true. *)
Theorem LogicalOrStatement_random_parts rnd fuel context s st s' :
  (context < length (contexts s))%nat →
  0 <= personCount (contexts s !!! context) <= 30 →
  LogicalOrStatement_random rnd fuel context s = (Ok st, s') →
  ∃ s1 s2, st = LogicalOrStatement context s1 s2 ∧
    isTautology (contexts s') st = false ∧
    let N := personCount (contexts s !!! context) in
    (∃ a, 0 <= a < 2 ^ N ∧ isTrueOn s1 a = false ∧ isTrueOn s2 a = false) ∧
    (∃ a, 0 <= a < 2 ^ N ∧ isTrueOn s1 a = true ∧ isTrueOn s2 a = false) ∧
    (∃ a, 0 <= a < 2 ^ N ∧ isTrueOn s1 a = false ∧ isTrueOn s2 a = true).
Proof.
  intros Hc HN H.
  destruct (compound_person_counts rnd ClassLogicalOr _ _ _ _ _ H Hc) as [N0 _].
  destruct (LogicalOrStatement_random_rejections _ _ _ _ _ _ H)
    as (s1 & s2 & -> & H1 & H2 & H3).
  exists s1, s2. split; [reflexivity|]. split; [exact H3|].
  apply implies_false_iff in H1; [|cbn [context_of]; rewrite N0; exact HN].
  apply implies_false_iff in H2; [|cbn [context_of]; rewrite N0; exact HN].
  apply isTautology_false_iff in H3; [|cbn [context_of]; rewrite N0; exact HN].
  cbn [context_of] in H1, H2, H3. rewrite N0 in H1, H2, H3.
  cbn [isTrueOn] in H1, H2, H3.
  destruct H1 as (a1 & R1 & T1 & F1), H2 as (a2 & R2 & T2 & F2), H3 as (a3 & R3 & F3).
  cbn zeta. split; [|split].
  - exists a3. split; [exact R3|]. apply orb_false_iff in F3. exact F3.
  - exists a2. split; [exact R2|]. rewrite F2, orb_false_r in T2. auto.
  - exists a1. split; [exact R1|]. rewrite F1 in T1. simpl in T1. auto.
Qed.

Lemma LogicalOrStatement_random_parts_witness :
  (0 < length (contexts two_people))%nat ∧
  0 <= personCount (contexts two_people !!! 0%nat) <= 30 ∧
  ∃ st s',
    LogicalOrStatement_random (replay draws_or) 5 0%nat two_people = (Ok st, s') ∧
    ∃ s1 s2, st = LogicalOrStatement 0%nat s1 s2 ∧
      isTautology (contexts s') st = false ∧
      let N := personCount (contexts two_people !!! 0%nat) in
      (∃ a, 0 <= a < 2 ^ N ∧ isTrueOn s1 a = false ∧ isTrueOn s2 a = false) ∧
      (∃ a, 0 <= a < 2 ^ N ∧ isTrueOn s1 a = true ∧ isTrueOn s2 a = false) ∧
      (∃ a, 0 <= a < 2 ^ N ∧ isTrueOn s1 a = false ∧ isTrueOn s2 a = true).
Proof.
  split; [simpl; lia|]. split; [simpl; lia|].
  eexists _, _. split; [vm_compute; reflexivity|].
  eapply (LogicalOrStatement_random_parts (replay draws_or) 5 0%nat two_people).
  - simpl; lia.
  - simpl; lia.
  - vm_compute. reflexivity.
Defined.

(** X21.  A conditional returned by [LogicalIfStatement.random] passed the
    three checks of the loop: it does not imply the negation of its
    antecedent, it does not imply its consequent, and it is not a
    tautology.  For up to 30 people this means that among the assignments
    in [0, 2^N) one makes antecedent and consequent true, one makes both
    false, and one makes the antecedent true and the consequent false. *)
Theorem LogicalIfStatement_random_parts rnd fuel context s st s' :
  (context < length (contexts s))%nat →
  0 <= personCount (contexts s !!! context) <= 30 →
  LogicalIfStatement_random rnd fuel context s = (Ok st, s') →
  ∃ antecedent consequent, st = LogicalIfStatement context antecedent consequent ∧
    implies (contexts s') st (BasicLogicalNotStatement antecedent) = false ∧
    implies (contexts s') st consequent = false ∧
    isTautology (contexts s') st = false ∧
    let N := personCount (contexts s !!! context) in
    (∃ a, 0 <= a < 2 ^ N ∧ isTrueOn antecedent a = true ∧ isTrueOn consequent a = true) ∧
    (∃ a, 0 <= a < 2 ^ N ∧ isTrueOn antecedent a = false ∧ isTrueOn consequent a = false) ∧
    (∃ a, 0 <= a < 2 ^ N ∧ isTrueOn antecedent a = true ∧ isTrueOn consequent a = false).
Proof.
  intros Hc HN H.
  destruct (compound_person_counts rnd ClassLogicalIf _ _ _ _ _ H Hc) as [N0 _].
  destruct (LogicalIfStatement_random_rejections _ _ _ _ _ _ H)
    as (s1 & s2 & -> & H1 & H2 & H3).
  exists s1, s2. split; [reflexivity|]. do 3 (split; [assumption|]).
  apply implies_false_iff in H1; [|cbn [context_of]; rewrite N0; exact HN].
  apply implies_false_iff in H2; [|cbn [context_of]; rewrite N0; exact HN].
  apply isTautology_false_iff in H3; [|cbn [context_of]; rewrite N0; exact HN].
  cbn [context_of] in H1, H2, H3. rewrite N0 in H1, H2, H3.
  cbn [isTrueOn] in H1, H2, H3.
  destruct H1 as (a1 & R1 & T1 & F1), H2 as (a2 & R2 & T2 & F2), H3 as (a3 & R3 & F3).
  cbn zeta. split; [|split].
  - exists a1. split; [exact R1|]. apply negb_false_iff in F1.
    rewrite F1 in T1. simpl in T1. auto.
  - exists a2. split; [exact R2|]. rewrite F2, orb_false_r in T2.
    apply negb_true_iff in T2. auto.
  - exists a3. split; [exact R3|]. apply orb_false_iff in F3 as [F3 F4].
    apply negb_false_iff in F3. auto.
Qed.

Lemma LogicalIfStatement_random_parts_witness :
  (0 < length (contexts two_people))%nat ∧
  0 <= personCount (contexts two_people !!! 0%nat) <= 30 ∧
  ∃ st s',
    LogicalIfStatement_random (replay draws_if) 5 0%nat two_people = (Ok st, s') ∧
    ∃ antecedent consequent, st = LogicalIfStatement 0%nat antecedent consequent ∧
      implies (contexts s') st (BasicLogicalNotStatement antecedent) = false ∧
      implies (contexts s') st consequent = false ∧
      isTautology (contexts s') st = false ∧
      let N := personCount (contexts two_people !!! 0%nat) in
      (∃ a, 0 <= a < 2 ^ N ∧ isTrueOn antecedent a = true ∧ isTrueOn consequent a = true) ∧
      (∃ a, 0 <= a < 2 ^ N ∧ isTrueOn antecedent a = false ∧ isTrueOn consequent a = false) ∧
      (∃ a, 0 <= a < 2 ^ N ∧ isTrueOn antecedent a = true ∧ isTrueOn consequent a = false).
Proof.
  split; [simpl; lia|]. split; [simpl; lia|].
  eexists _, _. split; [vm_compute; reflexivity|].
  eapply (LogicalIfStatement_random_parts (replay draws_if) 5 0%nat two_people).
  - simpl; lia.
  - simpl; lia.
  - vm_compute. reflexivity.
Defined.

(** ** Rendering *)

Lemma ends_with_app {A} (x y e : list A) :
  (∃ body, y = body ++ e) → ∃ body, x ++ y = body ++ e.
Proof. intros [body ->]. exists (x ++ body). apply app_assoc. Qed.

Lemma ends_with_refl {A} (e : list A) : ∃ body, e = body ++ e.
Proof. exists []. reflexivity. Qed.

Lemma Ok_inj {A} (a b : A) : Ok a = Ok b → a = b.
Proof. intros H. injection H as H. exact H. Qed.

Lemma compound_sentence_ending c opening a middle b sen :
  compound_sentence c opening a middle b = Ok sen →
  ∃ body, sen = body ++ root_ending c.
Proof.
  unfold compound_sentence. destruct a as [a|e|]; try discriminate.
  destruct b as [b|e|]; try discriminate.
  intros H. injection H as <-.
  do 4 apply ends_with_app. apply ends_with_refl.
Qed.

Lemma TypeCountStatement_sentence_ending c subjectBits liarCountBits sen :
  TypeCountStatement_sentence c subjectBits liarCountBits = Ok sen →
  ∃ body, sen = body ++ root_ending c.
Proof.
  unfold TypeCountStatement_sentence. cbv zeta.
  match goal with
  | |- match ?x with _ => _ end = _ → _ => destruct x as [subjects|e|]
  end; try discriminate.
  intros H. apply Ok_inj in H. rewrite <- H.
  apply ends_with_app, ends_with_app, ends_with_refl.
Qed.

Lemma sentence_root_ending h st sen :
  sentence h st = Ok sen → ∃ body, sen = body ++ root_ending (h !!! context_of st).
Proof.
  destruct st; cbn [sentence context_of]; try discriminate.
  - intros H. injection H as <-. unfold TrueFalseStatement_sentence.
    do 3 apply ends_with_app. apply ends_with_refl.
  - apply TypeCountStatement_sentence_ending.
  - apply compound_sentence_ending.
  - apply compound_sentence_ending.
  - apply compound_sentence_ending.
Qed.

Lemma TypeCountStatement_sentence_ok c subjectBits liarCountBits :
  0 <= personCount c < 2 ^ 32 →
  ∃ sen, TypeCountStatement_sentence c subjectBits liarCountBits = Ok sen.
Proof.
  intros HN. unfold TypeCountStatement_sentence, array_keys. cbv zeta.
  replace ((0 <=? personCount c) && (personCount c <? 2 ^ 32)) with true.
  2:{ symmetry. apply andb_true_iff. split; [apply Z.leb_le | apply Z.ltb_lt]; lia. }
  destruct (subjectBits =? _); eexists; reflexivity.
Qed.

Lemma sentence_generated_ok h st :
  generated st →
  Forall (λ c, 0 <= personCount (h !!! c) < 2 ^ 32) (context_of st :: part_contexts st) →
  ∃ sen, sentence h st = Ok sen.
Proof.
  induction st; cbn [generated sentence context_of part_contexts]; try tauto.
  - intros _ _. eexists. reflexivity.
  - intros _ H. apply Forall_cons in H as [H _].
    apply TypeCountStatement_sentence_ok. exact H.
  - intros [G1 G2] H. apply Forall_cons in H as [_ H].
    rewrite app_comm_cons in H. apply Forall_app in H as [H1 H2].
    destruct (IHst1 G1 H1) as [a ->]. destruct (IHst2 G2 H2) as [b ->].
    eexists. reflexivity.
  - intros [G1 G2] H. apply Forall_cons in H as [_ H].
    rewrite app_comm_cons in H. apply Forall_app in H as [H1 H2].
    destruct (IHst1 G1 H1) as [a ->]. destruct (IHst2 G2 H2) as [b ->].
    eexists. reflexivity.
  - intros [G1 G2] H. apply Forall_cons in H as [_ H].
    rewrite app_comm_cons in H. apply Forall_app in H as [H1 H2].
    destruct (IHst1 G1 H1) as [a ->]. destruct (IHst2 G2 H2) as [b ->].
    eexists. reflexivity.
Qed.

Lemma randomStatement_renders rnd fuel context maxLayer s st s' :
  (context < length (contexts s))%nat →
  0 <= personCount (contexts s !!! context) < 2 ^ 32 →
  randomStatement rnd fuel context maxLayer s = (Ok st, s') →
  ∃ body, sentence (contexts s') st
          = Ok (body ++ root_ending (contexts s !!! context)).
Proof.
  intros Hc HN H.
  destruct (randomStatement_with_frame _ _ _ _ _ _ _ H) as (Hpre & Hgen & _ & _).
  destruct (randomStatement_struct _ _ _ _ _ _ _ H Hc) as (Hctx & _ & Hparts).
  assert (E0 : contexts s' !!! context = contexts s !!! context).
  { unfold ref in *. apply prefix_lookup_total; assumption. }
  destruct (sentence_generated_ok (contexts s') st Hgen) as [sen Hsen].
  { constructor.
    - rewrite Hctx. unfold ref in *. rewrite E0. exact HN.
    - eapply Forall_impl; [exact Hparts|]. intros c (_ & (E & _) & _).
      unfold ref in *. rewrite E. exact HN. }
  destruct (sentence_root_ending _ _ _ Hsen) as [body ->].
  exists body. rewrite Hsen, Hctx. unfold ref in *. rewrite E0. reflexivity.
Qed.

(** *** The closing of a root sentence *)

Lemma open_ended_app (x y : jsstring) :
  open_ended y → open_ended (x ++ y).
Proof.
  intros (a & Ha & Hne). exists a. split; [|exact Hne].
  rewrite last_app, Ha. reflexivity.
Qed.

Lemma personTypeStringFromBool_open b : open_ended (personTypeStringFromBool b).
Proof.
  destruct b; unfold personTypeStringFromBool;
    eexists; (split; [vm_compute; reflexivity | vm_compute; discriminate]).
Qed.

Lemma particle_open c : open_ended (particle c).
Proof.
  unfold particle.
  destruct (shouldUseGa c); eexists; (split; [vm_compute; reflexivity | vm_compute; discriminate]).
Qed.

Lemma join_open separator (strings : list jsstring) :
  strings ≠ [] → Forall open_ended strings → open_ended (join separator strings).
Proof.
  induction strings as [|s rest IH]; intros Hne Hall; [congruence|].
  apply Forall_cons in Hall as [Hs Hrest].
  destruct rest as [|s' rest'].
  - exact Hs.
  - change (join separator (s :: s' :: rest'))
      with (s ++ separator ++ join separator (s' :: rest')).
    apply open_ended_app, open_ended_app. apply IH; [discriminate | exact Hrest].
Qed.

(** A string literal that does not end with the full stop. *)
Ltac closed_open_ended :=
  eexists; split; [vm_compute; reflexivity | vm_compute; discriminate].

Lemma TypeCountStatement_sentence_body c subjectBits liarCountBits sen :
  TypeCountStatement_sentence c subjectBits liarCountBits = Ok sen →
  ∃ body, sen = body ++ root_ending c ∧ open_ended body.
Proof.
  unfold TypeCountStatement_sentence. cbv zeta.
  match goal with
  | |- match ?x with _ => _ end = _ → _ => destruct x as [subjects|e|]
  end; try discriminate.
  intros H. apply Ok_inj in H. rewrite <- H. clear H.
  eexists. split; [rewrite app_assoc; reflexivity|].
  apply open_ended_app.
  destruct (_ || _).
  - apply open_ended_app, personTypeStringFromBool_open.
  - apply open_ended_app.
    destruct (_ =? 0).
    + do 2 apply open_ended_app. closed_open_ended.
    + destruct (_ =? 0).
      * do 2 apply open_ended_app. closed_open_ended.
      * match goal with
        | |- open_ended (_ ++ join _ (map _ ?l)) => destruct l as [|i l'] eqn:El
        end.
        -- simpl. rewrite app_nil_r. apply particle_open.
        -- apply open_ended_app, join_open; [discriminate|].
           apply Forall_forall. intros x Hx. apply list_elem_of_fmap in Hx as (j & -> & _).
           apply open_ended_app. closed_open_ended.
Qed.

Lemma sentence_body h st : ∀ sen,
  sentence h st = Ok sen →
  Forall (λ c, isRoot (h !!! c) = false) (part_contexts st) →
  ∃ body, sen = body ++ root_ending (h !!! context_of st) ∧ open_ended body.
Proof.
  induction st; intros sen H Hparts; cbn [sentence context_of part_contexts] in *;
    try discriminate.
  - apply Ok_inj in H. rewrite <- H. unfold TrueFalseStatement_sentence.
    eexists. split; [rewrite !app_assoc; reflexivity|].
    apply open_ended_app, personTypeStringFromBool_open.
  - apply TypeCountStatement_sentence_body in H. exact H.
  - apply Forall_cons in Hparts as [_ Hparts].
    apply Forall_app in Hparts as [_ Hparts].
    apply Forall_cons in Hparts as [Hc2 Hparts2].
    unfold compound_sentence in H.
    destruct (sentence h st1) as [a|e|]; try discriminate.
    destruct (sentence h st2) as [b|e|] eqn:E2; try discriminate.
    apply Ok_inj in H. rewrite <- H.
    destruct (IHst2 b eq_refl Hparts2) as (body2 & -> & Hopen).
    unfold root_ending at 1. unfold ref in *. rewrite Hc2, app_nil_r.
    eexists. split; [rewrite !app_assoc; reflexivity|].
    rewrite <- !app_assoc. do 3 apply open_ended_app. exact Hopen.
  - apply Forall_cons in Hparts as [_ Hparts].
    apply Forall_app in Hparts as [_ Hparts].
    apply Forall_cons in Hparts as [Hc2 Hparts2].
    unfold compound_sentence in H.
    destruct (sentence h st1) as [a|e|]; try discriminate.
    destruct (sentence h st2) as [b|e|] eqn:E2; try discriminate.
    apply Ok_inj in H. rewrite <- H.
    destruct (IHst2 b eq_refl Hparts2) as (body2 & -> & Hopen).
    unfold root_ending at 1. unfold ref in *. rewrite Hc2, app_nil_r.
    eexists. split; [rewrite !app_assoc; reflexivity|].
    rewrite <- !app_assoc. do 3 apply open_ended_app. exact Hopen.
  - apply Forall_cons in Hparts as [_ Hparts].
    apply Forall_app in Hparts as [_ Hparts].
    apply Forall_cons in Hparts as [Hc2 Hparts2].
    unfold compound_sentence in H.
    destruct (sentence h st1) as [a|e|]; try discriminate.
    destruct (sentence h st2) as [b|e|] eqn:E2; try discriminate.
    apply Ok_inj in H. rewrite <- H.
    destruct (IHst2 b eq_refl Hparts2) as (body2 & -> & Hopen).
    unfold root_ending at 1. unfold ref in *. rewrite Hc2, app_nil_r.
    eexists. split; [rewrite !app_assoc; reflexivity|].
    rewrite <- !app_assoc. do 3 apply open_ended_app. exact Hopen.
Qed.

Lemma sentence_frame (h : store) f (c0 : ref) st :
  c0 ∉ context_of st :: part_contexts st →
  sentence (alter f c0 h) st = sentence h st.
Proof.
  induction st; intros Hc; cbn [sentence context_of part_contexts] in *;
    try reflexivity.
  - rewrite not_elem_of_cons in Hc. destruct Hc as [Hc _].
    unfold ref in *. rewrite list_lookup_total_alter_ne by congruence. reflexivity.
  - rewrite not_elem_of_cons in Hc. destruct Hc as [Hc _].
    unfold ref in *. rewrite list_lookup_total_alter_ne by congruence. reflexivity.
  - rewrite !not_elem_of_cons, not_elem_of_app, !not_elem_of_cons in Hc.
    destruct Hc as (Hc & Hc1 & Hp1 & Hc2 & Hp2).
    rewrite IHst1, IHst2 by (rewrite not_elem_of_cons; split; assumption).
    unfold ref in *. rewrite list_lookup_total_alter_ne by congruence. reflexivity.
  - rewrite !not_elem_of_cons, not_elem_of_app, !not_elem_of_cons in Hc.
    destruct Hc as (Hc & Hc1 & Hp1 & Hc2 & Hp2).
    rewrite IHst1, IHst2 by (rewrite not_elem_of_cons; split; assumption).
    unfold ref in *. rewrite list_lookup_total_alter_ne by congruence. reflexivity.
  - rewrite !not_elem_of_cons, not_elem_of_app, !not_elem_of_cons in Hc.
    destruct Hc as (Hc & Hc1 & Hp1 & Hc2 & Hp2).
    rewrite IHst1, IHst2 by (rewrite not_elem_of_cons; split; assumption).
    unfold ref in *. rewrite list_lookup_total_alter_ne by congruence. reflexivity.
Qed.

Lemma TrueFalseStatement_sentence_isRoot o v subjectIndex isTruthTeller body :
  TrueFalseStatement_sentence o subjectIndex isTruthTeller = body ++ root_ending o →
  TrueFalseStatement_sentence (with_isRoot v o) subjectIndex isTruthTeller
  = body ++ root_ending (with_isRoot v o).
Proof.
  unfold TrueFalseStatement_sentence, particle, with_isRoot.
  cbn [personCount speakerIndex shouldUseGa preconditionPredicate].
  rewrite !app_assoc. intros H. apply app_inv_tail in H. rewrite H. reflexivity.
Qed.

Lemma TypeCountStatement_sentence_isRoot o v subjectBits liarCountBits body :
  TypeCountStatement_sentence o subjectBits liarCountBits = Ok (body ++ root_ending o) →
  TypeCountStatement_sentence (with_isRoot v o) subjectBits liarCountBits
  = Ok (body ++ root_ending (with_isRoot v o)).
Proof.
  unfold TypeCountStatement_sentence, particle, with_isRoot. cbv zeta.
  cbn [personCount speakerIndex shouldUseGa preconditionPredicate].
  match goal with
  | |- match ?x with _ => _ end = _ → _ => destruct x as [subjects|e|]
  end; try discriminate.
  intros H. apply Ok_inj in H. rewrite !app_assoc in H. apply app_inv_tail in H.
  f_equal. rewrite !app_assoc. rewrite H. reflexivity.
Qed.

Lemma compound_sentence_isRoot o v opening a middle b body :
  compound_sentence o opening a middle b = Ok (body ++ root_ending o) →
  compound_sentence (with_isRoot v o) opening a middle b
  = Ok (body ++ root_ending (with_isRoot v o)).
Proof.
  unfold compound_sentence.
  destruct a as [a|e|]; try discriminate. destruct b as [b|e|]; try discriminate.
  intros H. apply Ok_inj in H. rewrite !app_assoc in H. apply app_inv_tail in H.
  f_equal. rewrite !app_assoc. rewrite H. reflexivity.
Qed.

Lemma sentence_isRoot (h : store) (c0 : ref) v st body :
  context_of st = c0 → c0 ∉ part_contexts st → (c0 < length h)%nat →
  sentence h st = Ok (body ++ root_ending (h !!! c0)) →
  sentence (alter (with_isRoot v) c0 h) st = Ok (body ++ if v then lit "です。" else []).
Proof.
  intros Hc Hparts Hlt H.
  change (if v then lit "です。" else []) with (root_ending (with_isRoot v (h !!! c0))).
  destruct st; cbn [sentence context_of part_contexts] in *; try discriminate; subst c0.
  - unfold ref in *. rewrite list_lookup_total_alter_eq by assumption.
    f_equal. apply TrueFalseStatement_sentence_isRoot. apply Ok_inj in H. exact H.
  - unfold ref in *. rewrite list_lookup_total_alter_eq by assumption.
    apply TypeCountStatement_sentence_isRoot. exact H.
  - rewrite !not_elem_of_cons, not_elem_of_app, !not_elem_of_cons in Hparts.
    destruct Hparts as (Hc1 & Hp1 & Hc2 & Hp2).
    rewrite !sentence_frame by (rewrite not_elem_of_cons; split; assumption).
    unfold ref in *. rewrite list_lookup_total_alter_eq by assumption.
    apply compound_sentence_isRoot. exact H.
  - rewrite !not_elem_of_cons, not_elem_of_app, !not_elem_of_cons in Hparts.
    destruct Hparts as (Hc1 & Hp1 & Hc2 & Hp2).
    rewrite !sentence_frame by (rewrite not_elem_of_cons; split; assumption).
    unfold ref in *. rewrite list_lookup_total_alter_eq by assumption.
    apply compound_sentence_isRoot. exact H.
  - rewrite !not_elem_of_cons, not_elem_of_app, !not_elem_of_cons in Hparts.
    destruct Hparts as (Hc1 & Hp1 & Hc2 & Hp2).
    rewrite !sentence_frame by (rewrite not_elem_of_cons; split; assumption).
    unfold ref in *. rewrite list_lookup_total_alter_eq by assumption.
    apply compound_sentence_isRoot. exact H.
Qed.

(** X22.  For a context that exists and a person count in [0, 2^32),
    [sentence()] does not throw on a statement returned by
    [randomStatement].  The string it returns is a body followed by the
    closing of a root sentence exactly when [context.isRoot] is true: the
    body is not empty and does not end with the full stop, and it is the
    same for both values of the flag, so that an assignment to
    [context.isRoot] adds or removes the closing and changes nothing else
    of the sentence. *)
Theorem randomStatement_sentence rnd fuel context maxLayer s st s' :
  (context < length (contexts s))%nat →
  0 <= personCount (contexts s !!! context) < 2 ^ 32 →
  randomStatement rnd fuel context maxLayer s = (Ok st, s') →
  ∃ body,
    open_ended body ∧
    sentence (contexts s') st
    = Ok (body ++ if isRoot (contexts s !!! context) then lit "です。" else []) ∧
    ∀ v, sentence (contexts (snd (set_isRoot context v s'))) st
         = Ok (body ++ if v then lit "です。" else []).
Proof.
  intros Hc HN H.
  destruct (randomStatement_with_frame _ _ _ _ _ _ _ H) as (Hpre & Hgen & _ & _).
  destruct (randomStatement_struct _ _ _ _ _ _ _ H Hc) as (Hctx & _ & Hparts).
  pose proof (prefix_length _ _ Hpre) as Hlen.
  assert (E0 : contexts s' !!! context = contexts s !!! context).
  { unfold ref in *. apply prefix_lookup_total; assumption. }
  destruct (sentence_generated_ok (contexts s') st Hgen) as [sen Hsen].
  { constructor.
    - rewrite Hctx. unfold ref in *. rewrite E0. exact HN.
    - eapply Forall_impl; [exact Hparts|]. intros c (_ & (E & _) & _).
      unfold ref in *. rewrite E. exact HN. }
  destruct (sentence_body _ _ _ Hsen) as (body & -> & Hopen).
  { eapply Forall_impl; [exact Hparts|]. intros c (_ & _ & Hr). exact Hr. }
  rewrite Hctx in Hsen.
  exists body. split; [exact Hopen|]. split.
  - rewrite Hsen. unfold ref in *. rewrite E0. reflexivity.
  - intros v. cbn [set_isRoot update_context snd contexts].
    apply (sentence_isRoot (contexts s') context v st body).
    + exact Hctx.
    + intros Hin. rewrite Forall_forall in Hparts.
      destruct (Hparts _ Hin) as [[Hge _] _]. lia.
    + lia.
    + exact Hsen.
Qed.

Lemma randomStatement_sentence_witness :
  ∃ st s',
    (0 < length (contexts two_people))%nat ∧
    0 <= personCount (contexts two_people !!! 0%nat) < 2 ^ 32 ∧
    randomStatement (replay draws_statement) 5 0%nat Infinity two_people = (Ok st, s') ∧
    ∃ body,
      open_ended body ∧
      sentence (contexts s') st
      = Ok (body ++ if isRoot (contexts two_people !!! 0%nat)
                    then lit "です。" else []) ∧
      ∀ v, sentence (contexts (snd (set_isRoot 0%nat v s'))) st
           = Ok (body ++ if v then lit "です。" else []).
Proof.
  eexists _, _. split; [simpl; lia|]. split; [simpl; lia|].
  split; [vm_compute; reflexivity|].
  eapply (randomStatement_sentence (replay draws_statement) 5 0%nat Infinity two_people).
  - simpl; lia.
  - simpl; lia.
  - vm_compute. reflexivity.
Defined.

(** ** The contexts of the parts *)

Section PartFields.

Variable rnd : nat → Q.

(** A nested call on the fresh context [c] returns a statement on [c] and
    keeps the objects of the store. *)
Lemma part_call fuel c maxLayer s1 st1 s2 :
  randomStatement_with (randomStatement_loop rnd fuel) c maxLayer s1 = (Ok st1, s2) →
  (c < length (contexts s1))%nat →
  context_of st1 = c ∧ contexts s1 `prefix_of` contexts s2.
Proof.
  intros E Hc.
  destruct (randomStatement_with_frame _ _ _ _ _ _ _ E) as (Hpre & _).
  destruct (struct_with _ _ _ _ _ _ _ (proj1 (structure_spec rnd fuel)) E Hc) as (Hctx & _).
  split; assumption.
Qed.

Lemma and_fields fuel : ∀ context s st s',
  LogicalAndStatement_random rnd fuel context s = (Ok st, s') →
  (context < length (contexts s))%nat →
  part_fields (contexts s') (contexts s !!! context) st.
Proof.
  induction fuel as [|fuel IH]; intros context s st s' H Hc; [discriminate|].
  rewrite LogicalAndStatement_random_S in H.
  normalise_fresh H.
  bind_inv H. rename a into st1, s0 into s2, E into E1.
  destruct (part_call _ _ _ _ _ _ E1) as [C1 Hpre2].
  { cbn [contexts]. rewrite length_app. simpl. lia. }
  normalise_fresh H.
  bind_inv H. rename a into st2, s0 into s4, E into E2.
  destruct (part_call _ _ _ _ _ _ E2) as [C2 Hpre4].
  { cbn [contexts]. rewrite length_app. simpl. lia. }
  cbn [contexts] in Hpre2, Hpre4.
  pose proof (prefix_length _ _ Hpre2) as Hlen2. rewrite length_app in Hlen2.
  pose proof (prefix_length _ _ Hpre4) as Hlen4. rewrite length_app in Hlen4.
  simpl in Hlen2, Hlen4.
  unfold ref in *.
  assert (Hc1 : contexts s2 !!! length (contexts s) =
                mkContext (personCount (contexts s !!! context))
                  (speakerIndex (contexts s !!! context)) false
                  (shouldUseGa (contexts s !!! context))
                  (preconditionPredicate (contexts s !!! context))
                  (complexityFactor (contexts s !!! context))).
  { rewrite (prefix_lookup_total _ _ _ Hpre2) by (rewrite length_app; simpl; lia).
    apply lookup_total_fresh. }
  rewrite Hc1 in E2, Hpre4.
  cbn [personCount speakerIndex isRoot shouldUseGa preconditionPredicate
       complexityFactor] in E2, Hpre4.
  assert (Hpre_s4 : contexts s `prefix_of` contexts s4).
  { etrans; [|exact Hpre4]. etrans; [|apply prefix_app_r; exact Hpre2].
    apply prefix_app_r. reflexivity. }
  rewrite bind_get_store in H.
  destruct (_ || _ || _) in H.
  - apply IH in H; [|lia].
    rewrite (prefix_lookup_total _ _ _ Hpre_s4 Hc) in H. exact H.
  - prim_inv H. cbn [part_fields]. rewrite C1, C2. unfold part_context.
    split; [lia|]. split.
    + rewrite (prefix_lookup_total _ _ _ Hpre4) by (rewrite length_app; simpl; lia).
      rewrite lookup_total_app_l by lia. exact Hc1.
    + rewrite (prefix_lookup_total _ _ _ Hpre4) by (rewrite length_app; simpl; lia).
      apply lookup_total_fresh.
Qed.

Lemma or_fields fuel : ∀ context s st s',
  LogicalOrStatement_random rnd fuel context s = (Ok st, s') →
  (context < length (contexts s))%nat →
  part_fields (contexts s') (contexts s !!! context) st.
Proof.
  induction fuel as [|fuel IH]; intros context s st s' H Hc; [discriminate|].
  rewrite LogicalOrStatement_random_S in H.
  normalise_fresh H.
  bind_inv H. rename a into st1, s0 into s2, E into E1.
  destruct (part_call _ _ _ _ _ _ E1) as [C1 Hpre2].
  { cbn [contexts]. rewrite length_app. simpl. lia. }
  cbn [contexts] in Hpre2.
  pose proof (prefix_length _ _ Hpre2) as Hlen2. rewrite length_app in Hlen2.
  simpl in Hlen2.
  bind_inv H. rename a into st2, s0 into s4, E into E2.
  destruct (part_call _ _ _ _ _ _ E2) as [C2 Hpre4]; [lia|].
  pose proof (prefix_length _ _ Hpre4) as Hlen4.
  unfold ref in *.
  assert (Hpre_s4 : contexts s `prefix_of` contexts s4).
  { etrans; [|exact Hpre4]. etrans; [|exact Hpre2]. apply prefix_app_r. reflexivity. }
  rewrite bind_get_store in H.
  destruct (_ || _ || _) in H.
  - apply IH in H; [|lia].
    rewrite (prefix_lookup_total _ _ _ Hpre_s4 Hc) in H. exact H.
  - prim_inv H. cbn [part_fields]. rewrite C1, C2. unfold part_context.
    split; [reflexivity|].
    rewrite (prefix_lookup_total _ _ _ Hpre4) by lia.
    rewrite (prefix_lookup_total _ _ _ Hpre2) by (rewrite length_app; simpl; lia).
    apply lookup_total_fresh.
Qed.

Lemma if_fields fuel : ∀ context s st s',
  LogicalIfStatement_random rnd fuel context s = (Ok st, s') →
  (context < length (contexts s))%nat →
  part_fields (contexts s') (contexts s !!! context) st.
Proof.
  induction fuel as [|fuel IH]; intros context s st s' H Hc; [discriminate|].
  rewrite LogicalIfStatement_random_S in H.
  normalise_fresh H.
  bind_inv H. rename a into st1, s0 into s2, E into E1.
  destruct (part_call _ _ _ _ _ _ E1) as [C1 Hpre2].
  { cbn [contexts]. rewrite length_app. simpl. lia. }
  normalise_fresh H.
  bind_inv H. rename a into st2, s0 into s4, E into E2.
  destruct (part_call _ _ _ _ _ _ E2) as [C2 Hpre4].
  { cbn [contexts]. rewrite length_app. simpl. lia. }
  cbn [contexts] in Hpre2, Hpre4.
  pose proof (prefix_length _ _ Hpre2) as Hlen2. rewrite length_app in Hlen2.
  pose proof (prefix_length _ _ Hpre4) as Hlen4. rewrite length_app in Hlen4.
  simpl in Hlen2, Hlen4.
  unfold ref in *.
  assert (Hc1 : contexts s2 !!! length (contexts s) =
                mkContext (personCount (contexts s !!! context))
                  (speakerIndex (contexts s !!! context)) false true
                  (preconditionPredicate (contexts s !!! context))
                  (complexityFactor (contexts s !!! context))).
  { rewrite (prefix_lookup_total _ _ _ Hpre2) by (rewrite length_app; simpl; lia).
    apply lookup_total_fresh. }
  assert (Hc0 : contexts s2 !!! context = contexts s !!! context).
  { apply prefix_lookup_total; [|exact Hc].
    etrans; [|exact Hpre2]. apply prefix_app_r. reflexivity. }
  rewrite (lookup_total_app_l (contexts s2) _ context) in E2, Hpre4 by lia.
  rewrite Hc1, Hc0 in E2, Hpre4.
  cbn [personCount speakerIndex isRoot shouldUseGa preconditionPredicate
       complexityFactor] in E2, Hpre4.
  assert (Hpre_s4 : contexts s `prefix_of` contexts s4).
  { etrans; [|exact Hpre4]. etrans; [|apply prefix_app_r; exact Hpre2].
    apply prefix_app_r. reflexivity. }
  rewrite bind_get_store in H.
  destruct (_ || _ || _) in H.
  - apply IH in H; [|lia].
    rewrite (prefix_lookup_total _ _ _ Hpre_s4 Hc) in H. exact H.
  - prim_inv H. cbn [part_fields]. rewrite C1, C2. unfold part_context.
    split; [lia|]. split.
    + rewrite (prefix_lookup_total _ _ _ Hpre4) by (rewrite length_app; simpl; lia).
      rewrite lookup_total_app_l by lia. exact Hc1.
    + rewrite (prefix_lookup_total _ _ _ Hpre4) by (rewrite length_app; simpl; lia).
      apply lookup_total_fresh.
Qed.

End PartFields.

(** X23.  The [random] constructor of a class returns an instance of that
    class on the caller's context.  The two parts of a conjunction have
    two different new contexts, copies of the caller's context with
    [isRoot] false, the second one with the predicate of the first part as
    [preconditionPredicate]; the two parts of a disjunction share one new
    context, with [isRoot] false, [shouldUseGa] true and no precondition;
    antecedent and consequent of a conditional have two different new
    contexts with [isRoot] false, the antecedent's with [shouldUseGa]
    true, the consequent's with the caller's [shouldUseGa] and the
    predicate of the antecedent as [preconditionPredicate]. *)
Theorem compound_random_part_fields rnd classChoice fuel context s st s' :
  (context < length (contexts s))%nat →
  random_of rnd classChoice fuel context s = (Ok st, s') →
  class_of st = Some classChoice ∧ context_of st = context ∧
  part_fields (contexts s') (contexts s !!! context) st.
Proof.
  intros Hc H.
  destruct (random_of_frame _ _ _ _ _ _ _ H) as (_ & _ & Hcls & _).
  destruct (proj2 (structure_spec rnd fuel) _ _ _ _ _ H Hc) as (Hctx & _).
  split; [exact Hcls|]. split; [exact Hctx|].
  destruct classChoice; cbn [random_of] in H.
  - destruct st; try discriminate. exact I.
  - destruct st; try discriminate. exact I.
  - eapply and_fields; eassumption.
  - eapply or_fields; eassumption.
  - eapply if_fields; eassumption.
Qed.

Lemma compound_random_part_fields_witness :
  (0 < length (contexts two_people))%nat ∧
  ∃ st s',
    random_of (replay draws_and) ClassLogicalAnd 5 0%nat two_people = (Ok st, s') ∧
    class_of st = Some ClassLogicalAnd ∧ context_of st = 0%nat ∧
    part_fields (contexts s') (contexts two_people !!! 0%nat) st.
Proof.
  split; [simpl; lia|]. eexists _, _. split; [vm_compute; reflexivity|].
  eapply (compound_random_part_fields (replay draws_and) ClassLogicalAnd 5 0%nat
            two_people).
  - simpl; lia.
  - vm_compute. reflexivity.
Defined.

(** ** The puzzle on display *)

Lemma for_each_new_context_exact (f : Z → LogicalStatementContext) : ∀ l s cs s',
  for_each (λ i, new_context (f i)) l s = (Ok cs, s') →
  contexts s' = contexts s ++ map f l ∧ cs = seq (length (contexts s)) (length l).
Proof.
  induction l as [|a l IH]; intros s cs s' H; cbn [for_each] in H.
  - prim_inv H. rewrite app_nil_r. split; reflexivity.
  - bind_inv H. bind_inv H. prim_inv H.
    unfold new_context in E. injection E as <- <-.
    apply IH in E0 as [-> ->]. cbn [contexts].
    rewrite length_app, <- app_assoc. simpl. split; [reflexivity|].
    f_equal. f_equal. lia.
Qed.

Section PuzzleSpeakers.

Variable rnd : nat → Q.

Lemma speakers_ok_grow N cf s s' cs sts :
  speakers_ok N cf s cs sts → contexts s `prefix_of` contexts s' →
  speakers_ok N cf s' cs sts.
Proof.
  intros (Hlen & Hctx & Hst) Hpre. split; [exact Hlen|]. split; [|exact Hst].
  intros i c Hc. destruct (Hctx i c Hc) as [Hlt E].
  pose proof (prefix_length _ _ Hpre). split; [lia|].
  unfold ref in *. rewrite (prefix_lookup_total _ _ _ Hpre Hlt). exact E.
Qed.

Lemma for_each_speak_contexts fuel : ∀ cs s spoken s',
  for_each (speak rnd fuel) cs s = (Ok spoken, s') →
  Forall (λ c, (c < length (contexts s))%nat) cs →
  Forall2 (λ st c, context_of st = c) (map fst spoken) cs.
Proof.
  induction cs as [|c cs IH]; intros s spoken s' H Hcs; cbn [for_each] in H.
  - prim_inv H. constructor.
  - bind_inv H. bind_inv H. prim_inv H. destruct a as [st sen].
    apply Forall_cons in Hcs as [Hc Hcs].
    apply speak_spec in E as (Hpre1 & _ & _ & Hrun).
    pose proof (prefix_length _ _ Hpre1) as Hgrow.
    simpl. constructor.
    + destruct (randomStatement_struct _ _ _ _ _ _ _ Hrun Hc) as (Hctx & _). exact Hctx.
    + eapply IH; [exact E0|]. eapply Forall_impl; [exact Hcs|]. simpl. intros; lia.
Qed.

Lemma initial_puzzle_speakers fuel N cf s statementContexts p0 s0 :
  initial_puzzle rnd fuel N cf s = (Ok (statementContexts, p0), s0) →
  speakers_ok N cf s0 statementContexts (statements p0).
Proof.
  unfold initial_puzzle. intros H. bind_inv H. bind_inv H.
  rewrite bind_get_store in H. apply ret_Ok in H as [H ->].
  injection H as -> ->. cbn [statements].
  pose proof E as E'.
  apply for_each_new_context in E' as (_ & Hcs & _).
  apply for_each_new_context_exact in E as [Hstore ->].
  pose proof (for_each_speak_contexts _ _ _ _ _ E0 Hcs) as Hst.
  apply for_each_speak in E0 as (Hpre & _ & _); [|exact Hcs].
  eapply speakers_ok_grow; [|exact Hpre].
  rewrite length_seqZ in *.
  split; [apply length_seq|]. split; [|exact Hst].
  intros i c Hc. apply lookup_seq in Hc as [-> Hi].
  rewrite Hstore. split.
  - rewrite length_app, length_map, length_seqZ. lia.
  - unfold ref. rewrite lookup_total_app_r by lia.
    replace (length (contexts s) + i - length (contexts s))%nat with i by lia.
    apply list_lookup_total_correct. rewrite list_lookup_fmap.
    rewrite (proj2 (lookup_seqZ 0 N i (Z.of_nat i))) by lia. reflexivity.
Qed.

Lemma regenerate_one_speakers fuel statementContexts N cf p s p' s' :
  regenerate_one rnd fuel statementContexts N p s = (Ok p', s') →
  puzzle_ok s statementContexts p →
  speakers_ok N cf s statementContexts (statements p) →
  speakers_ok N cf s' statementContexts (statements p').
Proof.
  intros H Hok Hsp.
  destruct (regenerate_one_spec _ _ _ _ _ _ _ _ H Hok)
    as (_ & i & context & st & sen & _ & _ & _ & Hc & Hrun & _ & ->).
  cbn [statements].
  destruct (randomStatement_with_frame _ _ _ _ _ _ _ Hrun) as (Hpre & _).
  cbn [contexts] in Hpre.
  destruct Hsp as (Hlen & Hctx & Hst).
  destruct (Hctx _ _ Hc) as [Hlt _].
  destruct (randomStatement_struct _ _ _ _ _ _ _ Hrun Hlt) as (Hcontext & _).
  eapply speakers_ok_grow; [|exact Hpre].
  split; [exact Hlen|]. split; [exact Hctx|].
  rewrite <- (list_insert_id statementContexts (Z.to_nat i) context Hc).
  apply Forall2_insert; assumption.
Qed.

Lemma regenerate_speakers fuel statementContexts N cf minL maxL : ∀ p s pf sf,
  regenerate rnd fuel statementContexts N minL maxL p s = (Ok pf, sf) →
  puzzle_ok s statementContexts p →
  speakers_ok N cf s statementContexts (statements p) →
  speakers_ok N cf sf statementContexts (statements pf).
Proof.
  induction fuel as [|fuel IH]; intros p s pf sf H Hok Hsp; [discriminate|].
  cbn [regenerate] in H.
  destruct (accepted minL maxL p) eqn:Hacc.
  - prim_inv H. exact Hsp.
  - bind_inv H.
    pose proof (regenerate_one_speakers _ _ _ cf _ _ _ _ E Hok Hsp) as Hsp'.
    apply regenerate_one_spec in E as [Hok' _]; [|assumption].
    eapply IH; eauto.
Qed.

Lemma generateButton_onclick_inv fuel N minL maxL cf s p s' :
  generateButton_onclick rnd fuel N minL maxL cf s = (Ok p, s') →
  ∃ statementContexts,
    puzzle_ok s' statementContexts p ∧ accepted minL maxL p = true ∧
    speakers_ok N cf s' statementContexts (statements p).
Proof.
  unfold generateButton_onclick. intros H. bind_inv H. destruct a as [statementContexts p0].
  cbn [fst snd] in H.
  pose proof (initial_puzzle_ok rnd _ _ _ _ _ _ _ E) as Hok.
  pose proof (initial_puzzle_speakers _ _ _ _ _ _ _ E) as Hsp.
  exists statementContexts.
  destruct (regenerate_spec rnd _ _ _ _ _ _ _ _ _ H Hok) as [Hok' Hacc].
  split; [exact Hok'|]. split; [exact Hacc|].
  eapply regenerate_speakers; eassumption.
Qed.

End PuzzleSpeakers.

(** X24.  The puzzle that [generateButton.onclick] settles on has one
    statement and one sentence per person; the context of the statement at
    position [i] is the root context made for speaker [i], with the fields
    given by the handler, and the sentence at position [i] is the rendering
    of that statement and ends with the closing of a root sentence. *)
Theorem generateButton_onclick_speakers rnd fuel N minL maxL cf s p s' :
  generateButton_onclick rnd fuel N minL maxL cf s = (Ok p, s') →
  length (statements p) = Z.to_nat N ∧
  length (sentences p) = Z.to_nat N ∧
  ∀ i st, statements p !! i = Some st →
    contexts s' !!! context_of st = mkContext N (Z.of_nat i) true false None cf ∧
    ∃ body, sentences p !! i = Some (body ++ lit "です。") ∧
            sentence (contexts s') st = Ok (body ++ lit "です。").
Proof.
  intros H.
  destruct (generateButton_onclick_inv _ _ _ _ _ _ _ _ _ H)
    as (cs & (_ & Hsen & _ & _) & _ & (Hlen & Hctx & Hst)).
  pose proof (Forall2_length _ _ _ Hst) as L1.
  pose proof (Forall2_length _ _ _ Hsen) as L2.
  split; [lia|]. split; [lia|].
  intros i st Hi.
  destruct (Forall2_lookup_l _ _ _ _ _ Hst Hi) as (c & Hc & Hcst).
  destruct (Forall2_lookup_l _ _ _ _ _ Hsen Hi) as (sen & Hs & Hr & _).
  destruct (Hctx i c Hc) as [_ E]. rewrite Hcst. split; [exact E|].
  destruct (sentence_root_ending _ _ _ Hr) as [body ->].
  rewrite Hcst in Hr, Hs. unfold ref in *. rewrite E in Hr, Hs.
  exists body. split; assumption.
Qed.

Lemma generateButton_onclick_speakers_witness :
  ∃ p s',
    generateButton_onclick (replay draws_puzzle) 6 2 20 (AtMost 30) 1 (mkState [] 0)
    = (Ok p, s') ∧
    length (statements p) = Z.to_nat 2 ∧
    length (sentences p) = Z.to_nat 2 ∧
    ∀ i st, statements p !! i = Some st →
      contexts s' !!! context_of st = mkContext 2 (Z.of_nat i) true false None 1 ∧
      ∃ body, sentences p !! i = Some (body ++ lit "です。") ∧
              sentence (contexts s') st = Ok (body ++ lit "です。").
Proof.
  eexists _, _. split; [vm_compute; reflexivity|].
  apply (generateButton_onclick_speakers (replay draws_puzzle) 6 2 20 (AtMost 30) 1
           (mkState [] 0)).
  vm_compute. reflexivity.
Defined.

(** X25.  For up to 30 people, the puzzle that [generateButton.onclick]
    settles on has exactly one answer: [solutions] holds one assignment
    [a] in [0, 2^N), under [a] the statement of every person [i] is true
    exactly when bit [i] of [a] says that [i] is a truth-teller, and no
    other assignment in [0, 2^N) has that property. *)
Theorem generateButton_onclick_unique_solution rnd fuel N minL maxL cf s p s' :
  0 <= N <= 30 →
  generateButton_onclick rnd fuel N minL maxL cf s = (Ok p, s') →
  ∃ a, solutions p = [a] ∧ 0 <= a < 2 ^ N ∧
    (∀ i st, statements p !! i = Some st → isTrueOn st a = Z.testbit a (Z.of_nat i)) ∧
    ∀ b, 0 <= b < 2 ^ N →
      (∀ i st, statements p !! i = Some st → isTrueOn st b = Z.testbit b (Z.of_nat i)) →
      b = a.
Proof.
  intros HN H.
  destruct (generateButton_onclick_inv _ _ _ _ _ _ _ _ _ H)
    as (cs & (Hsol & _ & _ & _) & Hacc & (Hlen & Hctx & Hst)).
  apply accepted_spec in Hacc as [Hone _].
  pose proof (Forall2_length _ _ _ Hst) as L1.
  assert (HNlen : Z.of_nat (length (statements p)) = N) by lia.
  assert (Hpow : 2 ^ N <= 2 ^ 30) by (apply Z.pow_le_mono_r; lia).
  assert (Hspk : ∀ i st, statements p !! i = Some st →
                         speakerIndex (contexts s' !!! context_of st) = Z.of_nat i).
  { intros i st Hi. destruct (Forall2_lookup_l _ _ _ _ _ Hst Hi) as (c & Hc & Hcst).
    destruct (Hctx i c Hc) as [_ E]. rewrite Hcst. unfold ref in *. rewrite E. reflexivity. }
  assert (Hmem : ∀ a, a ∈ solutionsTo (contexts s') (statements p) ↔
                      0 <= a < 2 ^ N ∧
                      ∀ i st, statements p !! i = Some st →
                              isTrueOn st a = Z.testbit a (Z.of_nat i)).
  { intros a. unfold solutionsTo.
    rewrite list_elem_of_filter, elem_of_assignments, HNlen by lia.
    rewrite forallb_forall. split.
    - intros [Hall Ha]. split; [exact Ha|]. intros i st Hi.
      pose proof (lookup_lt_Some _ _ _ Hi) as Hlt.
      rewrite <- (Hspk i st Hi). apply isConsistentOn_spec.
      + lia.
      + rewrite (Hspk i st Hi). lia.
      + apply Hall, list_elem_of_In. eapply list_elem_of_lookup_2; eauto.
    - intros [Ha Hall]. split; [|exact Ha]. intros st Hin.
      apply list_elem_of_In, list_elem_of_lookup in Hin as [i Hi].
      pose proof (lookup_lt_Some _ _ _ Hi) as Hlt.
      apply isConsistentOn_spec.
      + lia.
      + rewrite (Hspk i st Hi). lia.
      + rewrite (Hspk i st Hi). apply Hall. exact Hi. }
  rewrite Hsol in Hone.
  destruct (solutionsTo (contexts s') (statements p)) as [|a [|]] eqn:Es; try discriminate.
  exists a. split; [exact Hsol|].
  destruct (proj1 (Hmem a) ltac:(left)) as [Ha Hall].
  split; [exact Ha|]. split; [exact Hall|].
  intros b Hb Hball. assert (Hin : b ∈ [a]) by (apply Hmem; auto).
  apply list_elem_of_singleton in Hin. exact Hin.
Qed.

Lemma generateButton_onclick_unique_solution_witness :
  0 <= 2 <= 30 ∧
  ∃ p s',
    generateButton_onclick (replay draws_puzzle) 6 2 20 (AtMost 30) 1 (mkState [] 0)
    = (Ok p, s') ∧
    ∃ a, solutions p = [a] ∧ 0 <= a < 2 ^ 2 ∧
      (∀ i st, statements p !! i = Some st → isTrueOn st a = Z.testbit a (Z.of_nat i)) ∧
      ∀ b, 0 <= b < 2 ^ 2 →
        (∀ i st, statements p !! i = Some st → isTrueOn st b = Z.testbit b (Z.of_nat i)) →
        b = a.
Proof.
  split; [lia|]. eexists _, _. split; [vm_compute; reflexivity|].
  eapply (generateButton_onclick_unique_solution (replay draws_puzzle) 6 2 20 (AtMost 30) 1
            (mkState [] 0)); [lia|].
  vm_compute. reflexivity.
Defined.

Lemma renderable_grow s s' cs :
  renderable s cs → contexts s `prefix_of` contexts s' → renderable s' cs.
Proof.
  intros H Hpre. eapply Forall_impl; [exact H|]. intros c [Hc HN].
  pose proof (prefix_length _ _ Hpre). split; [lia|].
  unfold ref in *. rewrite (prefix_lookup_total _ _ _ Hpre Hc). exact HN.
Qed.

Lemma post_of_no_throw {A} (r : outcome A * state) (Q : A → state → Prop) :
  post_of r Q → ∀ e s', r ≠ (Throw e, s').
Proof. intros H e s' ->. exact H. Qed.

Section NoThrow.

Variable rnd : nat → Q.

Lemma speak_no_throw fuel context s :
  (context < length (contexts s))%nat →
  0 <= personCount (contexts s !!! context) < 2 ^ 32 →
  post_of (speak rnd fuel context s) (λ _ s', contexts s `prefix_of` contexts s').
Proof.
  intros Hc HN. unfold speak, bind.
  pose proof (randomStatement_post rnd fuel (contexts s) context Infinity s
                ltac:(reflexivity) ltac:(discriminate)) as P.
  destruct (randomStatement rnd fuel context Infinity s) as [[st|e|] s1] eqn:E;
    [|exact P|exact I].
  destruct (randomStatement_renders _ _ _ _ _ _ _ Hc HN E) as [body Hs].
  unfold get_store, lift. rewrite Hs. simpl.
  destruct P as [(Hpre & _) _]. exact Hpre.
Qed.

Lemma for_each_speak_no_throw fuel : ∀ cs s,
  renderable s cs →
  post_of (for_each (speak rnd fuel) cs s) (λ _ s', contexts s `prefix_of` contexts s').
Proof.
  induction cs as [|c cs IH]; intros s Hcs; cbn [for_each].
  - simpl. reflexivity.
  - apply Forall_cons in Hcs as [[Hc HN] Hcs].
    apply post_of_bind. eapply post_of_mono; [apply speak_no_throw; assumption|].
    intros spoken s1 Hpre1. cbv beta in Hpre1. apply post_of_bind.
    eapply post_of_mono; [apply IH; exact (renderable_grow _ _ _ Hcs Hpre1)|].
    intros rest s2 Hpre2. cbv beta in Hpre2. simpl. etrans; eassumption.
Qed.

Lemma for_each_new_context_no_throw (f : Z → LogicalStatementContext) : ∀ l s,
  post_of (for_each (λ i, new_context (f i)) l s)
    (λ cs s', contexts s' = contexts s ++ map f l ∧
              cs = seq (length (contexts s)) (length l)).
Proof.
  intros l s.
  destruct (for_each (λ i, new_context (f i)) l s) as [[cs|e|] s'] eqn:E.
  - simpl. eapply for_each_new_context_exact. exact E.
  - exfalso. revert s E. induction l as [|a l IH]; intros s E; cbn [for_each] in E.
    + discriminate.
    + unfold bind at 1 in E. unfold new_context at 1 in E.
      unfold bind at 1 in E.
      destruct (for_each _ l _) as [[cs'|e'|] s2] eqn:E2; try discriminate.
      injection E as -> ->. eapply IH. exact E2.
  - exact I.
Qed.

Lemma regenerate_one_no_throw fuel statementContexts N p s :
  valid_draws rnd → 0 < N →
  length statementContexts = Z.to_nat N →
  renderable s statementContexts →
  post_of (regenerate_one rnd fuel statementContexts N p s)
    (λ _ s', contexts s `prefix_of` contexts s').
Proof.
  intros Hrnd HN Hlen Hcs. unfold regenerate_one. rewrite bind_Math_random.
  destruct (Hrnd (drawn s)) as [H0 H1].
  pose proof (floor_scaled_range _ _ H0 H1 HN) as Hi.
  set (i := floor_scaled (rnd (drawn s)) N) in *.
  unfold array_get. destruct (Z.ltb_spec i 0) as [|_]; [lia|].
  destruct (lookup_lt_is_Some_2 statementContexts (Z.to_nat i) ltac:(lia)) as [c Hc].
  rewrite Hc.
  assert (Hin : c ∈ statementContexts) by (eapply list_elem_of_lookup_2; eauto).
  unfold renderable in Hcs. rewrite Forall_forall in Hcs. destruct (Hcs c Hin) as [Hlt HNc].
  apply post_of_bind. eapply post_of_mono; [apply speak_no_throw; assumption|].
  intros spoken s1 Hpre. rewrite bind_get_store. simpl. exact Hpre.
Qed.

Lemma regenerate_no_throw fuel statementContexts N minL maxL : ∀ p s,
  valid_draws rnd → 0 < N →
  length statementContexts = Z.to_nat N →
  renderable s statementContexts →
  post_of (regenerate rnd fuel statementContexts N minL maxL p s) (λ _ _, True).
Proof.
  induction fuel as [|fuel IH]; intros p s Hrnd HN Hlen Hcs; [exact I|].
  cbn [regenerate]. destruct (accepted minL maxL p); [exact I|].
  apply post_of_bind.
  eapply post_of_mono; [apply regenerate_one_no_throw; assumption|].
  intros p' s1 Hpre. cbv beta in Hpre. apply IH; try assumption.
  exact (renderable_grow _ _ _ Hcs Hpre).
Qed.

End NoThrow.

(** X26.  With draws in [0, 1) and a person count between 1 and 2^32 - 1,
    [generateButton.onclick] reaches none of the throwing paths of the
    code (the [Error] of [randomStatement], the [TypeError]s of the
    base-class methods and of an undefined context, the [RangeError] of
    [Array(personCount)]) while it creates the contexts, generates and
    renders the statements and runs the regeneration loop. *)
Theorem generateButton_onclick_never_throws rnd fuel N minL maxL cf s :
  valid_draws rnd → 1 <= N < 2 ^ 32 →
  ∀ e s', generateButton_onclick rnd fuel N minL maxL cf s ≠ (Throw e, s').
Proof.
  intros Hrnd HN. apply (post_of_no_throw _ (λ _ _, True)).
  unfold generateButton_onclick, initial_puzzle.
  apply post_of_bind. apply post_of_bind.
  eapply post_of_mono; [apply for_each_new_context_no_throw|].
  intros cs s1 [Hstore ->].
  assert (Hcs : renderable s1 (seq (length (contexts s)) (length (seqZ 0 N)))).
  { apply Forall_forall. intros c Hc. apply elem_of_seq in Hc.
    rewrite Hstore, length_app, length_map. split; [lia|].
    unfold ref. rewrite lookup_total_app_r by lia.
    destruct (lookup_lt_is_Some_2 (seqZ 0 N) (c - length (contexts s)) ltac:(lia))
      as [i Hi].
    rewrite (list_lookup_total_correct _ _
               (mkContext N i true false None cf)).
    - simpl. lia.
    - rewrite list_lookup_fmap, Hi. reflexivity. }
  apply post_of_bind.
  eapply post_of_mono; [apply for_each_speak_no_throw; exact Hcs|].
  intros spoken s2 Hpre. cbv beta in Hpre. rewrite bind_get_store. simpl.
  apply regenerate_no_throw; try assumption; try lia.
  - rewrite length_seq, length_seqZ. reflexivity.
  - exact (renderable_grow _ _ _ Hcs Hpre).
Qed.

Lemma generateButton_onclick_never_throws_witness :
  valid_draws (replay draws_puzzle) ∧ 1 <= 2 < 2 ^ 32 ∧
  ∀ e s', generateButton_onclick (replay draws_puzzle) 6 2 20 (AtMost 30) 1 (mkState [] 0)
          ≠ (Throw e, s').
Proof.
  assert (Hvalid : valid_draws (replay draws_puzzle)).
  { apply replay_valid. repeat constructor; unfold Qle, Qlt; simpl; lia. }
  split; [exact Hvalid|]. split; [lia|].
  apply (generateButton_onclick_never_throws (replay draws_puzzle) 6 2 20 (AtMost 30) 1
           (mkState [] 0) Hvalid). lia.
Defined.

(** ** The bands of the target length *)

(** X27.  For at least two people, [interpolatedSentenceLength] is
    [11 * personCount] at 0 and [100 * (personCount - 1)] at 1, and for a
    complexity [c] from 0 to 3 the upper end of the band of [c] is the
    lower end of the band of [c + 1] and is not below the lower end of the
    band of [c]: the bands are not empty and leave no gap. *)
Theorem length_bands_adjacent N c :
  2 <= N → 0 <= c < 4 →
  interpolatedSentenceLength N 0 = (11 * IZR N)%R ∧
  interpolatedSentenceLength N 1 = (100 * (IZR N - 1))%R ∧
  maxSentenceLength N c = FiniteLength (minSentenceLength N (c + 1)) ∧
  (minSentenceLength N c <= minSentenceLength N (c + 1))%R.
Proof.
  intros HN Hc. split; [|split; [|split]].
  - unfold interpolatedSentenceLength. rewrite Rmult_0_r, Rpower_O by lra. lra.
  - unfold interpolatedSentenceLength. rewrite Rmult_1_r.
    replace (Rpower 2 2) with 4%R; [lra|].
    change 2%R with (INR 2) at 2. rewrite Rpower_pow by lra. simpl. lra.
  - unfold maxSentenceLength, minSentenceLength.
    destruct (Z.eqb_spec c 4); [lia|]. destruct (Z.eqb_spec (c + 1) 0); [lia|]. reflexivity.
  - unfold minSentenceLength.
    destruct (Z.eqb_spec (c + 1) 0); [lia|].
    assert (Hc1 : (0 <= IZR c / 5 <= IZR (c + 1) / 5)%R).
    { assert (0 <= IZR c)%R by (apply IZR_le; lia).
      assert (IZR c <= IZR (c + 1))%R by (apply IZR_le; lia). lra. }
    destruct (Z.eqb_spec c 0).
    + pose proof (interpolatedSentenceLength_mono N 0 (IZR (c + 1) / 5) HN) as H.
      lra.
    + apply (interpolatedSentenceLength_mono N _ _ HN Hc1).
Qed.

Lemma length_bands_adjacent_witness :
  2 <= 4 ∧ 0 <= 2 < 4 ∧
  interpolatedSentenceLength 4 0 = (11 * IZR 4)%R ∧
  interpolatedSentenceLength 4 1 = (100 * (IZR 4 - 1))%R ∧
  maxSentenceLength 4 2 = FiniteLength (minSentenceLength 4 (2 + 1)) ∧
  (minSentenceLength 4 2 <= minSentenceLength 4 (2 + 1))%R.
Proof.
  split; [lia|]. split; [lia|]. apply (length_bands_adjacent 4 2); lia.
Defined.

(** ** Checking an answer *)

Lemma selected_bits_None selections : ∀ i acc,
  selected_bits selections i acc = None ↔ nochoice ∈ selections.
Proof.
  induction selections as [|sel rest IH]; intros i acc.
  - simpl. split; [discriminate|]. intros H. inversion H.
  - destruct sel; cbn [selected_bits].
    + split; [intros _; left | reflexivity].
    + rewrite IH. split; [intros H; by right|].
      intros H. apply elem_of_cons in H as [H|H]; [discriminate | exact H].
    + rewrite IH. split; [intros H; by right|].
      intros H. apply elem_of_cons in H as [H|H]; [discriminate | exact H].
Qed.

Lemma or_fresh_bit acc i :
  0 <= i <= 30 → 0 <= acc < 2 ^ i →
  JS_or acc (JS.shl 1 i) = acc + 2 ^ i ∧
  (∀ k, 0 <= k → Z.testbit (acc + 2 ^ i) k = Z.testbit acc k || (k =? i)).
Proof.
  intros Hi Hacc.
  assert (Hp : 2 ^ i <= 2 ^ 30) by (apply Z.pow_le_mono_r; lia).
  assert (Hdisj : Z.land acc (2 ^ i) = 0).
  { apply Z.bits_inj'. intros k Hk. rewrite Z.land_spec, Z.bits_0, Z.pow2_bits_eqb by lia.
    destruct (Z.eqb_spec i k) as [<-|]; [|apply andb_false_r].
    rewrite andb_true_r.
    destruct (Z.eq_dec acc 0) as [->|]; [apply Z.bits_0|].
    apply Z.bits_above_log2; [lia|]. apply Z.log2_lt_pow2; lia. }
  assert (Hlor : Z.lor acc (2 ^ i) = acc + 2 ^ i).
  { rewrite <- Z.lxor_lor, <- Z.add_nocarry_lxor by exact Hdisj. reflexivity. }
  split.
  - unfold JS_or. rewrite shl_one by lia. rewrite !toInt32_small by lia. exact Hlor.
  - intros k Hk. rewrite <- Hlor, Z.lor_spec, Z.pow2_bits_eqb by lia.
    f_equal. apply Z.eqb_sym.
Qed.

Lemma selected_bits_from selections : ∀ i acc bits,
  0 <= i → i + Z.of_nat (length selections) <= 31 → 0 <= acc < 2 ^ i →
  selected_bits selections i acc = Some bits →
  0 <= bits < 2 ^ (i + Z.of_nat (length selections)) ∧
  (∀ k, 0 <= k < i → Z.testbit bits k = Z.testbit acc k) ∧
  (∀ k sel, selections !! k = Some sel →
            Z.testbit bits (i + Z.of_nat k) = is_chose_true sel).
Proof.
  induction selections as [|sel rest IH]; intros i acc bits Hi Hlen Hacc H.
  - simpl in H. injection H as <-. simpl. rewrite Z.add_0_r.
    split; [exact Hacc|]. split; [auto|]. intros k sel Hk. discriminate.
  - cbn [length] in Hlen.
    assert (Hpow : 2 ^ (i + 1) = 2 * 2 ^ i)
      by (rewrite Z.pow_add_r by lia; change (2 ^ 1) with 2; lia).
    replace (i + Z.of_nat (length (sel :: rest)))
      with (i + 1 + Z.of_nat (length rest)) by (cbn [length]; lia).
    destruct sel; cbn [selected_bits] in H; [discriminate| |].
    + destruct (or_fresh_bit acc i ltac:(lia) Hacc) as [Eor Hbits].
      rewrite Eor in H.
      destruct (IH (i + 1) (acc + 2 ^ i) bits ltac:(lia) ltac:(lia) ltac:(lia) H)
        as (Hr & Hlow & Hsel).
      split; [exact Hr|]. split.
      * intros k Hk. rewrite Hlow, Hbits by lia.
        replace (k =? i) with false by (symmetry; apply Z.eqb_neq; lia).
        apply orb_false_r.
      * intros [|k] sel Hk.
        -- simpl in Hk. injection Hk as <-. simpl. rewrite Z.add_0_r.
           rewrite Hlow, Hbits by lia. rewrite Z.eqb_refl. apply orb_true_r.
        -- simpl in Hk. replace (i + Z.of_nat (S k)) with (i + 1 + Z.of_nat k) by lia.
           apply Hsel. exact Hk.
    + destruct (IH (i + 1) acc bits ltac:(lia) ltac:(lia) ltac:(lia) H)
        as (Hr & Hlow & Hsel).
      split; [exact Hr|]. split.
      * intros k Hk. apply Hlow. lia.
      * intros [|k] sel Hk.
        -- simpl in Hk. injection Hk as <-. simpl. rewrite Z.add_0_r.
           rewrite Hlow by lia.
           destruct (Z.eq_dec acc 0) as [->|]; [apply Z.bits_0|].
           apply Z.bits_above_log2; [lia|]. apply Z.log2_lt_pow2; lia.
        -- simpl in Hk. replace (i + Z.of_nat (S k)) with (i + 1 + Z.of_nat k) by lia.
           apply Hsel. exact Hk.
Qed.

(** X28.  For up to 31 rows, when the first loop of [confirmButton.onclick]
    runs to its end, no row is left at 'nochoice', the integer it has
    built lies in [0, 2^rows), and bit [i] of it is set exactly when row
    [i] is answered 'true'. *)
Theorem selected_bits_encoding selections peopleTypeBits :
  (length selections ≤ 31)%nat →
  selected_bits selections 0 0 = Some peopleTypeBits →
  (nochoice ∉ selections) ∧
  0 <= peopleTypeBits < 2 ^ Z.of_nat (length selections) ∧
  ∀ i selection, selections !! i = Some selection →
    Z.testbit peopleTypeBits (Z.of_nat i)
    = match selection with chose_true => true | _ => false end.
Proof.
  intros Hlen H. split.
  - intros Hin. apply (selected_bits_None selections 0 0) in Hin. congruence.
  - destruct (selected_bits_from selections 0 0 peopleTypeBits) as (Hr & _ & Hsel);
      [lia | lia | simpl; lia | exact H |].
    split; [exact Hr|]. intros i sel Hi. apply (Hsel i sel Hi).
Qed.

Lemma selected_bits_encoding_witness :
  let selections := [chose_true; chose_false; chose_true] in
  (length selections ≤ 31)%nat ∧
  selected_bits selections 0 0 = Some 5 ∧
  (nochoice ∉ selections) ∧
  0 <= 5 < 2 ^ Z.of_nat (length selections) ∧
  ∀ i selection, selections !! i = Some selection →
    Z.testbit 5 (Z.of_nat i)
    = match selection with chose_true => true | _ => false end.
Proof.
  intros selections. split; [simpl; lia|]. split; [reflexivity|].
  apply (selected_bits_encoding selections 5); [simpl; lia | reflexivity].
Defined.

(** X29.  [onRadioChange] enables the confirm button exactly when the
    click handler would not return at a row left at 'nochoice'. *)
Theorem onRadioChange_enables_answer selections :
  onRadioChange selections = false ↔
  ∃ peopleTypeBits, selected_bits selections 0 0 = Some peopleTypeBits.
Proof.
  generalize 0 at 1. generalize 0.
  induction selections as [|sel rest IH]; intros acc i.
  - simpl. split; eauto.
  - destruct sel; cbn [onRadioChange selected_bits].
    + split; [discriminate|]. intros [? ?]. discriminate.
    + apply IH.
    + apply IH.
Qed.

(** X30.  For a puzzle of up to 30 statements with exactly one solution,
    [confirmButton.onclick] returns early only if a row is left at
    'nochoice'; it reports a correct answer only for an assignment with
    which every statement is consistent; and when it reports a wrong
    answer, the rows it marks are those of the statements inconsistent with
    the answer, and at least one row is marked. *)
Theorem confirmButton_onclick_verdict h statements selections :
  (length statements ≤ 30)%nat →
  length selections = length statements →
  length (solutionsTo h statements) = 1%nat →
  match confirmButton_onclick h statements (solutionsTo h statements) selections with
  | NotAnswered => nochoice ∈ selections
  | CorrectAnswer =>
      ∃ peopleTypeBits,
        selected_bits selections 0 0 = Some peopleTypeBits ∧
        Forall (λ statement, isConsistentOn h statement peopleTypeBits = true) statements
  | IncorrectAnswer contradicts =>
      ∃ peopleTypeBits,
        selected_bits selections 0 0 = Some peopleTypeBits ∧
        contradicts
        = map (λ statement, negb (isConsistentOn h statement peopleTypeBits)) statements ∧
        true ∈ contradicts
  end.
Proof.
  intros Hlen Hsel Hone. unfold confirmButton_onclick.
  destruct (selected_bits selections 0 0) as [bits|] eqn:E.
  2:{ by apply (selected_bits_None selections 0 0). }
  destruct (selected_bits_from selections 0 0 bits) as (Hr & _ & _);
    [lia | lia | simpl; lia | exact E |].
  rewrite Z.add_0_l, Hsel in Hr.
  assert (Hmem : ∀ a, a ∈ solutionsTo h statements ↔
                      0 <= a < 2 ^ Z.of_nat (length statements) ∧
                      Forall (λ st, isConsistentOn h st a = true) statements).
  { intros a. unfold solutionsTo. rewrite list_elem_of_filter, elem_of_assignments by lia.
    rewrite forallb_forall, Forall_forall. split.
    - intros [H1 H2]. split; [exact H2|]. intros st Hst. apply H1, list_elem_of_In, Hst.
    - intros [H1 H2]. split; [|exact H1]. intros st Hst. apply H2, list_elem_of_In, Hst. }
  destruct (solutionsTo h statements) as [|sol [|]] eqn:Esol; try discriminate.
  cbn [lookup list_lookup].
  destruct (Z.eqb_spec bits sol) as [->|Hne].
  - exists sol. split; [reflexivity|]. apply Hmem. left.
  - exists bits. split; [reflexivity|]. split; [reflexivity|].
    destruct (decide (Forall (λ st, isConsistentOn h st bits = true) statements))
      as [Hall|Hnot].
    + exfalso. assert (Hin : bits ∈ [sol]) by (apply Hmem; auto).
      apply list_elem_of_singleton in Hin. exact (Hne Hin).
    + apply not_Forall_Exists in Hnot; [|intros st; apply _].
      apply Exists_exists in Hnot as (st & Hin & Hst).
      apply list_elem_of_fmap. exists st. split; [|exact Hin].
      unfold compose in Hst.
      destruct (isConsistentOn h st bits); [exfalso; apply Hst | ]; reflexivity.
Qed.

Lemma confirmButton_onclick_verdict_witness :
  let h := two_speakers_store in
  let selections := [chose_true; chose_true] in
  (length one_solution ≤ 30)%nat ∧
  length selections = length one_solution ∧
  length (solutionsTo h one_solution) = 1%nat ∧
  match confirmButton_onclick h one_solution (solutionsTo h one_solution) selections with
  | NotAnswered => nochoice ∈ selections
  | CorrectAnswer =>
      ∃ peopleTypeBits,
        selected_bits selections 0 0 = Some peopleTypeBits ∧
        Forall (λ statement, isConsistentOn h statement peopleTypeBits = true) one_solution
  | IncorrectAnswer contradicts =>
      ∃ peopleTypeBits,
        selected_bits selections 0 0 = Some peopleTypeBits ∧
        contradicts
        = map (λ statement, negb (isConsistentOn h statement peopleTypeBits)) one_solution ∧
        true ∈ contradicts
  end.
Proof.
  intros h selections. split; [simpl; lia|]. split; [reflexivity|].
  split; [vm_compute; reflexivity|].
  apply (confirmButton_onclick_verdict h one_solution selections);
    [simpl; lia | reflexivity | vm_compute; reflexivity].
Defined.
